(** * injection-js: the reflective injector and its key registry

    A shallow embedding of [lib/reflective_key.ts] ([ReflectiveKey],
    [KeyRegistry]), [lib/reflective_injector.ts] ([ReflectiveInjector_])
    and [lib/null_injector.ts] ([NullInjector]).

    JavaScript values are a small inductive type in which objects carry an
    address (reference identity).  Injectors are mutable and shared between a
    child and its parent, so they live in a store indexed by injector
    references; every operation threads the store explicitly.  The mutually
    recursive methods of [ReflectiveInjector_] are written with open recursion
    and closed by a fuel-indexed fixpoint; running out of fuel stands for a
    computation that has not finished yet. *)

From Stdlib Require Import ZArith Ascii String Lia.
From stdpp Require Import base list relations.

Local Open Scope string_scope.
Local Open Scope list_scope.
Set Warnings "-register-all".

(** ** Values *)

(** The three module-level objects created with [{}]:
    [THROW_IF_NOT_FOUND] and [UNDEFINED] of reflective_injector.ts, and the
    [THROW_IF_NOT_FOUND] that null_injector.ts imports from
    injector_compatibility.  Each [{}] is an object of its own. *)
Inductive sentinel : Type :=
  | S_THROW_IF_NOT_FOUND
  | S_UNDEFINED
  | S_THROW_IF_NOT_FOUND_compat.

Inductive value : Type :=
  | VUndefined
  | VNull
  | VBool (b : bool)
  | VNum (z : Z)
  | VStr (s : string)
  | VObj (a : nat)                           (* a plain object, by address *)
  | VFunc (a : nat) (name : string)          (* a class or function *)
  | VArr (a : nat) (elems : list value)      (* an array, by address *)
  | VKey (token : value) (id : nat) (displayName : string)
                                             (* a ReflectiveKey instance *)
  | VInj (i : nat)                           (* an injector of the store *)
  | VSentinel (s : sentinel).

Abbreviation THROW_IF_NOT_FOUND := (VSentinel S_THROW_IF_NOT_FOUND).
Abbreviation UNDEFINED := (VSentinel S_UNDEFINED).
Abbreviation THROW_IF_NOT_FOUND_compat := (VSentinel S_THROW_IF_NOT_FOUND_compat).

Definition sentinel_eqb (a b : sentinel) : bool :=
  match a, b with
  | S_THROW_IF_NOT_FOUND, S_THROW_IF_NOT_FOUND => true
  | S_UNDEFINED, S_UNDEFINED => true
  | S_THROW_IF_NOT_FOUND_compat, S_THROW_IF_NOT_FOUND_compat => true
  | _, _ => false
  end.

(** [a === b]: primitives by value, objects by reference. A key object is
    identified by its fields: the registry builds one key per token. *)
Fixpoint strict_eq (a b : value) : bool :=
  match a, b with
  | VUndefined, VUndefined => true
  | VNull, VNull => true
  | VBool x, VBool y => Bool.eqb x y
  | VNum x, VNum y => Z.eqb x y
  | VStr x, VStr y => String.eqb x y
  | VObj x, VObj y => Nat.eqb x y
  | VFunc x _, VFunc y _ => Nat.eqb x y
  | VArr x _, VArr y _ => Nat.eqb x y
  | VKey t i _, VKey u j _ => strict_eq t u && Nat.eqb i j
  | VInj x, VInj y => Nat.eqb x y
  | VSentinel x, VSentinel y => sentinel_eqb x y
  | _, _ => false
  end.

(** [!token] is true for [undefined], [null], [false], [0] and [""]. *)
Definition falsy (v : value) : bool :=
  match v with
  | VUndefined | VNull | VBool false | VNum 0%Z | VStr "" => true
  | _ => false
  end.

(** Modelled from the spec: util/stringify.ts is not part of the sources;
    the display name is "a stable human-readable rendering of the token":
    a function or class renders as its name, a string as itself. *)
Definition stringify (v : value) : string :=
  match v with
  | VUndefined => "undefined"
  | VNull => "null"
  | VBool true => "true"
  | VBool false => "false"
  | VNum _ => "number"
  | VStr s => s
  | VObj _ => "[object Object]"
  | VFunc _ name => name
  | VArr _ _ => "array"
  | VKey _ _ dn => dn
  | VInj _ => "ReflectiveInjector"
  | VSentinel _ => "[object Object]"
  end.

(** A parameter with a default value takes the default when the argument is
    missing or is [undefined]. *)
Definition default_param (arg : option value) (dflt : value) : value :=
  match arg with
  | None => dflt
  | Some VUndefined => dflt
  | Some v => v
  end.

(** ** Keys *)

Record ReflectiveKey : Type := mkKey {
  token : value;
  id : nat;
  displayName : string
}.

Definition key_eqb (k1 k2 : ReflectiveKey) : bool :=
  strict_eq (token k1) (token k2) && Nat.eqb (id k1) (id k2).


(** ** Errors *)

(** [JsError] is a plain [new Error(message)]; it has no [addKey].  The
    next three are the injection errors of reflective_errors.ts.
    [NotAnError v] is a thrown value [v] that is not an Error object, as
    the original exception that an InstantiationError wraps; it has no
    stack. *)
Inductive error : Type :=
  | JsError (message : string) (stack : string)
  | NoProviderError (keys : list ReflectiveKey) (injectors : list nat)
  | CyclicDependencyError (keys : list ReflectiveKey) (injectors : list nat)
  | InstantiationError (original : error) (originalStack : string)
      (keys : list ReflectiveKey) (injectors : list nat)
  | NotAnError (v : value).

(** [e.stack]; the empty text where there is none. *)
Definition stack_of (e : error) : string :=
  match e with
  | JsError _ st => st
  | InstantiationError _ st _ _ => st
  | _ => ""
  end.

(** Modelled from the spec: reflective_errors.ts is not part of the sources.
    Each injection error carries the key of the provider where it arose and
    the injector; [addKey] accumulates the chain of provider keys visited,
    innermost first. *)
Definition noProviderError (injector : nat) (key : ReflectiveKey) : error :=
  NoProviderError [key] [injector].

Definition cyclicDependencyError (injector : nat) (key : ReflectiveKey) : error :=
  CyclicDependencyError [key] [injector].

Definition instantiationError (injector : nat) (original : error)
    (originalStack : string) (key : ReflectiveKey) : error :=
  InstantiationError original originalStack [key] [injector].

(** [if (e.addKey) { e.addKey(injector, key) }] *)
Definition addKey (e : error) (injector : nat) (key : ReflectiveKey) : error :=
  match e with
  | JsError m st => JsError m st
  | NoProviderError ks js => NoProviderError (ks ++ [key]) (js ++ [injector])
  | CyclicDependencyError ks js =>
      CyclicDependencyError (ks ++ [key]) (js ++ [injector])
  | InstantiationError o st ks js =>
      InstantiationError o st (ks ++ [key]) (js ++ [injector])
  | NotAnError v => NotAnError v
  end.



(** ** The key registry *)

Inductive result (A : Type) : Type :=
  | Ok (a : A)
  | Err (e : error).
Arguments Ok {A} a.
Arguments Err {A} e.

(** [new ReflectiveKey(token, id)] *)
Definition ReflectiveKey_new (token : value) (id : nat) : result ReflectiveKey :=
  if falsy token then Err (JsError "Token must be defined!" "")
  else Ok (mkKey token id (stringify token)).

(** [allKeys : Map<any, ReflectiveKey>], in insertion order. *)
Abbreviation KeyRegistry := (list (value * ReflectiveKey)).

Fixpoint allKeys_get (r : KeyRegistry) (t : value) : option ReflectiveKey :=
  match r with
  | [] => None
  | (t', k) :: r' => if strict_eq t' t then Some k else allKeys_get r' t
  end.

(** [get numberOfKeys(): number { return this.allKeys.size; }] *)
Definition numberOfKeys (r : KeyRegistry) : nat := length r.

(** [KeyRegistry.get]. [ReflectiveKey.numberOfKeys] reads the size of the
    global registry, given here as [globalNumberOfKeys]. *)
Definition KeyRegistry_get (globalNumberOfKeys : nat) (r : KeyRegistry)
    (t : value) : result ReflectiveKey * KeyRegistry :=
  match t with
  | VKey tok i dn => (Ok (mkKey tok i dn), r)
  | _ =>
    match allKeys_get r t with
    | Some k => (Ok k, r)
    | None =>
      match ReflectiveKey_new t globalNumberOfKeys with
      | Ok newKey => (Ok newKey, r ++ [(t, newKey)])
      | Err e => (Err e, r)
      end
    end
  end.

(** Modelled from the spec: forward_ref.ts is not part of the sources and
    the spec knows no forward references: a token resolves to itself. *)
Definition resolveForwardRef (t : value) : value := t.

(** [ReflectiveKey.get(token)] on the global registry [g]. *)
Definition ReflectiveKey_get (g : KeyRegistry) (t : value)
    : result ReflectiveKey * KeyRegistry :=
  KeyRegistry_get (numberOfKeys g) g (resolveForwardRef t).

(** ** Resolved providers *)

(** The types of reflective_provider.ts that the injector reads. *)
Inductive Visibility : Type := Self | SkipSelf.

Record ReflectiveDependency : Type := mkDep {
  dep_key : ReflectiveKey;
  optional : bool;
  visibility : option Visibility
}.

(** A factory is user code: called with the resolved arguments, it returns
    a value or throws, an Error object ([FThrow]) or any other value
    ([FThrowValue]).  It may allocate: it is given the next free address
    and returns the next free address after it.  It may also call back
    into an injector it holds, for instance the one it was handed through
    a dependency on the injector token: [FGet next inj token nf k] calls
    [inj.get(token, nf)] when [next] is the next free address, and goes on
    as [k] says with what the call returned or threw and the next free
    address after the call. *)
Inductive factory_result : Type :=
  | FReturn (v : value) (next : nat)
  | FThrow (e : error)
  | FThrowValue (v : value)
  | FGet (next : nat) (inj : nat) (token : value) (notFoundValue : option value)
      (k : result value -> nat -> factory_result).

Definition Factory : Type := list value -> nat -> factory_result.

(** A factory that never calls back into an injector. *)
Definition call_free_factory (f : Factory) : Prop :=
  forall args n, match f args n with
                 | FGet _ _ _ _ _ => False
                 | _ => True
                 end.

Record ResolvedReflectiveFactory : Type := mkFactory {
  factory : Factory;
  dependencies : list ReflectiveDependency
}.

Record ResolvedReflectiveProvider : Type := mkProvider {
  key : ReflectiveKey;
  resolvedFactories : list ResolvedReflectiveFactory;
  multiProvider : bool
}.

(** ** The store of injectors *)

Record ReflectiveInjector_ : Type := mkInjector {
  constructionCounter : nat;
  providers : list ResolvedReflectiveProvider;
  parent : option nat;                 (* Injector | null *)
  keyIds : list nat;
  objs : list value
}.

Inductive Injector : Type :=
  | Reflective (r : ReflectiveInjector_)
  | NullInjector.

Record World : Type := mkWorld {
  injectors : list Injector;
  globalKeyRegistry : KeyRegistry;
  heap_next : nat
}.

Definition set_injector (w : World) (i : nat) (r : ReflectiveInjector_) : World :=
  mkWorld (<[i := Reflective r]> (injectors w)) (globalKeyRegistry w) (heap_next w).

Definition set_heap_next (w : World) (n : nat) : World :=
  mkWorld (injectors w) (globalKeyRegistry w) n.

Definition set_registry (w : World) (g : KeyRegistry) : World :=
  mkWorld (injectors w) g (heap_next w).

Definition set_counter (r : ReflectiveInjector_) (c : nat) : ReflectiveInjector_ :=
  mkInjector c (providers r) (parent r) (keyIds r) (objs r).

Definition set_objs (r : ReflectiveInjector_) (o : list value) : ReflectiveInjector_ :=
  mkInjector (constructionCounter r) (providers r) (parent r) (keyIds r) o.

Definition set_parent (r : ReflectiveInjector_) (p : option nat) : ReflectiveInjector_ :=
  mkInjector (constructionCounter r) (providers r) p (keyIds r) (objs r).

(** [this.objs[i]]; reading past the end of an array gives [undefined]. *)
Definition read_slot (o : list value) (i : nat) : value :=
  default VUndefined (o !! i).

(** ** Computations *)

(** A computation runs in a store and returns a value, throws, or has not
    finished within the fuel it was given. *)
Inductive outcome (A : Type) : Type :=
  | Ret (a : A) (w : World)
  | Thr (e : error) (w : World)
  | Diverge.
Arguments Ret {A} a w.
Arguments Thr {A} e w.
Arguments Diverge {A}.

Definition M (A : Type) : Type := World -> outcome A.

Definition ret {A} (a : A) : M A := fun w => Ret a w.
Definition throw {A} (e : error) : M A := fun w => Thr e w.

Definition bind {A B} (m : M A) (f : A -> M B) : M B :=
  fun w =>
    match m w with
    | Ret a w1 => f a w1
    | Thr e w1 => Thr e w1
    | Diverge => Diverge
    end.

Notation "'let*' x := m 'in' k" := (bind m (fun x => k))
  (at level 10, x name, m at level 100, k at level 200).

(** [l.map(f)], left to right, stopping at the first throw. *)
Fixpoint mapM {A B} (f : A -> M B) (l : list A) : M (list B) :=
  match l with
  | [] => ret []
  | x :: l' => let* y := f x in let* ys := mapM f l' in ret (y :: ys)
  end.

(** What reading a property of [undefined] throws. *)
Definition typeError : error := JsError "TypeError" "".

(** [null] and [undefined] *)
Definition nullish (v : value) : bool :=
  match v with
  | VUndefined | VNull => true
  | _ => false
  end.

(** ** NullInjector *)

(** [NullInjector.get(token, notFoundValue = THROW_IF_NOT_FOUND)], with the
    sentinel of injector_compatibility. *)
Definition NullInjector_get (token : value) (notFoundValue : option value)
    : M value :=
  let notFoundValue := default_param notFoundValue THROW_IF_NOT_FOUND_compat in
  if strict_eq notFoundValue THROW_IF_NOT_FOUND_compat
  then throw (JsError (String.append "No provider for "
                         (String.append (stringify token) "!")) "")
  else ret notFoundValue.

(** ** ReflectiveInjector_ *)

(** [const INJECTOR_KEY = ReflectiveKey.get(Injector)], evaluated when the
    module is loaded, on the empty registry; the class [Injector] is the
    object at address 0. *)
Definition Injector_token : value := VFunc 0 "Injector".
Definition INJECTOR_KEY : ReflectiveKey := mkKey Injector_token 0 "Injector".

(** The first [i] with [keyIds[i] === keyId], as the loop of
    [getObjByKeyId] finds it. *)
Fixpoint find_keyId (keyIds : list nat) (keyId : nat) (i : nat) : option nat :=
  match keyIds with
  | [] => None
  | k :: rest => if Nat.eqb k keyId then Some i else find_keyId rest keyId (S i)
  end.

(** [new ReflectiveInjector_(providers, parent)] *)
Definition ReflectiveInjector__new (providers : list ResolvedReflectiveProvider)
    (parent : option nat) : ReflectiveInjector_ :=
  mkInjector 0 providers parent
    (map (fun p => id (key p)) providers)
    (map (fun _ => UNDEFINED) providers).

Section Methods.

(** The recursive call to [getByKey]. *)
Variable getByKey_rec :
  nat -> ReflectiveKey -> option Visibility -> value -> M value.

Definition getByReflectiveDependency (this : nat) (dep : ReflectiveDependency)
    : M value :=
  getByKey_rec this (dep_key dep) (visibility dep)
    (if optional dep then VNull else THROW_IF_NOT_FOUND).

(** [inj.get(token, notFoundValue)] as user code calls it on the injector
    at [inj]. *)
Definition injector_get (inj : nat) (token : value)
    (notFoundValue : option value) : M value :=
  fun w =>
    match injectors w !! inj with
    | Some (Reflective _) =>
        let nf := default_param notFoundValue THROW_IF_NOT_FOUND in
        match ReflectiveKey_get (globalKeyRegistry w) token with
        | (Ok key, g) => getByKey_rec inj key None nf (set_registry w g)
        | (Err e, g) => Thr e (set_registry w g)
        end
    | Some NullInjector => NullInjector_get token notFoundValue w
    | None => Thr typeError w
    end.

(** [try { obj = factory(...deps) } catch (e) { throw
    instantiationError(this, e, e.stack, provider.key) }], for what the
    factory does: reading [e.stack] of [null] or [undefined] throws a
    TypeError in the place of the InstantiationError. *)
Fixpoint run_factory (this : nat) (provider : ResolvedReflectiveProvider)
    (fr : factory_result) : M value :=
  fun w =>
    match fr with
    | FReturn obj n => Ret obj (set_heap_next w n)
    | FThrow e => Thr (instantiationError this e (stack_of e) (key provider)) w
    | FThrowValue v =>
        if nullish v then Thr typeError w
        else Thr (instantiationError this (NotAnError v) "" (key provider)) w
    | FGet n inj token nf k =>
        match injector_get inj token nf (set_heap_next w n) with
        | Ret v w1 => run_factory this provider (k (Ok v) (heap_next w1)) w1
        | Thr e w1 => run_factory this provider (k (Err e) (heap_next w1)) w1
        | Diverge => Diverge
        end
    end.

Definition instantiate (this : nat) (provider : ResolvedReflectiveProvider)
    (rf : ResolvedReflectiveFactory) : M value :=
  fun w =>
    match mapM (getByReflectiveDependency this) (dependencies rf) w with
    | Ret deps w1 => run_factory this provider (factory rf deps (heap_next w1)) w1
    | Thr e w1 => Thr (addKey e this (key provider)) w1
    | Diverge => Diverge
    end.

Definition instantiateProvider (this : nat)
    (provider : ResolvedReflectiveProvider) : M value :=
  if multiProvider provider then
    fun w =>
      let a := heap_next w in
      match mapM (instantiate this provider) (resolvedFactories provider)
              (set_heap_next w (S a)) with
      | Ret res w1 => Ret (VArr a res) w1
      | Thr e w1 => Thr e w1
      | Diverge => Diverge
      end
  else
    match resolvedFactories provider !! 0%nat with
    | Some rf => instantiate this provider rf
    | None => throw typeError
    end.

Definition new_ (this : nat) (provider : option ResolvedReflectiveProvider)
    : M value :=
  fun w =>
    match injectors w !! this with
    | Some (Reflective r) =>
        let c := constructionCounter r in
        let w1 := set_injector w this (set_counter r (S c)) in
        match provider with
        | Some provider =>
            if Nat.ltb (length (objs r)) c
            then Thr (cyclicDependencyError this (key provider)) w1
            else instantiateProvider this provider w1
        | None => Thr typeError w1
        end
    | _ => Thr typeError w
    end.

Definition getObjByKeyId (this : nat) (keyId : nat) : M value :=
  fun w =>
    match injectors w !! this with
    | Some (Reflective r) =>
        match find_keyId (keyIds r) keyId 0 with
        | Some i =>
            if strict_eq (read_slot (objs r) i) UNDEFINED then
              match new_ this (providers r !! i) w with
              | Ret v w1 =>
                  match injectors w1 !! this with
                  | Some (Reflective r1) =>
                      let r2 := set_objs r1 (<[i := v]> (objs r1)) in
                      Ret (read_slot (objs r2) i) (set_injector w1 this r2)
                  | _ => Thr typeError w1
                  end
              | Thr e w1 => Thr e w1
              | Diverge => Diverge
              end
            else Ret (read_slot (objs r) i) w
        | None => Ret UNDEFINED w
        end
    | _ => Thr typeError w
    end.

Definition throwOrNull (this : nat) (key : ReflectiveKey)
    (notFoundValue : value) : M value :=
  if negb (strict_eq notFoundValue THROW_IF_NOT_FOUND)
  then ret notFoundValue
  else throw (noProviderError this key).

Definition getByKeySelf (this : nat) (key : ReflectiveKey)
    (notFoundValue : value) : M value :=
  let* obj := getObjByKeyId this (id key) in
  if negb (strict_eq obj UNDEFINED) then ret obj
  else throwOrNull this key notFoundValue.

(** The [while (inj instanceof ReflectiveInjector_)] loop of
    [getByKeyDefault] and what follows it; [n] bounds the iterations. *)
Fixpoint walk (n : nat) (this : nat) (key : ReflectiveKey)
    (notFoundValue : value) (inj : option nat) : M value :=
  fun w =>
    match inj with
    | None => throwOrNull this key notFoundValue w
    | Some j =>
        match injectors w !! j with
        | Some (Reflective _) =>
            match n with
            | O => Diverge
            | S n' =>
                match getObjByKeyId j (id key) w with
                | Ret obj w1 =>
                    if negb (strict_eq obj UNDEFINED) then Ret obj w1
                    else
                      match injectors w1 !! j with
                      | Some (Reflective r1) =>
                          walk n' this key notFoundValue (parent r1) w1
                      | _ => Thr typeError w1
                      end
                | Thr e w1 => Thr e w1
                | Diverge => Diverge
                end
            end
        | Some NullInjector =>
            NullInjector_get (token key) (Some notFoundValue) w
        | None => Thr typeError w
        end
    end.

Definition getByKeyDefault (n : nat) (this : nat) (key : ReflectiveKey)
    (notFoundValue : value) (visibility : option Visibility) : M value :=
  fun w =>
    match visibility with
    | Some SkipSelf =>
        match injectors w !! this with
        | Some (Reflective r) => walk n this key notFoundValue (parent r) w
        | _ => Thr typeError w
        end
    | _ => walk n this key notFoundValue (Some this) w
    end.

Definition getByKey_body (n : nat) (this : nat) (key : ReflectiveKey)
    (visibility : option Visibility) (notFoundValue : value) : M value :=
  if key_eqb key INJECTOR_KEY then ret (VInj this)
  else
    match visibility with
    | Some Self => getByKeySelf this key notFoundValue
    | _ => getByKeyDefault n this key notFoundValue visibility
    end.

End Methods.

(** [getByKey], closed over its own recursion. *)
Fixpoint getByKey (fuel : nat) (this : nat) (key : ReflectiveKey)
    (visibility : option Visibility) (notFoundValue : value) : M value :=
  match fuel with
  | O => fun _ => Diverge
  | S fuel' => getByKey_body (getByKey fuel') fuel' this key visibility notFoundValue
  end.

(** [get(token, notFoundValue = THROW_IF_NOT_FOUND)] *)
Definition get (fuel : nat) (this : nat) (token : value)
    (notFoundValue : option value) : M value :=
  fun w =>
    let notFoundValue := default_param notFoundValue THROW_IF_NOT_FOUND in
    match ReflectiveKey_get (globalKeyRegistry w) token with
    | (Ok key, g) => getByKey fuel this key None notFoundValue (set_registry w g)
    | (Err e, g) => Thr e (set_registry w g)
    end.

(** [instantiateResolved(provider)] *)
Definition instantiateResolved (fuel : nat) (this : nat)
    (provider : ResolvedReflectiveProvider) : M value :=
  instantiateProvider (getByKey fuel) this provider.

(** [ReflectiveInjector.fromResolvedProviders(providers, parent)]: the new
    injector is stored at the next free reference, which is returned. *)
Definition fromResolvedProviders (providers : list ResolvedReflectiveProvider)
    (parent : option nat) (w : World) : nat * World :=
  (length (injectors w),
   mkWorld (injectors w ++ [Reflective (ReflectiveInjector__new providers parent)])
     (globalKeyRegistry w) (heap_next w)).

(** [createChildFromResolved(providers)] *)
Definition createChildFromResolved (this : nat)
    (providers : list ResolvedReflectiveProvider) (w : World) : nat * World :=
  let inj := ReflectiveInjector__new providers None in
  (length (injectors w),
   mkWorld (injectors w ++ [Reflective (set_parent inj (Some this))])
     (globalKeyRegistry w) (heap_next w)).

(** ** Sample programs *)

Module Samples.

(** [class A {}] as a provider: a factory without arguments that builds a
    fresh object. *)
Definition class_factory : Factory :=
  fun _ next => FReturn (VObj next) (S next).

(** [{provide: T, useValue: v}] *)
Definition value_factory (v : value) : Factory :=
  fun _ next => FReturn v next.

(** A constructor that throws. *)
Definition throwing_factory (e : error) : Factory :=
  fun _ _ => FThrow e.

Definition tokA : value := VFunc 1 "A".
Definition tokB : value := VFunc 2 "B".
Definition keyA : ReflectiveKey := mkKey tokA 1 "A".
Definition keyB : ReflectiveKey := mkKey tokB 2 "B".

Definition registry0 : KeyRegistry :=
  [(Injector_token, INJECTOR_KEY); (tokA, keyA); (tokB, keyB)].

Definition dep (k : ReflectiveKey) : ReflectiveDependency := mkDep k false None.

Definition provA : ResolvedReflectiveProvider :=
  mkProvider keyA [mkFactory class_factory []] false.
Definition provB : ResolvedReflectiveProvider :=
  mkProvider keyB [mkFactory class_factory []] false.
(* A depends on B and B depends on A *)
Definition cycA : ResolvedReflectiveProvider :=
  mkProvider keyA [mkFactory class_factory [dep keyB]] false.
Definition cycB : ResolvedReflectiveProvider :=
  mkProvider keyB [mkFactory class_factory [dep keyA]] false.
(* A depends on B and then on itself *)
Definition selfBA : ResolvedReflectiveProvider :=
  mkProvider keyA [mkFactory class_factory [dep keyB; dep keyA]] false.
Definition boom : error := JsError "boom" "at Boom".
Definition failA : ResolvedReflectiveProvider :=
  mkProvider keyA [mkFactory (throwing_factory boom) []] false.

(* A factory that is handed the injector, asks it for A, and throws once
   the lookup has returned; when the lookup fails it builds an object. *)
Definition reentrant_factory : Factory :=
  fun _ next => FGet next 0 tokA None
    (fun res next' =>
       match res with
       | Ok _ => FThrow boom
       | Err _ => FReturn (VObj next') (S next')
       end).
Definition reentrantA : ResolvedReflectiveProvider :=
  mkProvider keyA [mkFactory reentrant_factory []] false.
(* The same, wrapping what the lookup returned in a new object. *)
Definition wrapping_factory : Factory :=
  fun _ next => FGet next 0 tokA None
    (fun res next' =>
       match res with
       | Ok v => FReturn (VArr next' [v]) (S next')
       | Err _ => FReturn (VObj next') (S next')
       end).
Definition wrappingA : ResolvedReflectiveProvider :=
  mkProvider keyA [mkFactory wrapping_factory []] false.

Definition world0 : World := mkWorld [] registry0 10.

End Samples.

Import Samples.

(** ** How the store evolves *)

(** Parents are created before their children. *)
Definition wf_world (w : World) : Prop :=
  forall i r p, injectors w !! i = Some (Reflective r) ->
    parent r = Some p -> p < i.

(** The three updates of the store that the injector performs: the counter
    of [new], the cache write of [getObjByKeyId], and an allocation.  The
    bound [b] is the largest injector reference touched. *)
Inductive step (b : nat) : World -> World -> Prop :=
  | step_counter w x r :
      x <= b -> injectors w !! x = Some (Reflective r) ->
      step b w (set_injector w x (set_counter r (S (constructionCounter r))))
  | step_write w x r k i v :
      x <= b -> injectors w !! x = Some (Reflective r) ->
      find_keyId (keyIds r) k 0 = Some i ->
      step b w (set_injector w x (set_objs r (<[i := v]> (objs r))))
  | step_heap w n :
      step b w (set_heap_next w n).

Definition evolves (b : nat) : World -> World -> Prop := rtc (step b).

(** What an injector keeps through the evolution of the store. *)
Record frame_inj (r r1 : ReflectiveInjector_) : Prop := mkFrame {
  frame_providers : providers r1 = providers r;
  frame_parent : parent r1 = parent r;
  frame_keyIds : keyIds r1 = keyIds r;
  frame_length : length (objs r1) = length (objs r);
  frame_counter : constructionCounter r <= constructionCounter r1;
  frame_shadowed : forall j, (forall k, find_keyId (keyIds r) k 0 <> Some j) ->
                     objs r1 !! j = objs r !! j
}.

Definition frame_at (b : nat) (w w1 : World) (x : nat) : Prop :=
  match injectors w !! x with
  | Some (Reflective r) =>
      exists r1, injectors w1 !! x = Some (Reflective r1) /\ frame_inj r r1 /\
                 (b < x -> r1 = r)
  | o => injectors w1 !! x = o
  end.

Record world_rel (b : nat) (w w1 : World) : Prop := mkWorldRel {
  rel_length : length (injectors w1) = length (injectors w);
  rel_registry : globalKeyRegistry w1 = globalKeyRegistry w;
  rel_frame : forall x, frame_at b w w1 x
}.

Lemma frame_inj_refl r : frame_inj r r.
Proof. split; auto. Qed.

Lemma frame_inj_trans r r1 r2 : frame_inj r r1 -> frame_inj r1 r2 -> frame_inj r r2.
Proof.
  intros [] []; split; try congruence; try lia.
  intros j Hj. rewrite frame_shadowed1; [auto|]. congruence.
Qed.

Lemma world_rel_refl b w : world_rel b w w.
Proof.
  split; auto. intros x. unfold frame_at.
  destruct (injectors w !! x) as [[r|]|]; auto.
  exists r; auto using frame_inj_refl.
Qed.

Lemma world_rel_trans b w w1 w2 :
  world_rel b w w1 -> world_rel b w1 w2 -> world_rel b w w2.
Proof.
  intros [L1 G1 F1] [L2 G2 F2]; split; try congruence.
  intros x. specialize (F1 x). specialize (F2 x). unfold frame_at in *.
  destruct (injectors w !! x) as [[r|]|].
  - destruct F1 as (r1 & E1 & Fr1 & B1). rewrite E1 in F2.
    destruct F2 as (r2 & E2 & Fr2 & B2).
    exists r2; split; [auto|split; [eauto using frame_inj_trans|]].
    intros Hb. rewrite B2, B1; auto.
  - rewrite F1 in F2. auto.
  - rewrite F1 in F2. auto.
Qed.

Lemma set_injector_rel b w x r r' :
  x <= b -> injectors w !! x = Some (Reflective r) -> frame_inj r r' ->
  world_rel b w (set_injector w x r').
Proof.
  intros Hx Hr Hf. split; simpl; [apply length_insert|auto|].
  intros y. unfold frame_at. simpl.
  destruct (decide (x = y)) as [->|Hne].
  - rewrite Hr. exists r'. split; [|split; [auto|lia]].
    apply list_lookup_insert_eq. eapply lookup_lt_Some; eauto.
  - rewrite list_lookup_insert_ne by auto.
    destruct (injectors w !! y) as [[ry|]|]; auto.
    exists ry; auto using frame_inj_refl.
Qed.

Lemma step_world_rel b w w1 : step b w w1 -> world_rel b w w1.
Proof.
  destruct 1.
  - eapply set_injector_rel; eauto. split; simpl; auto.
  - eapply set_injector_rel; eauto. split; simpl; auto.
    + apply length_insert.
    + intros j Hj. apply list_lookup_insert_ne. intros ->. eapply Hj; eauto.
  - change (world_rel b w (set_heap_next w n)).
    split; simpl; auto. intros x. unfold frame_at; simpl.
    destruct (injectors w !! x) as [[r|]|]; auto.
    exists r; auto using frame_inj_refl.
Qed.

Lemma evolves_world_rel b w w1 : evolves b w w1 -> world_rel b w w1.
Proof.
  induction 1 as [|w w1 w2 Hs _ IH]; [apply world_rel_refl|].
  eapply world_rel_trans; [apply step_world_rel|]; eauto.
Qed.

Lemma world_rel_lookup b w w1 x r :
  world_rel b w w1 -> injectors w !! x = Some (Reflective r) ->
  exists r1, injectors w1 !! x = Some (Reflective r1) /\ frame_inj r r1 /\
             (b < x -> r1 = r).
Proof. intros [_ _ F] Hr. specialize (F x). unfold frame_at in F. rewrite Hr in F. auto. Qed.

Lemma world_rel_wf b w w1 : world_rel b w w1 -> wf_world w -> wf_world w1.
Proof.
  intros [L G F] Hwf i r1 p Hi Hp. specialize (F i). unfold frame_at in F.
  destruct (injectors w !! i) as [[r|]|] eqn:E.
  - destruct F as (r1' & E1 & Fr & _). rewrite Hi in E1. injection E1 as <-.
    apply (Hwf i r p E). destruct Fr. congruence.
  - congruence.
  - congruence.
Qed.

Lemma step_mono b b' w w1 : b <= b' -> step b w w1 -> step b' w w1.
Proof.
  intros Hb []; [eapply step_counter|eapply step_write|eapply step_heap]; eauto; lia.
Qed.

Lemma evolves_mono b b' w w1 : b <= b' -> evolves b w w1 -> evolves b' w w1.
Proof. intros Hb. induction 1; [constructor|]. econstructor; eauto using step_mono. Qed.

Lemma evolves_trans b w w1 w2 : evolves b w w1 -> evolves b w1 w2 -> evolves b w w2.
Proof. apply rtc_trans. Qed.

Lemma evolves_wf b w w1 : evolves b w w1 -> wf_world w -> wf_world w1.
Proof. intros H. eapply world_rel_wf, evolves_world_rel, H. Qed.

(** ** What every call keeps *)

(** The frame of a call, whatever the factories do: every injector keeps
    its providers, its parent and its key ids, the length of its cache and
    the slots no lookup reaches, and its counter does not decrease. *)
Definition frames (w w1 : World) : Prop :=
  length (injectors w1) = length (injectors w) /\
  (exists h, globalKeyRegistry w1 = globalKeyRegistry w ++ h) /\
  forall x, match injectors w !! x with
            | Some (Reflective r) =>
                exists r1, injectors w1 !! x = Some (Reflective r1) /\ frame_inj r r1
            | o => injectors w1 !! x = o
            end.

Lemma ReflectiveKey_get_extends g t o g' :
  ReflectiveKey_get g t = (o, g') -> exists h, g' = g ++ h.
Proof.
  unfold ReflectiveKey_get, KeyRegistry_get, resolveForwardRef. intros H.
  assert (Hsame : forall o', (o', g) = (o, g') -> exists h, g' = g ++ h).
  { intros o' [= _ <-]. exists []. rewrite app_nil_r. reflexivity. }
  destruct t; try (destruct (allKeys_get g _); [eapply Hsame; exact H|]);
    try (destruct (ReflectiveKey_new _ _);
         [injection H as _ <-; eauto|eapply Hsame; exact H]).
  eapply Hsame; exact H.
Qed.

Lemma frames_refl w : frames w w.
Proof.
  split; [reflexivity|]. split; [exists []; rewrite app_nil_r; reflexivity|].
  intros x.
  destruct (injectors w !! x) as [[r|]|]; auto.
  exists r. auto using frame_inj_refl.
Qed.

Lemma frames_trans w w1 w2 : frames w w1 -> frames w1 w2 -> frames w w2.
Proof.
  intros (L1 & (h1 & G1) & F1) (L2 & (h2 & G2) & F2). split; [congruence|].
  split; [exists (h1 ++ h2); rewrite G2, G1, app_assoc; reflexivity|].
  intros x. specialize (F1 x). specialize (F2 x).
  destruct (injectors w !! x) as [[r|]|].
  - destruct F1 as (r1 & E1 & Fr1). rewrite E1 in F2.
    destruct F2 as (r2 & E2 & Fr2). exists r2. eauto using frame_inj_trans.
  - rewrite F1 in F2. exact F2.
  - rewrite F1 in F2. exact F2.
Qed.

Lemma frames_lookup w w1 x r :
  frames w w1 -> injectors w !! x = Some (Reflective r) ->
  exists r1, injectors w1 !! x = Some (Reflective r1) /\ frame_inj r r1.
Proof. intros (_ & _ & F) Hr. specialize (F x). rewrite Hr in F. exact F. Qed.

Lemma frames_same_injectors w w1 :
  injectors w1 = injectors w ->
  (exists h, globalKeyRegistry w1 = globalKeyRegistry w ++ h) ->
  frames w w1.
Proof.
  intros E G. split; [rewrite E; reflexivity|]. split; [exact G|].
  intros x. rewrite E.
  destruct (injectors w !! x) as [[r|]|]; auto.
  exists r. auto using frame_inj_refl.
Qed.

Lemma frames_heap w n : frames w (set_heap_next w n).
Proof.
  apply frames_same_injectors; [reflexivity|].
  exists []. simpl. rewrite app_nil_r. reflexivity.
Qed.

Lemma frames_registry w t o g :
  ReflectiveKey_get (globalKeyRegistry w) t = (o, g) -> frames w (set_registry w g).
Proof.
  intros H. apply frames_same_injectors; [reflexivity|].
  simpl. eapply ReflectiveKey_get_extends, H.
Qed.

Lemma frames_set_injector w x r r' :
  injectors w !! x = Some (Reflective r) -> frame_inj r r' ->
  frames w (set_injector w x r').
Proof.
  intros Hr Hf. split; simpl; [apply length_insert|].
  split; [exists []; rewrite app_nil_r; reflexivity|].
  intros y. destruct (decide (x = y)) as [->|Hne].
  - rewrite Hr. exists r'. split; [|exact Hf].
    apply list_lookup_insert_eq. eapply lookup_lt_Some; eauto.
  - rewrite list_lookup_insert_ne by auto.
    destruct (injectors w !! y) as [[ry|]|]; auto.
    exists ry. auto using frame_inj_refl.
Qed.

Lemma frames_wf w w1 : frames w w1 -> wf_world w -> wf_world w1.
Proof.
  intros (L & _ & F) Hwf i r1 p Hi Hp. specialize (F i).
  destruct (injectors w !! i) as [[r|]|] eqn:E.
  - destruct F as (r1' & E1 & Fr). rewrite Hi in E1. injection E1 as <-.
    apply (Hwf i r p E). destruct Fr. congruence.
  - congruence.
  - congruence.
Qed.

Lemma world_rel_frames b w w1 : world_rel b w w1 -> frames w w1.
Proof.
  intros [L G F]. split; [exact L|].
  split; [exists []; rewrite G, app_nil_r; reflexivity|].
  intros x. specialize (F x).
  unfold frame_at in F. destruct (injectors w !! x) as [[r|]|]; auto.
  destruct F as (r1 & E & Fr & _). eauto.
Qed.

Lemma evolves_frames b w w1 : evolves b w w1 -> frames w w1.
Proof. intros H. eapply world_rel_frames, evolves_world_rel, H. Qed.

(** [framed w o]: if the computation finished, the store it left is in the
    frame of [w]. *)
Definition framed {A} (w : World) (o : outcome A) : Prop :=
  match o with
  | Ret _ w1 | Thr _ w1 => frames w w1
  | Diverge => True
  end.

Lemma framed_trans {A} w w1 (o : outcome A) :
  frames w w1 -> framed w1 o -> framed w o.
Proof. destruct o; simpl; eauto using frames_trans. Qed.

Lemma mapM_framed {A B} (f : A -> M B) :
  (forall x w, framed w (f x w)) -> forall l w, framed w (mapM f l w).
Proof.
  intros Hf. induction l as [|x l IH]; intros w; simpl.
  - apply frames_refl.
  - unfold bind. specialize (Hf x w).
    destruct (f x w) as [y w1|e w1|]; simpl in *; auto.
    specialize (IH w1).
    destruct (mapM f l w1) as [ys w2|e w2|]; simpl in *; eauto using frames_trans.
Qed.

Lemma NullInjector_get_framed t nf w : framed w (NullInjector_get t nf w).
Proof. unfold NullInjector_get. destruct (strict_eq _ _); simpl; apply frames_refl. Qed.

Lemma throwOrNull_framed this key nf w : framed w (throwOrNull this key nf w).
Proof. unfold throwOrNull. destruct (negb _); simpl; apply frames_refl. Qed.

Section MethodsFrame.

Variable rec : nat -> ReflectiveKey -> option Visibility -> value -> M value.
Hypothesis rec_framed : forall this key vis nf w, framed w (rec this key vis nf w).

Lemma injector_get_framed inj t nf w : framed w (injector_get rec inj t nf w).
Proof.
  unfold injector_get.
  destruct (injectors w !! inj) as [[r|]|];
    [|apply NullInjector_get_framed|apply frames_refl].
  destruct (ReflectiveKey_get _ _) as [[k|e] g] eqn:Hg.
  - eapply framed_trans; [|apply rec_framed].
    eapply frames_registry, Hg.
  - eapply frames_registry, Hg.
Qed.

Lemma run_factory_framed this provider fr : forall w,
  framed w (run_factory rec this provider fr w).
Proof.
  induction fr as [v n|e|v|n inj t nf k IH]; intros w; simpl.
  - apply frames_heap.
  - apply frames_refl.
  - destruct (nullish v); apply frames_refl.
  - pose proof (injector_get_framed inj t nf (set_heap_next w n)) as H.
    destruct (injector_get rec inj t nf (set_heap_next w n)) as [v w1|e w1|];
      simpl in *; auto;
      (eapply framed_trans; [|apply IH]);
      (eapply frames_trans; [|exact H]);
      apply frames_heap.
Qed.

Lemma instantiate_framed this provider rf w :
  framed w (instantiate rec this provider rf w).
Proof.
  unfold instantiate.
  pose proof (mapM_framed (getByReflectiveDependency rec this)
                (fun d w' => rec_framed _ _ _ _ w') (dependencies rf) w) as H.
  destruct (mapM _ _ w) as [deps w1|e w1|]; simpl in *; auto.
  eapply framed_trans; [exact H|apply run_factory_framed].
Qed.

Lemma instantiateProvider_framed this provider w :
  framed w (instantiateProvider rec this provider w).
Proof.
  unfold instantiateProvider.
  destruct (multiProvider provider).
  - pose proof (mapM_framed (instantiate rec this provider)
                  (instantiate_framed this provider)
                  (resolvedFactories provider)
                  (set_heap_next w (S (heap_next w)))) as H.
    destruct (mapM _ _ _) as [res w1|e w1|]; simpl in *; auto;
      (eapply frames_trans; [|exact H]);
      apply frames_heap.
  - destruct (resolvedFactories provider !! 0%nat).
    + apply instantiate_framed.
    + apply frames_refl.
Qed.

Lemma new_framed this provider w : framed w (new_ rec this provider w).
Proof.
  unfold new_.
  destruct (injectors w !! this) as [[r|]|] eqn:E; try apply frames_refl.
  assert (Hs : frames w
            (set_injector w this (set_counter r (S (constructionCounter r)))))
    by (eapply frames_set_injector; [exact E|split; simpl; auto]).
  destruct provider as [p|]; [|exact Hs].
  destruct (length (objs r) <? constructionCounter r)%nat; [exact Hs|].
  eapply framed_trans; [exact Hs|]. apply instantiateProvider_framed.
Qed.

Lemma getObjByKeyId_framed this keyId w :
  framed w (getObjByKeyId rec this keyId w).
Proof.
  unfold getObjByKeyId.
  destruct (injectors w !! this) as [[r|]|] eqn:E; try apply frames_refl.
  destruct (find_keyId (keyIds r) keyId 0) as [i|] eqn:Ef; [|apply frames_refl].
  destruct (strict_eq (read_slot (objs r) i) UNDEFINED); [|apply frames_refl].
  pose proof (new_framed this (providers r !! i) w) as H.
  destruct (new_ rec this (providers r !! i) w) as [v w1|e w1|]; simpl in *; auto.
  destruct (frames_lookup _ _ _ _ H E) as (r1 & E1 & Fr).
  rewrite E1. simpl. eapply frames_trans; [exact H|].
  eapply frames_set_injector; [exact E1|].
  split; simpl; auto.
  - apply length_insert.
  - intros j Hj. apply list_lookup_insert_ne. intros ->.
    apply (Hj keyId). destruct Fr. congruence.
Qed.

Lemma getByKeySelf_framed this key nf w :
  framed w (getByKeySelf rec this key nf w).
Proof.
  unfold getByKeySelf, bind.
  pose proof (getObjByKeyId_framed this (id key) w) as H.
  destruct (getObjByKeyId rec this (id key) w) as [v w1|e w1|]; simpl in *; auto.
  destruct (negb _); [exact H|].
  eapply framed_trans; [exact H|apply throwOrNull_framed].
Qed.

Lemma walk_framed n this key nf : forall inj w,
  framed w (walk rec n this key nf inj w).
Proof.
  induction n as [|n IH]; intros inj w.
  - destruct inj as [j|]; simpl; [|apply throwOrNull_framed].
    destruct (injectors w !! j) as [[r|]|]; simpl; auto; try apply frames_refl.
    apply NullInjector_get_framed.
  - destruct inj as [j|]; simpl; [|apply throwOrNull_framed].
    destruct (injectors w !! j) as [[r|]|] eqn:E; simpl;
      [|apply NullInjector_get_framed|apply frames_refl].
    pose proof (getObjByKeyId_framed j (id key) w) as H.
    destruct (getObjByKeyId rec j (id key) w) as [v w1|e w1|]; simpl in *; auto.
    destruct (negb _); simpl; auto.
    destruct (frames_lookup _ _ _ _ H E) as (r1 & E1 & Fr).
    rewrite E1. eapply framed_trans; [exact H|apply IH].
Qed.

Lemma getByKeyDefault_framed n this key nf vis w :
  framed w (getByKeyDefault rec n this key nf vis w).
Proof.
  unfold getByKeyDefault.
  destruct vis as [[|]|]; try apply walk_framed.
  destruct (injectors w !! this) as [[r|]|]; try apply frames_refl.
  apply walk_framed.
Qed.

Lemma getByKey_body_framed n this key vis nf w :
  framed w (getByKey_body rec n this key vis nf w).
Proof.
  unfold getByKey_body.
  destruct (key_eqb key INJECTOR_KEY); [apply frames_refl|].
  destruct vis as [[|]|];
    auto using getByKeySelf_framed, getByKeyDefault_framed.
Qed.

End MethodsFrame.

Lemma getByKey_framed fuel : forall this key vis nf w,
  framed w (getByKey fuel this key vis nf w).
Proof.
  induction fuel as [|fuel IH]; intros; simpl; [exact I|].
  apply getByKey_body_framed; auto.
Qed.

Lemma get_framed fuel this t arg w : framed w (get fuel this t arg w).
Proof.
  unfold get. destruct (ReflectiveKey_get _ _) as [[k|e] g] eqn:Hg.
  - eapply framed_trans; [|apply getByKey_framed].
    eapply frames_registry, Hg.
  - eapply frames_registry, Hg.
Qed.

Lemma instantiateResolved_framed fuel this p w :
  framed w (instantiateResolved fuel this p w).
Proof. apply instantiateProvider_framed. apply getByKey_framed. Qed.

(** ** Factories that do not call back *)

Definition call_free_provider (p : ResolvedReflectiveProvider) : Prop :=
  forall rf, rf ∈ resolvedFactories p -> call_free_factory (factory rf).

(** No factory of the store calls back into an injector. *)
Definition call_free (w : World) : Prop :=
  forall x r p, injectors w !! x = Some (Reflective r) ->
    p ∈ providers r -> call_free_provider p.

(** A well-formed store whose factories do not call back. *)
Definition quiet (w : World) : Prop := wf_world w /\ call_free w.

Lemma frames_call_free w w1 : frames w w1 -> call_free w -> call_free w1.
Proof.
  intros (L & _ & F) Hc x r1 p Hx Hp. specialize (F x).
  destruct (injectors w !! x) as [[r|]|] eqn:E.
  - destruct F as (r1' & E1 & Fr). rewrite Hx in E1. injection E1 as <-.
    apply (Hc x r p E). destruct Fr. congruence.
  - congruence.
  - congruence.
Qed.

Lemma frames_quiet w w1 : frames w w1 -> quiet w -> quiet w1.
Proof. intros H [Hw Hc]. split; eauto using frames_wf, frames_call_free. Qed.

Lemma evolves_quiet b w w1 : evolves b w w1 -> quiet w -> quiet w1.
Proof. intros H. eapply frames_quiet, evolves_frames, H. Qed.

Lemma run_factory_call_free rec this provider (f : Factory) args n w :
  call_free_factory f ->
  run_factory rec this provider (f args n) w =
  match f args n with
  | FReturn obj n' => Ret obj (set_heap_next w n')
  | FThrow e => Thr (instantiationError this e (stack_of e) (key provider)) w
  | FThrowValue v =>
      if nullish v then Thr typeError w
      else Thr (instantiationError this (NotAnError v) "" (key provider)) w
  | FGet _ _ _ _ _ => Thr typeError w
  end.
Proof.
  intros Hf. specialize (Hf args n).
  destruct (f args n); try reflexivity. contradiction.
Qed.

(** ** The frame of a call whose factories do not call back *)

(** [post b w o]: if the computation finished, the store evolved from [w]
    touching injectors up to [b] only. *)
Definition post {A} (b : nat) (w : World) (o : outcome A) : Prop :=
  match o with
  | Ret _ w1 | Thr _ w1 => evolves b w w1
  | Diverge => True
  end.

Lemma post_trans {A} b w w1 (o : outcome A) :
  evolves b w w1 -> post b w1 o -> post b w o.
Proof. destruct o; simpl; eauto using evolves_trans. Qed.

Lemma mapM_post {A B} (f : A -> M B) b :
  (forall x w, quiet w -> post b w (f x w)) ->
  forall l w, quiet w -> post b w (mapM f l w).
Proof.
  intros Hf. induction l as [|x l IH]; intros w Hw; simpl.
  - apply rtc_refl.
  - unfold bind. specialize (Hf x w Hw).
    destruct (f x w) as [y w1|e w1|]; simpl in *; auto.
    assert (Hw1 : quiet w1) by eauto using evolves_quiet.
    specialize (IH w1 Hw1).
    destruct (mapM f l w1) as [ys w2|e w2|]; simpl in *; eauto using evolves_trans.
Qed.

Lemma mapM_post_in {A B} (f : A -> M B) b l :
  (forall x w, x ∈ l -> quiet w -> post b w (f x w)) ->
  forall w, quiet w -> post b w (mapM f l w).
Proof.
  induction l as [|x l IH]; intros Hf w Hw; simpl.
  - apply rtc_refl.
  - unfold bind. pose proof (Hf x w (list_elem_of_here x l) Hw) as Hx.
    destruct (f x w) as [y w1|e w1|]; simpl in *; auto.
    assert (Hw1 : quiet w1) by eauto using evolves_quiet.
    assert (IH' : post b w1 (mapM f l w1)).
    { apply IH; auto. intros z w' Hz. apply Hf. apply list_elem_of_further, Hz. }
    destruct (mapM f l w1) as [ys w2|e w2|]; simpl in *; eauto using evolves_trans.
Qed.

Section MethodsEvolve.

Variable rec : nat -> ReflectiveKey -> option Visibility -> value -> M value.
Hypothesis rec_post : forall this key vis nf w,
  quiet w -> post this w (rec this key vis nf w).

Lemma instantiate_post this provider rf w :
  quiet w -> call_free_factory (factory rf) ->
  post this w (instantiate rec this provider rf w).
Proof.
  intros Hw Hf. unfold instantiate.
  pose proof (mapM_post (getByReflectiveDependency rec this) this
                (fun d w' H => rec_post _ _ _ _ w' H) (dependencies rf) w Hw) as H.
  destruct (mapM _ _ w) as [deps w1|e w1|]; simpl in *; auto.
  rewrite run_factory_call_free by exact Hf.
  destruct (factory rf deps (heap_next w1)) as [v n|e|v|]; simpl; auto.
  - eapply rtc_r; [eauto|apply step_heap].
  - destruct (nullish v); exact H.
Qed.

Lemma instantiateProvider_post this provider w :
  quiet w -> call_free_provider provider ->
  post this w (instantiateProvider rec this provider w).
Proof.
  intros Hw Hp. unfold instantiateProvider.
  destruct (multiProvider provider).
  - assert (Hs : evolves this w (set_heap_next w (S (heap_next w))))
      by (apply rtc_once, step_heap).
    pose proof (mapM_post_in (instantiate rec this provider) this
                  (resolvedFactories provider)
                  (fun rf w' Hin H => instantiate_post this provider rf w' H (Hp rf Hin))
                  _ (evolves_quiet _ _ _ Hs Hw)) as H.
    destruct (mapM _ _ _) as [res w1|e w1|]; simpl in *; eauto using evolves_trans.
  - destruct (resolvedFactories provider !! 0%nat) as [rf|] eqn:E.
    + apply instantiate_post; auto. apply Hp. eapply list_elem_of_lookup_2, E.
    + apply rtc_refl.
Qed.

Lemma new_post this provider w :
  quiet w -> (forall p, provider = Some p -> call_free_provider p) ->
  post this w (new_ rec this provider w).
Proof.
  intros Hw Hp. unfold new_.
  destruct (injectors w !! this) as [[r|]|] eqn:E; try apply rtc_refl.
  assert (Hs : evolves this w
            (set_injector w this (set_counter r (S (constructionCounter r)))))
    by (apply rtc_once; eapply step_counter; eauto).
  destruct provider as [p|]; [|exact Hs].
  destruct (length (objs r) <? constructionCounter r)%nat; [exact Hs|].
  eapply post_trans; [exact Hs|].
  apply instantiateProvider_post; eauto using evolves_quiet.
Qed.

Lemma getObjByKeyId_post this keyId w :
  quiet w -> post this w (getObjByKeyId rec this keyId w).
Proof.
  intros Hw. unfold getObjByKeyId.
  destruct (injectors w !! this) as [[r|]|] eqn:E; try apply rtc_refl.
  destruct (find_keyId (keyIds r) keyId 0) as [i|] eqn:Ef; [|apply rtc_refl].
  destruct (strict_eq (read_slot (objs r) i) UNDEFINED); [|apply rtc_refl].
  assert (Hp : forall p, providers r !! i = Some p -> call_free_provider p).
  { intros p Hi. apply (proj2 Hw this r p E). eapply list_elem_of_lookup_2, Hi. }
  pose proof (new_post this (providers r !! i) w Hw Hp) as H.
  destruct (new_ rec this (providers r !! i) w) as [v w1|e w1|]; simpl in *; auto.
  destruct (world_rel_lookup _ _ _ _ _ (evolves_world_rel _ _ _ H) E)
    as (r1 & E1 & Fr & _).
  rewrite E1. simpl. eapply rtc_r; [exact H|].
  eapply (step_write this w1 this r1 keyId i v); eauto.
  destruct Fr. congruence.
Qed.

Lemma NullInjector_get_post b t nf w : post b w (NullInjector_get t nf w).
Proof.
  unfold NullInjector_get.
  destruct (strict_eq _ _); simpl; apply rtc_refl.
Qed.

Lemma throwOrNull_post b this key nf w : post b w (throwOrNull this key nf w).
Proof. unfold throwOrNull. destruct (negb _); simpl; apply rtc_refl. Qed.

Lemma getByKeySelf_post this key nf w :
  quiet w -> post this w (getByKeySelf rec this key nf w).
Proof.
  intros Hw. unfold getByKeySelf, bind.
  pose proof (getObjByKeyId_post this (id key) w Hw) as H.
  destruct (getObjByKeyId rec this (id key) w) as [v w1|e w1|]; simpl in *; auto.
  destruct (negb _); [exact H|].
  eapply post_trans; [exact H|apply throwOrNull_post].
Qed.

Lemma walk_post n this key nf b : forall inj w,
  quiet w -> (forall j, inj = Some j -> j <= b) ->
  post b w (walk rec n this key nf inj w).
Proof.
  induction n as [|n IH]; intros inj w Hw Hj.
  - destruct inj as [j|]; simpl; [|apply throwOrNull_post].
    destruct (injectors w !! j) as [[r|]|]; simpl; auto; try apply rtc_refl.
    apply NullInjector_get_post.
  - destruct inj as [j|]; simpl; [|apply throwOrNull_post].
    destruct (injectors w !! j) as [[r|]|] eqn:E; simpl;
      [|apply NullInjector_get_post|apply rtc_refl].
    specialize (Hj j eq_refl).
    pose proof (getObjByKeyId_post j (id key) w Hw) as H.
    destruct (getObjByKeyId rec j (id key) w) as [v w1|e w1|]; simpl in *;
      eauto using evolves_mono.
    destruct (negb _); simpl; eauto using evolves_mono.
    destruct (world_rel_lookup _ _ _ _ _ (evolves_world_rel _ _ _ H) E)
      as (r1 & E1 & Fr & _).
    rewrite E1. eapply post_trans; [eapply evolves_mono; [|exact H]; lia|].
    assert (Hw1 : quiet w1) by eauto using evolves_quiet.
    apply IH; auto. intros p Hp.
    pose proof (proj1 Hw1 j r1 p E1 Hp). lia.
Qed.

Lemma getByKeyDefault_post n this key nf vis w :
  quiet w -> post this w (getByKeyDefault rec n this key nf vis w).
Proof.
  intros Hw. unfold getByKeyDefault.
  destruct vis as [[|]|].
  - apply walk_post; auto. intros j [= ->]. lia.
  - destruct (injectors w !! this) as [[r|]|] eqn:E; try apply rtc_refl.
    apply walk_post; auto. intros p Hp. pose proof (proj1 Hw this r p E Hp). lia.
  - apply walk_post; auto. intros j [= ->]. lia.
Qed.

Lemma getByKey_body_post n this key vis nf w :
  quiet w -> post this w (getByKey_body rec n this key vis nf w).
Proof.
  intros Hw. unfold getByKey_body.
  destruct (key_eqb key INJECTOR_KEY); [apply rtc_refl|].
  destruct vis as [[|]|];
    auto using getByKeySelf_post, getByKeyDefault_post.
Qed.

End MethodsEvolve.

Lemma getByKey_post fuel : forall this key vis nf w,
  quiet w -> post this w (getByKey fuel this key vis nf w).
Proof.
  induction fuel as [|fuel IH]; intros; simpl; [exact I|].
  apply getByKey_body_post; auto.
Qed.

(** ** More fuel never changes a finished computation *)

Definition refines {A} (m m' : M A) : Prop :=
  forall w, m w <> Diverge -> m' w = m w.

Lemma refines_refl {A} (m : M A) : refines m m.
Proof. intros w _. reflexivity. Qed.

Lemma bind_refines {A B} (m m' : M A) (f f' : A -> M B) :
  refines m m' -> (forall a, refines (f a) (f' a)) ->
  refines (bind m f) (bind m' f').
Proof.
  intros Hm Hf w. unfold bind. intros H.
  destruct (m w) as [a w1|e w1|] eqn:E; try congruence.
  - rewrite (Hm w) by congruence. rewrite E. apply Hf. exact H.
  - rewrite (Hm w) by congruence. rewrite E. reflexivity.
Qed.

Lemma mapM_refines {A B} (f f' : A -> M B) :
  (forall x, refines (f x) (f' x)) -> forall l, refines (mapM f l) (mapM f' l).
Proof.
  intros Hf. induction l as [|x l IH]; simpl; [apply refines_refl|].
  apply bind_refines; auto. intros y.
  apply bind_refines; auto. intros ys. apply refines_refl.
Qed.

Section MethodsRefine.

Variables rec rec' : nat -> ReflectiveKey -> option Visibility -> value -> M value.
Hypothesis rec_refines : forall this key vis nf,
  refines (rec this key vis nf) (rec' this key vis nf).

Lemma injector_get_refines inj t nf :
  refines (injector_get rec inj t nf) (injector_get rec' inj t nf).
Proof.
  intros w. unfold injector_get.
  destruct (injectors w !! inj) as [[r|]|]; try reflexivity.
  destruct (ReflectiveKey_get _ _) as [[k|e] g]; [|reflexivity].
  apply rec_refines.
Qed.

Lemma run_factory_refines this provider fr :
  refines (run_factory rec this provider fr) (run_factory rec' this provider fr).
Proof.
  induction fr as [v n|e|v|n inj t nf k IH]; intros w; simpl; try reflexivity.
  pose proof (injector_get_refines inj t nf (set_heap_next w n)) as H.
  destruct (injector_get rec inj t nf (set_heap_next w n)) as [v w1|e w1|] eqn:E;
    try congruence; rewrite H by congruence; apply IH.
Qed.

Lemma instantiate_refines this provider rf :
  refines (instantiate rec this provider rf) (instantiate rec' this provider rf).
Proof.
  intros w. unfold instantiate.
  pose proof (mapM_refines (getByReflectiveDependency rec this)
                (getByReflectiveDependency rec' this)
                (fun d => rec_refines _ _ _ _) (dependencies rf) w) as H.
  destruct (mapM (getByReflectiveDependency rec this) _ w) eqn:E;
    try congruence; rewrite H by congruence; [|reflexivity].
  apply run_factory_refines.
Qed.

Lemma instantiateProvider_refines this provider :
  refines (instantiateProvider rec this provider)
          (instantiateProvider rec' this provider).
Proof.
  intros w. unfold instantiateProvider.
  destruct (multiProvider provider).
  - pose proof (mapM_refines (instantiate rec this provider)
                  (instantiate rec' this provider)
                  (instantiate_refines this provider)
                  (resolvedFactories provider)
                  (set_heap_next w (S (heap_next w)))) as H.
    destruct (mapM (instantiate rec this provider) _ _) eqn:E;
      try congruence; intros _; rewrite H by congruence; reflexivity.
  - destruct (resolvedFactories provider !! 0%nat); [|reflexivity].
    apply instantiate_refines.
Qed.

Lemma new_refines this provider :
  refines (new_ rec this provider) (new_ rec' this provider).
Proof.
  intros w. unfold new_.
  destruct (injectors w !! this) as [[r|]|]; try reflexivity.
  destruct provider as [p|]; [|reflexivity].
  destruct (_ <? _)%nat; [reflexivity|].
  apply instantiateProvider_refines.
Qed.

Lemma getObjByKeyId_refines this keyId :
  refines (getObjByKeyId rec this keyId) (getObjByKeyId rec' this keyId).
Proof.
  intros w. unfold getObjByKeyId.
  destruct (injectors w !! this) as [[r|]|]; try reflexivity.
  destruct (find_keyId _ _ _) as [i|]; [|reflexivity].
  destruct (strict_eq _ _); [|reflexivity].
  pose proof (new_refines this (providers r !! i) w) as H.
  destruct (new_ rec this _ w) eqn:E; try congruence;
    intros _; rewrite H by congruence; reflexivity.
Qed.

Lemma getByKeySelf_refines this key nf :
  refines (getByKeySelf rec this key nf) (getByKeySelf rec' this key nf).
Proof.
  unfold getByKeySelf. apply bind_refines.
  - apply getObjByKeyId_refines.
  - intros a. apply refines_refl.
Qed.

Lemma walk_refines n n' this key nf : n <= n' ->
  forall inj, refines (walk rec n this key nf inj) (walk rec' n' this key nf inj).
Proof.
  revert n'. induction n as [|n IH]; intros n' Hn inj w.
  - destruct inj as [j|]; simpl.
    + destruct n'; simpl; destruct (injectors w !! j) as [[r|]|]; congruence.
    + destruct n'; reflexivity.
  - destruct n' as [|n']; [lia|].
    destruct inj as [j|]; simpl; [|reflexivity].
    destruct (injectors w !! j) as [[r|]|]; try reflexivity.
    pose proof (getObjByKeyId_refines j (id key) w) as H.
    destruct (getObjByKeyId rec j (id key) w) as [v w1|e w1|] eqn:E;
      try congruence; rewrite H by congruence; try reflexivity.
    destruct (negb _); [reflexivity|].
    destruct (injectors w1 !! j) as [[r1|]|]; try reflexivity.
    apply IH. lia.
Qed.

Lemma getByKey_body_refines n n' this key vis nf : n <= n' ->
  refines (getByKey_body rec n this key vis nf)
          (getByKey_body rec' n' this key vis nf).
Proof.
  intros Hn. unfold getByKey_body.
  destruct (key_eqb key INJECTOR_KEY); [apply refines_refl|].
  destruct vis as [[|]|]; [apply getByKeySelf_refines| |];
    intros w; unfold getByKeyDefault.
  - destruct (injectors w !! this) as [[r|]|]; try reflexivity.
    apply walk_refines; auto.
  - apply walk_refines; auto.
Qed.

End MethodsRefine.

Lemma getByKey_fuel_mono fuel : forall fuel' this key vis nf, fuel <= fuel' ->
  refines (getByKey fuel this key vis nf) (getByKey fuel' this key vis nf).
Proof.
  induction fuel as [|fuel IH]; intros fuel' this key vis nf Hle.
  - intros w H. simpl in H. congruence.
  - destruct fuel' as [|fuel']; [lia|]. simpl.
    apply getByKey_body_refines; [|lia].
    intros. apply IH. lia.
Qed.

Lemma get_fuel_mono fuel fuel' this tok nf : fuel <= fuel' ->
  refines (get fuel this tok nf) (get fuel' this tok nf).
Proof.
  intros Hle w. unfold get.
  destruct (ReflectiveKey_get _ _) as [[k|e] g]; [|reflexivity].
  apply getByKey_fuel_mono; auto.
Qed.

(** ** The key registry: identity and ids *)

Lemma strict_eq_refl v : strict_eq v v = true.
Proof.
  induction v; simpl; auto using Nat.eqb_refl, Z.eqb_refl, String.eqb_refl.
  - destruct b; auto.
  - rewrite IHv, Nat.eqb_refl. auto.
  - destruct s; auto.
Qed.

Lemma allKeys_get_app g h t :
  allKeys_get (g ++ h) t =
  match allKeys_get g t with Some k => Some k | None => allKeys_get h t end.
Proof.
  induction g as [|[t' k'] g IH]; simpl; auto.
  destruct (strict_eq t' t); auto.
Qed.




Definition is_key (t : value) : bool :=
  match t with VKey _ _ _ => true | _ => false end.

Lemma ReflectiveKey_get_found g t k :
  is_key t = false -> allKeys_get g t = Some k ->
  ReflectiveKey_get g t = (Ok k, g).
Proof.
  unfold ReflectiveKey_get, KeyRegistry_get, resolveForwardRef.
  intros Hk ->. destruct t; auto; discriminate.
Qed.

Lemma ReflectiveKey_get_cases g t :
  (exists tok i dn, t = VKey tok i dn /\
     ReflectiveKey_get g t = (Ok (mkKey tok i dn), g)) \/
  (is_key t = false /\ exists k, allKeys_get g t = Some k /\
     ReflectiveKey_get g t = (Ok k, g)) \/
  (is_key t = false /\ allKeys_get g t = None /\ falsy t = false /\
     ReflectiveKey_get g t =
       (Ok (mkKey t (length g) (stringify t)),
        g ++ [(t, mkKey t (length g) (stringify t))])) \/
  (is_key t = false /\ allKeys_get g t = None /\ falsy t = true /\
     ReflectiveKey_get g t = (Err (JsError "Token must be defined!" ""), g)).
Proof.
  destruct (is_key t) eqn:Hk.
  - left. destruct t; try discriminate. eauto.
  - right. destruct (allKeys_get g t) as [k|] eqn:Hg.
    + left. eauto using ReflectiveKey_get_found.
    + right. unfold ReflectiveKey_get, KeyRegistry_get, resolveForwardRef,
        ReflectiveKey_new, numberOfKeys. rewrite Hg.
      destruct (falsy t) eqn:Hf; [right|left];
        destruct t; try discriminate; auto.
Qed.




(** ** Key construction *)

(** C9, as stated, asks the error of a falsy token to carry that token.
    The error built for [null] and the one built for [0] are the same
    error, so the token cannot be read off it. *)
Lemma C9_error_carries_no_token :
  ~ (exists carried : error -> value,
       forall t, falsy t = true ->
         exists e, ReflectiveKey_new t 0 = Err e /\ carried e = t).
Proof.
  intros (carried & H).
  destruct (H VNull eq_refl) as (e1 & E1 & C1).
  destruct (H (VNum 0) eq_refl) as (e2 & E2 & C2).
  cbv in E1, E2. congruence.
Qed.

(** C9, amended. Constructing a key for a falsy token ([undefined], [null],
    [false], [0], the empty string) fails with the error whose message is
    the constant "Token must be defined!"; for every other token it
    succeeds, keeps token and id, and takes the display name from the
    token. *)
Theorem C9_key_construction (t : value) (i : nat) :
  (t ∈ [VUndefined; VNull; VBool false; VNum 0; VStr ""] ->
     ReflectiveKey_new t i = Err (JsError "Token must be defined!" "")) /\
  (t ∉ [VUndefined; VNull; VBool false; VNum 0; VStr ""] ->
     exists k, ReflectiveKey_new t i = Ok k /\
       token k = t /\ id k = i /\ displayName k = stringify t).
Proof.
  split.
  - intros H. repeat (apply elem_of_cons in H as [->|H]; [reflexivity|]).
    inversion H.
  - intros H. unfold ReflectiveKey_new.
    destruct (falsy t) eqn:Hf.
    + exfalso. apply H.
      destruct t as [| |[|]|[| |]|[|]| | | | | |]; try discriminate;
        repeat constructor.
    + eexists; split; [reflexivity|auto].
Qed.

Lemma C9_witness :
  ReflectiveKey_new VNull 3 = Err (JsError "Token must be defined!" "") /\
  exists k, ReflectiveKey_new tokA 3 = Ok k /\
    token k = tokA /\ id k = 3 /\ displayName k = stringify tokA.
Proof.
  split.
  - apply (C9_key_construction VNull 3). repeat constructor.
  - apply (C9_key_construction tokA 3).
    intros H. repeat (apply elem_of_cons in H as [H|H]; [discriminate|]).
    inversion H.
Defined.

(** ** Tokens without a provider *)

(** [chain_end js kid inj e]: walking up from [inj], no reflective injector
    binds the key id [kid]; the chain ends in [null] ([e = None]) or in the
    null injector stored at [j] ([e = Some j]). *)
Inductive chain_end (js : list Injector) (kid : nat)
    : option nat -> option nat -> Prop :=
  | chain_end_null : chain_end js kid None None
  | chain_end_NullInjector j :
      js !! j = Some NullInjector -> chain_end js kid (Some j) (Some j)
  | chain_end_parent j r e :
      js !! j = Some (Reflective r) ->
      find_keyId (keyIds r) kid 0 = None ->
      chain_end js kid (parent r) e ->
      chain_end js kid (Some j) e.

Lemma getObjByKeyId_unbound rec j r kid w :
  injectors w !! j = Some (Reflective r) ->
  find_keyId (keyIds r) kid 0 = None ->
  getObjByKeyId rec j kid w = Ret UNDEFINED w.
Proof. intros E F. unfold getObjByKeyId. rewrite E, F. reflexivity. Qed.

Lemma walk_unbound this key w inj e :
  chain_end (injectors w) (id key) inj e ->
  exists N, forall rec nf n, N <= n ->
    walk rec n this key nf inj w =
    match e with
    | None => throwOrNull this key nf w
    | Some _ => NullInjector_get (token key) (Some nf) w
    end.
Proof.
  induction 1 as [|j Hj|j r e Hj Hf Hc (N & IH)].
  - exists 0. intros rec nf [|n] _; reflexivity.
  - exists 0. intros rec nf [|n] _; simpl; rewrite Hj; reflexivity.
  - exists (S N). intros rec nf [|n] Hn; [lia|]. simpl. rewrite Hj.
    rewrite (getObjByKeyId_unbound rec j r (id key) w Hj Hf). simpl.
    rewrite Hj. apply IH. lia.
Qed.

Lemma strict_eq_sentinel_ne D s : D <> VSentinel s -> strict_eq D (VSentinel s) = false.
Proof.
  intros HD. destruct D as [| | | | | | | | | |s0]; try reflexivity.
  destruct s0, s; try reflexivity; congruence.
Qed.

Lemma default_param_supplied D dflt : D <> VUndefined -> default_param (Some D) dflt = D.
Proof. intros HD. destruct D; try reflexivity. congruence. Qed.

Lemma get_unfold fuel this t arg w k g :
  ReflectiveKey_get (globalKeyRegistry w) t = (Ok k, g) ->
  get fuel this t arg w =
  getByKey fuel this k None (default_param arg THROW_IF_NOT_FOUND) (set_registry w g).
Proof. intros H. unfold get. rewrite H. reflexivity. Qed.

Lemma getByKey_default_unfold fuel this k nf w :
  key_eqb k INJECTOR_KEY = false ->
  getByKey (S fuel) this k None nf w =
  walk (getByKey fuel) fuel this k nf (Some this) w.
Proof. intros H. simpl. unfold getByKey_body. rewrite H. reflexivity. Qed.

(** C3, as stated, lets [get(T, undefined)] return [undefined].  An
    argument [undefined] selects the default of the parameter, so the call
    fails as [get(T)] does, in a reflective injector and in the null
    injector alike. *)
Lemma C3_undefined_default_throws :
  let w := snd (fromResolvedProviders [provA] None world0) in
  get 5 0 tokB (Some VUndefined) w = Thr (noProviderError 0 keyB) w /\
  NullInjector_get tokB (Some VUndefined) w =
    Thr (JsError "No provider for B!" "") w.
Proof. split; reflexivity. Qed.

(** C3, amended. Let [T] be a token that has or receives a key [k], other
    than the injector token, bound nowhere up the parent chain of the
    container.  If the chain ends in [null], [get(T)] fails with the
    NoProviderError of [k] and [get(T, D)] returns [D] for every [D] other
    than [undefined] and the container's throw sentinel.  If the chain ends
    in a null injector, [get(T, D)] returns [D] for every [D] other than
    [undefined] and the two throw sentinels.  The null injector itself
    fails with its "No provider for T!" error on [get(T)] and returns [D]
    on [get(T, D)] for every [D] other than [undefined] and its throw
    sentinel.  The store is left as it was, the registry apart. *)
Theorem C3_no_provider (w : World) (this : nat) (t : value)
    (k : ReflectiveKey) (g : KeyRegistry) (e : option nat) :
  ReflectiveKey_get (globalKeyRegistry w) t = (Ok k, g) ->
  key_eqb k INJECTOR_KEY = false ->
  chain_end (injectors w) (id k) (Some this) e ->
  (exists N, forall fuel, N <= fuel ->
     (e = None ->
        get fuel this t None w = Thr (noProviderError this k) (set_registry w g) /\
        forall D, D <> VUndefined -> D <> THROW_IF_NOT_FOUND ->
          get fuel this t (Some D) w = Ret D (set_registry w g)) /\
     (e <> None ->
        forall D, D <> VUndefined -> D <> THROW_IF_NOT_FOUND ->
          D <> THROW_IF_NOT_FOUND_compat ->
          get fuel this t (Some D) w = Ret D (set_registry w g))) /\
  NullInjector_get t None w =
    Thr (JsError (String.append "No provider for "
                    (String.append (stringify t) "!")) "") w /\
  (forall D, D <> VUndefined -> D <> THROW_IF_NOT_FOUND_compat ->
     NullInjector_get t (Some D) w = Ret D w).
Proof.
  intros Hk Hinj Hc.
  split; [|split].
  - destruct (walk_unbound this k (set_registry w g) _ _ Hc) as (N & HN).
    exists (S N). intros [|fuel] Hfuel; [lia|].
    split.
    + intros ->. split.
      * rewrite (get_unfold _ _ _ _ _ _ _ Hk), getByKey_default_unfold by auto.
        rewrite HN by lia. reflexivity.
      * intros D HD1 HD2.
        rewrite (get_unfold _ _ _ _ _ _ _ Hk), getByKey_default_unfold by auto.
        rewrite HN by lia. rewrite default_param_supplied by auto.
        unfold throwOrNull. rewrite strict_eq_sentinel_ne by auto. reflexivity.
    + intros He D HD1 HD2 HD3. destruct e as [j|]; [|congruence].
      rewrite (get_unfold _ _ _ _ _ _ _ Hk), getByKey_default_unfold by auto.
      rewrite HN by lia. rewrite default_param_supplied by auto.
      unfold NullInjector_get. rewrite default_param_supplied by auto.
      rewrite strict_eq_sentinel_ne by auto. reflexivity.
  - reflexivity.
  - intros D HD1 HD2. unfold NullInjector_get.
    rewrite default_param_supplied by auto.
    rewrite strict_eq_sentinel_ne by auto. reflexivity.
Qed.

Lemma C3_witness :
  let w := snd (fromResolvedProviders [provA] None world0) in
  exists N, forall fuel, N <= fuel ->
    get fuel 0 tokB None w = Thr (noProviderError 0 keyB) w.
Proof.
  intros w.
  destruct (C3_no_provider w 0 tokB keyB registry0 None eq_refl eq_refl) as ((N & H) & _).
  - eapply chain_end_parent; [reflexivity|reflexivity|apply chain_end_null].
  - exists N. intros fuel Hf. destruct (H fuel Hf) as (H1 & _).
    destruct (H1 eq_refl) as (H2 & _). exact H2.
Defined.

(** A container whose parent is the null injector hands its own throw
    sentinel to [NullInjector.get], which compares with another object and
    returns the sentinel as if it were a default value. *)
Example get_with_null_parent_returns_sentinel :
  let w := snd (fromResolvedProviders [provA] (Some 0)
                  (mkWorld [NullInjector] registry0 10)) in
  get 5 1 tokB None w = Ret THROW_IF_NOT_FOUND w.
Proof. reflexivity. Qed.

(** ** Unfolding the construction of a slot *)

Definition incr_counter (w : World) (this : nat) (r : ReflectiveInjector_) : World :=
  set_injector w this (set_counter r (S (constructionCounter r))).

Lemma incr_counter_frames w this r :
  injectors w !! this = Some (Reflective r) ->
  frames w (incr_counter w this r).
Proof.
  intros H. eapply frames_set_injector; [exact H|split; simpl; auto].
Qed.

Definition write_slot (w : World) (this : nat) (i : nat) (v : value) : outcome value :=
  match injectors w !! this with
  | Some (Reflective r1) =>
      let r2 := set_objs r1 (<[i := v]> (objs r1)) in
      Ret (read_slot (objs r2) i) (set_injector w this r2)
  | _ => Thr typeError w
  end.

Lemma getObjByKeyId_cached rec this r kid i w :
  injectors w !! this = Some (Reflective r) ->
  find_keyId (keyIds r) kid 0 = Some i ->
  strict_eq (read_slot (objs r) i) UNDEFINED = false ->
  getObjByKeyId rec this kid w = Ret (read_slot (objs r) i) w.
Proof. intros E F S. unfold getObjByKeyId. rewrite E, F, S. reflexivity. Qed.

Lemma getObjByKeyId_construct rec this r kid i w :
  injectors w !! this = Some (Reflective r) ->
  find_keyId (keyIds r) kid 0 = Some i ->
  strict_eq (read_slot (objs r) i) UNDEFINED = true ->
  getObjByKeyId rec this kid w =
  match new_ rec this (providers r !! i) w with
  | Ret v w1 => write_slot w1 this i v
  | Thr e w1 => Thr e w1
  | Diverge => Diverge
  end.
Proof. intros E F S. unfold getObjByKeyId, write_slot. rewrite E, F, S. reflexivity. Qed.

Lemma new_guard_passes rec this r p w :
  injectors w !! this = Some (Reflective r) ->
  constructionCounter r <= length (objs r) ->
  new_ rec this (Some p) w = instantiateProvider rec this p (incr_counter w this r).
Proof.
  intros E H. unfold new_. rewrite E.
  destruct (Nat.ltb_spec (length (objs r)) (constructionCounter r)); [lia|reflexivity].
Qed.

Lemma new_guard_fails rec this r p w :
  injectors w !! this = Some (Reflective r) ->
  length (objs r) < constructionCounter r ->
  new_ rec this (Some p) w =
  Thr (cyclicDependencyError this (key p)) (incr_counter w this r).
Proof.
  intros E H. unfold new_. rewrite E.
  destruct (Nat.ltb_spec (length (objs r)) (constructionCounter r)); [reflexivity|lia].
Qed.

Lemma instantiateProvider_single rec this p rf rest w :
  multiProvider p = false -> resolvedFactories p = rf :: rest ->
  instantiateProvider rec this p w = instantiate rec this p rf w.
Proof. intros Hm Hf. unfold instantiateProvider. rewrite Hm, Hf. reflexivity. Qed.

Lemma walk_first rec n this k nf j r w :
  injectors w !! j = Some (Reflective r) ->
  walk rec (S n) this k nf (Some j) w =
  match getObjByKeyId rec j (id k) w with
  | Ret obj w1 =>
      if negb (strict_eq obj UNDEFINED) then Ret obj w1
      else match injectors w1 !! j with
           | Some (Reflective r1) => walk rec n this k nf (parent r1) w1
           | _ => Thr typeError w1
           end
  | Thr e w1 => Thr e w1
  | Diverge => Diverge
  end.
Proof. intros E. simpl. rewrite E. reflexivity. Qed.

(** ** Failures during construction *)







(** ** Visibility: Self and SkipSelf *)

Lemma getObjByKeyId_readback rec this kid r i w v w1 :
  injectors w !! this = Some (Reflective r) ->
  find_keyId (keyIds r) kid 0 = Some i ->
  getObjByKeyId rec this kid w = Ret v w1 ->
  exists r1, injectors w1 !! this = Some (Reflective r1) /\
             read_slot (objs r1) i = v.
Proof.
  intros E F H. unfold getObjByKeyId in H. rewrite E, F in H.
  destruct (strict_eq (read_slot (objs r) i) UNDEFINED).
  - destruct (new_ rec this (providers r !! i) w) as [v' w'|e w'|]; try discriminate.
    destruct (injectors w' !! this) as [[r'|]|] eqn:E'; try discriminate.
    injection H as <- <-.
    exists (set_objs r' (<[i := v']> (objs r'))). split; [|reflexivity]. simpl.
    apply list_lookup_insert_eq. eapply lookup_lt_Some; eauto.
  - injection H as <- <-. eauto.
Qed.

Lemma getByKey_Self_unfold fuel this k nf w :
  key_eqb k INJECTOR_KEY = false ->
  getByKey (S fuel) this k (Some Self) nf w =
  getByKeySelf (getByKey fuel) this k nf w.
Proof. intros H. simpl. unfold getByKey_body. rewrite H. reflexivity. Qed.

Lemma getByKey_SkipSelf_unfold fuel this k nf r w :
  key_eqb k INJECTOR_KEY = false ->
  injectors w !! this = Some (Reflective r) ->
  getByKey (S fuel) this k (Some SkipSelf) nf w =
  walk (getByKey fuel) fuel this k nf (parent r) w.
Proof.
  intros H E. simpl. unfold getByKey_body, getByKeyDefault. rewrite H, E. reflexivity.
Qed.

(** The walk up the chain of parents uses the container it was started
    for in one place only: the NoProviderError it ends with. *)
Lemma walk_this rec n this this' k nf : forall inj w,
  match walk rec n this k nf inj w, walk rec n this' k nf inj w with
  | Ret v w1, Ret v' w1' => v = v' /\ w1 = w1'
  | Thr e w1, Thr e' w1' =>
      w1 = w1' /\
      (e = e' \/ (e = noProviderError this k /\ e' = noProviderError this' k))
  | Diverge, Diverge => True
  | _, _ => False
  end.
Proof.
  assert (Hton : forall w,
            match throwOrNull this k nf w, throwOrNull this' k nf w with
            | Ret v w1, Ret v' w1' => v = v' /\ w1 = w1'
            | Thr e w1, Thr e' w1' =>
                w1 = w1' /\
                (e = e' \/ (e = noProviderError this k /\ e' = noProviderError this' k))
            | Diverge, Diverge => True
            | _, _ => False
            end).
  { intros w. unfold throwOrNull. destruct (negb _); simpl; auto. }
  induction n as [|n IH]; intros inj w.
  - destruct inj as [j|]; simpl; [|apply Hton].
    destruct (injectors w !! j) as [[r|]|]; simpl; auto.
    destruct (NullInjector_get (token k) (Some nf) w); auto.
  - destruct inj as [j|]; simpl; [|apply Hton].
    destruct (injectors w !! j) as [[r|]|]; simpl; auto;
      [|destruct (NullInjector_get (token k) (Some nf) w); auto].
    destruct (getObjByKeyId rec j (id k) w) as [v w1|e w1|]; auto.
    destruct (negb _); auto.
    destruct (injectors w1 !! j) as [[r1|]|]; auto.
    exact (IH (parent r1) w1).
Qed.

(** C5. In a container with a parent, a dependency marked [Self] is looked
    up in the container's own slots and nowhere else: when no own slot
    binds the key the lookup ends with the not-found policy, whatever the
    parent binds; when an own slot binds it, the lookup returns the
    instance cached in that slot, or constructs the provider of that slot
    and caches the instance there.  A dependency marked [SkipSelf] is
    looked up from the parent on: the lookup gives what the lookup of the
    key in the parent gives (a NoProviderError names the container, not
    the parent), without a parent it ends with the not-found policy, and
    a value cached in the parent is returned; when no factory calls back
    into an injector, the container's own slots and counter are not
    touched, even when the key is bound locally. *)
Theorem C5_visibility (fuel : nat) (w : World) (this : nat)
    (r : ReflectiveInjector_) (dep : ReflectiveDependency) :
  wf_world w ->
  injectors w !! this = Some (Reflective r) ->
  key_eqb (dep_key dep) INJECTOR_KEY = false ->
  let k := dep_key dep in
  let nf := if optional dep then VNull else THROW_IF_NOT_FOUND in
  let run := getByReflectiveDependency (getByKey (S (S fuel))) this dep w in
  (visibility dep = Some Self ->
     (find_keyId (keyIds r) (id k) 0 = None -> run = throwOrNull this k nf w) /\
     (forall i, find_keyId (keyIds r) (id k) 0 = Some i ->
        read_slot (objs r) i <> UNDEFINED -> run = Ret (read_slot (objs r) i) w) /\
     (forall i, find_keyId (keyIds r) (id k) 0 = Some i ->
        read_slot (objs r) i = UNDEFINED ->
        run = match new_ (getByKey (S fuel)) this (providers r !! i) w with
              | Ret v w1 =>
                  match write_slot w1 this i v with
                  | Ret obj w2 =>
                      if negb (strict_eq obj UNDEFINED) then Ret obj w2
                      else throwOrNull this k nf w2
                  | Thr e w2 => Thr e w2
                  | Diverge => Diverge
                  end
              | Thr e w1 => Thr e w1
              | Diverge => Diverge
              end) /\
     (forall i v w1, find_keyId (keyIds r) (id k) 0 = Some i -> run = Ret v w1 ->
        (exists r1, injectors w1 !! this = Some (Reflective r1) /\
                    read_slot (objs r1) i = v) \/ v = nf)) /\
  (visibility dep = Some SkipSelf ->
     (parent r = None -> run = throwOrNull this k nf w) /\
     (forall p, parent r = Some p ->
        (forall v w1, getByKey (S (S fuel)) p k None nf w = Ret v w1 ->
           run = Ret v w1) /\
        (forall e w1, getByKey (S (S fuel)) p k None nf w = Thr e w1 ->
           run = Thr e w1 \/
           (e = noProviderError p k /\ run = Thr (noProviderError this k) w1))) /\
     (forall p rp i, parent r = Some p ->
        injectors w !! p = Some (Reflective rp) ->
        find_keyId (keyIds rp) (id k) 0 = Some i ->
        strict_eq (read_slot (objs rp) i) UNDEFINED = false ->
        run = Ret (read_slot (objs rp) i) w) /\
     (call_free w ->
        (forall v w1, run = Ret v w1 -> injectors w1 !! this = Some (Reflective r)) /\
        (forall e w1, run = Thr e w1 -> injectors w1 !! this = Some (Reflective r)))).
Proof.
  intros Hw Hr Hk k nf run. subst run. unfold getByReflectiveDependency.
  fold k. fold nf. split; intros Hv; rewrite Hv.
  - rewrite getByKey_Self_unfold by auto. unfold getByKeySelf, bind.
    split; [|split; [|split]].
    + intros Hf. rewrite (getObjByKeyId_unbound _ _ _ _ _ Hr Hf). reflexivity.
    + intros i Hf Hs. apply strict_eq_sentinel_ne in Hs.
      rewrite (getObjByKeyId_cached _ _ _ _ _ _ Hr Hf Hs), Hs. reflexivity.
    + intros i Hf Hs.
      rewrite (getObjByKeyId_construct _ _ _ _ _ _ Hr Hf) by (rewrite Hs; reflexivity).
      destruct (new_ (getByKey (S fuel)) this (providers r !! i) w) as [v w1|e w1|];
        try reflexivity.
      destruct (write_slot w1 this i v) as [a w0|e w0|]; try reflexivity.
      destruct (negb (strict_eq a UNDEFINED)); reflexivity.
    + intros i v w1 Hf H.
      destruct (getObjByKeyId (getByKey (S fuel)) this (id k) w) as [v' w'|e w'|] eqn:E;
        try discriminate.
      destruct (negb (strict_eq v' UNDEFINED)).
      * injection H as <- <-. left. eapply getObjByKeyId_readback; eauto.
      * right. unfold throwOrNull in H.
        destruct (negb (strict_eq nf THROW_IF_NOT_FOUND)); [|discriminate].
        injection H as <- _. reflexivity.
  - rewrite (getByKey_SkipSelf_unfold _ _ _ _ _ _ Hk Hr).
    split; [|split; [|split]].
    + intros ->. reflexivity.
    + intros p Hp. rewrite Hp. rewrite getByKey_default_unfold by exact Hk.
      pose proof (walk_this (getByKey (S fuel)) (S fuel) p this k nf (Some p) w) as Hwalk.
      change (dep_key dep) with k.
      split.
      * intros v w1 H. rewrite H in Hwalk.
        destruct (walk (getByKey (S fuel)) (S fuel) this k nf (Some p) w);
          try contradiction.
        destruct Hwalk as [<- <-]. reflexivity.
      * intros e w1 H. rewrite H in Hwalk.
        destruct (walk (getByKey (S fuel)) (S fuel) this k nf (Some p) w);
          try contradiction.
        destruct Hwalk as [<- [<-|[-> ->]]]; auto.
    + intros p rp i Hp Hrp Hf Hs. rewrite Hp.
      rewrite (walk_first _ _ _ _ _ _ _ _ Hrp).
      rewrite (getObjByKeyId_cached _ _ _ _ _ _ Hrp Hf Hs). rewrite Hs. reflexivity.
    + intros Hcf.
      assert (Hq : quiet w) by (split; assumption).
      assert (Hkeep : forall o w1,
                walk (getByKey (S fuel)) (S fuel) this k nf (parent r) w = o ->
                (exists v, o = Ret v w1) \/ (exists e, o = Thr e w1) ->
                injectors w1 !! this = Some (Reflective r)).
      { intros o w1 Ho Hcase. destruct (parent r) as [p|] eqn:Hp.
        - pose proof (Hw this r p Hr Hp) as Hlt.
          assert (Hpost : post p w o).
          { rewrite <- Ho. apply walk_post; auto.
            - intros; apply getByKey_post; auto.
            - intros p' [= <-]. lia. }
          assert (Hev : evolves p w w1)
            by (destruct Hcase as [(v & ->)|(e & ->)]; exact Hpost).
          destruct (world_rel_lookup _ _ _ _ _ (evolves_world_rel _ _ _ Hev) Hr)
            as (r1 & E1 & _ & Hsame).
          rewrite E1, Hsame; auto.
        - simpl in Ho. unfold throwOrNull in Ho.
          destruct (negb _); subst o;
            destruct Hcase as [(v & Hc)|(e & Hc)]; try discriminate;
            injection Hc as _ <-; exact Hr. }
      split.
      * intros v w1 H. eapply Hkeep; eauto.
      * intros e w1 H. eapply Hkeep; eauto.
Qed.

(** A parent binding A (already constructed) and B, and a child binding A. *)
Definition sample_parent : ReflectiveInjector_ :=
  mkInjector 1 [provA; provB] None [1; 2] [VObj 10; UNDEFINED].
Definition sample_child : ReflectiveInjector_ :=
  mkInjector 0 [provA] (Some 0) [1] [UNDEFINED].
Definition sample_family : World :=
  mkWorld [Reflective sample_parent; Reflective sample_child] registry0 11.

Lemma sample_family_wf : wf_world sample_family.
Proof.
  intros i r p Hi Hp. destruct i as [|[|i]]; simpl in Hi; try discriminate;
    injection Hi as <-; simpl in Hp; try discriminate.
  injection Hp as <-. lia.
Qed.

Lemma C5_witness :
  getByReflectiveDependency (getByKey 2) 1 (mkDep keyB false (Some Self)) sample_family
    = Thr (noProviderError 1 keyB) sample_family /\
  getByReflectiveDependency (getByKey 2) 1 (mkDep keyA false (Some Self)) sample_family
    = Ret (VObj 11)
        (mkWorld [Reflective sample_parent;
                  Reflective (mkInjector 1 [provA] (Some 0) [1] [VObj 11])]
           registry0 12) /\
  getByReflectiveDependency (getByKey 2) 1 (mkDep keyA false (Some SkipSelf)) sample_family
    = Ret (VObj 10) sample_family.
Proof.
  split; [|split].
  - destruct (C5_visibility 0 sample_family 1 sample_child
                (mkDep keyB false (Some Self)) sample_family_wf eq_refl eq_refl)
      as (H & _).
    destruct (H eq_refl) as (H1 & _). exact (H1 eq_refl).
  - destruct (C5_visibility 0 sample_family 1 sample_child
                (mkDep keyA false (Some Self)) sample_family_wf eq_refl eq_refl)
      as (H & _).
    destruct (H eq_refl) as (_ & _ & H3 & _).
    exact (H3 0 eq_refl eq_refl).
  - destruct (C5_visibility 0 sample_family 1 sample_child
                (mkDep keyA false (Some SkipSelf)) sample_family_wf eq_refl eq_refl)
      as (_ & H).
    destruct (H eq_refl) as (_ & H2 & _).
    exact (proj1 (H2 0 eq_refl) (VObj 10) sample_family eq_refl).
Defined.

(** ** Cached instances *)

(** The [UNDEFINED] object is private to reflective_injector.ts: no factory
    can return it, whatever its calls into the injectors return. *)
Fixpoint no_sentinel_result (fr : factory_result) : Prop :=
  match fr with
  | FReturn v _ => v <> UNDEFINED
  | FGet _ _ _ _ k => forall r n, no_sentinel_result (k r n)
  | _ => True
  end.

Definition no_sentinel (p : ResolvedReflectiveProvider) : Prop :=
  forall rf args n, rf ∈ resolvedFactories p ->
    no_sentinel_result (factory rf args n).

Lemma run_factory_no_sentinel rec this p fr :
  no_sentinel_result fr ->
  forall w v w1, run_factory rec this p fr w = Ret v w1 -> v <> UNDEFINED.
Proof.
  induction fr as [v0 n|e|v0|n inj t nf k IH]; simpl; intros Hfr w v w1 H.
  - injection H as <- _. exact Hfr.
  - discriminate.
  - destruct (nullish v0); discriminate.
  - destruct (injector_get rec inj t nf (set_heap_next w n)) as [u w'|e w'|];
      try discriminate; eapply IH; eauto.
Qed.

Lemma instantiate_no_sentinel rec this p rf w v w1 :
  no_sentinel p -> rf ∈ resolvedFactories p ->
  instantiate rec this p rf w = Ret v w1 -> v <> UNDEFINED.
Proof.
  intros Hp Hin H. unfold instantiate in H.
  destruct (mapM _ _ w) as [deps w'|e w'|]; try discriminate.
  eapply run_factory_no_sentinel; [|exact H]. apply Hp. exact Hin.
Qed.

Lemma instantiateProvider_no_sentinel rec this p w v w1 :
  no_sentinel p ->
  instantiateProvider rec this p w = Ret v w1 -> v <> UNDEFINED.
Proof.
  intros Hp H. unfold instantiateProvider in H.
  destruct (multiProvider p).
  - destruct (mapM _ _ _) as [res w'|e w'|]; try discriminate.
    injection H as <- _. discriminate.
  - destruct (resolvedFactories p) as [|rf rest] eqn:Hrf; simpl in H; try discriminate.
    eapply instantiate_no_sentinel; eauto. rewrite Hrf. left.
Qed.

Lemma new_no_sentinel rec this p w v w1 :
  (forall p', p = Some p' -> no_sentinel p') ->
  new_ rec this p w = Ret v w1 -> v <> UNDEFINED.
Proof.
  intros Hp H. unfold new_ in H.
  destruct (injectors w !! this) as [[r|]|]; try discriminate.
  destruct p as [p|]; try discriminate.
  destruct (_ <? _)%nat; try discriminate.
  eapply instantiateProvider_no_sentinel; eauto.
Qed.

Lemma strict_eq_UNDEFINED v : strict_eq v UNDEFINED = false <-> v <> UNDEFINED.
Proof.
  split.
  - intros H ->. discriminate.
  - apply strict_eq_sentinel_ne.
Qed.

Lemma strict_eq_UNDEFINED_true v : strict_eq v UNDEFINED = true -> v = UNDEFINED.
Proof.
  destruct v as [| | | | | | | | | |s]; try discriminate.
  destruct s; try discriminate. reflexivity.
Qed.

Lemma read_insert_no_sentinel (o : list value) i v :
  v <> UNDEFINED -> read_slot (<[i := v]> o) i <> UNDEFINED.
Proof.
  intros Hv. unfold read_slot.
  destruct (decide (i < length o)) as [Hlt|Hge].
  - rewrite list_lookup_insert_eq by auto. exact Hv.
  - rewrite list_insert_ge by lia. rewrite lookup_ge_None_2 by lia. discriminate.
Qed.

(** A lookup that finds a binding returns what the slot holds afterwards,
    and never the [UNDEFINED] object. *)
Lemma getObjByKeyId_bound rec this kid r i w v w1 :
  injectors w !! this = Some (Reflective r) ->
  find_keyId (keyIds r) kid 0 = Some i ->
  (forall p, providers r !! i = Some p -> no_sentinel p) ->
  getObjByKeyId rec this kid w = Ret v w1 ->
  v <> UNDEFINED /\
  exists r1, injectors w1 !! this = Some (Reflective r1) /\
             read_slot (objs r1) i = v.
Proof.
  intros E F Hp H. split; [|eapply getObjByKeyId_readback; eauto].
  unfold getObjByKeyId in H. rewrite E, F in H.
  destruct (strict_eq (read_slot (objs r) i) UNDEFINED) eqn:Hs.
  - destruct (new_ rec this (providers r !! i) w) as [v' w'|e w'|] eqn:Hn;
      try discriminate.
    destruct (injectors w' !! this) as [[r'|]|]; try discriminate.
    injection H as <- _. simpl. apply read_insert_no_sentinel.
    eapply new_no_sentinel; eauto.
  - injection H as <- _. apply strict_eq_UNDEFINED. exact Hs.
Qed.

Lemma ReflectiveKey_get_idem g t k g' :
  ReflectiveKey_get g t = (Ok k, g') -> ReflectiveKey_get g' t = (Ok k, g').
Proof.
  intros H.
  destruct (ReflectiveKey_get_cases g t)
    as [(tok & i & dn & -> & E)|[(Hk & k0 & Hg & E)|[(Hk & Hg & Hf & E)|(Hk & Hg & Hf & E)]]];
    rewrite E in H; try discriminate; injection H as <- <-.
  - reflexivity.
  - apply ReflectiveKey_get_found; auto.
  - apply ReflectiveKey_get_found; auto.
    rewrite allKeys_get_app, Hg. simpl. rewrite strict_eq_refl. reflexivity.
Qed.

Lemma set_registry_same w : set_registry w (globalKeyRegistry w) = w.
Proof. destruct w; reflexivity. Qed.

Lemma set_registry_wf w g : wf_world w -> wf_world (set_registry w g).
Proof. intros H. exact H. Qed.

Lemma walk_zero_reflective rec this k nf j r w :
  injectors w !! j = Some (Reflective r) ->
  walk rec 0 this k nf (Some j) w = Diverge.
Proof. intros E. simpl. rewrite E. reflexivity. Qed.

(** After a successful [get] of a token bound in the container itself, the
    instance sits in the first slot of its key, and a second lookup reads
    it from there. *)
Lemma getByKey_bound_cached fuel this k nf r i w v w1 :
  key_eqb k INJECTOR_KEY = false ->
  injectors w !! this = Some (Reflective r) ->
  find_keyId (keyIds r) (id k) 0 = Some i ->
  (forall p, providers r !! i = Some p -> no_sentinel p) ->
  getByKey fuel this k None nf w = Ret v w1 ->
  v <> UNDEFINED /\
  frames w w1 /\
  exists r1, injectors w1 !! this = Some (Reflective r1) /\
             keyIds r1 = keyIds r /\ read_slot (objs r1) i = v.
Proof.
  intros Hk Hr Hf Hp H.
  destruct fuel as [|fuel]; [discriminate|].
  rewrite getByKey_default_unfold in H by auto.
  destruct fuel as [|fuel]; [rewrite (walk_zero_reflective _ _ _ _ _ _ _ Hr) in H; discriminate|].
  rewrite (walk_first _ _ _ _ _ _ _ _ Hr) in H.
  pose proof (getObjByKeyId_framed (getByKey (S fuel)) (getByKey_framed (S fuel))
                this (id k) w) as Hpost.
  destruct (getObjByKeyId (getByKey (S fuel)) this (id k) w) as [v' w'|e w'|] eqn:Hg;
    try discriminate.
  destruct (getObjByKeyId_bound _ _ _ _ _ _ _ _ Hr Hf Hp Hg) as (Hv & r1 & E1 & Hread).
  rewrite (proj2 (strict_eq_UNDEFINED v') Hv) in H. simpl in H.
  injection H as <- <-. simpl in Hpost.
  split; [auto|split; [auto|]].
  exists r1. repeat split; auto.
  destruct (frames_lookup _ _ _ _ Hpost Hr) as (r1' & E1' & Fr).
  rewrite E1 in E1'. injection E1' as <-. destruct Fr. auto.
Qed.

Lemma getByKey_read_cached fuel this k nf r i w :
  key_eqb k INJECTOR_KEY = false ->
  injectors w !! this = Some (Reflective r) ->
  find_keyId (keyIds r) (id k) 0 = Some i ->
  read_slot (objs r) i <> UNDEFINED ->
  getByKey (S (S fuel)) this k None nf w = Ret (read_slot (objs r) i) w.
Proof.
  intros Hk Hr Hf Hv.
  rewrite getByKey_default_unfold by auto.
  rewrite (walk_first _ _ _ _ _ _ _ _ Hr).
  apply strict_eq_UNDEFINED in Hv.
  rewrite (getObjByKeyId_cached _ _ _ _ _ _ Hr Hf Hv), Hv. reflexivity.
Qed.

(** ** Providers with the same key *)

Lemma find_keyId_Some l k : forall s i,
  find_keyId l k s = Some i ->
  s <= i /\ l !! (i - s) = Some k /\ forall m, m < i - s -> l !! m <> Some k.
Proof.
  induction l as [|x l IH]; intros s i H; simpl in H; [discriminate|].
  destruct (Nat.eqb_spec x k) as [->|Hne].
  - injection H as <-. rewrite Nat.sub_diag. repeat split; auto. lia.
  - destruct (IH _ _ H) as (Hle & Hl & Hm).
    replace (i - s) with (S (i - S s)) by lia.
    repeat split; [lia|exact Hl|].
    intros [|m] Hlt; simpl; [congruence|]. apply Hm. lia.
Qed.


Lemma fromResolvedProviders_lookup ps parent w0 :
  injectors (snd (fromResolvedProviders ps parent w0))
    !! fst (fromResolvedProviders ps parent w0)
  = Some (Reflective (ReflectiveInjector__new ps parent)).
Proof. simpl. rewrite lookup_app_r, Nat.sub_diag by lia. reflexivity. Qed.

Lemma wf_world_snoc w r :
  wf_world w ->
  (forall p, parent r = Some p -> p < length (injectors w)) ->
  wf_world (mkWorld (injectors w ++ [Reflective r]) (globalKeyRegistry w) (heap_next w)).
Proof.
  intros Hw Hp i r' p Hi Hpar. simpl in Hi.
  destruct (decide (i < length (injectors w))) as [Hlt|Hge].
  - rewrite lookup_app_l in Hi by auto. eauto.
  - rewrite lookup_app_r in Hi by lia.
    destruct (i - length (injectors w)) as [|n] eqn:E; simpl in Hi;
      [|destruct n; discriminate].
    injection Hi as <-. specialize (Hp p Hpar). lia.
Qed.


Lemma createChildFromResolved_wf this ps w0 :
  wf_world w0 -> this < length (injectors w0) ->
  wf_world (snd (createChildFromResolved this ps w0)).
Proof.
  intros Hw Hp. apply wf_world_snoc; auto. simpl. intros p [= <-]. exact Hp.
Qed.

(** The stores reachable from [w] through the public methods. *)
Inductive reachable (w : World) : World -> Prop :=
  | reach_here : reachable w w
  | reach_get w1 fuel this t arg v w2 :
      reachable w w1 -> get fuel this t arg w1 = Ret v w2 -> reachable w w2
  | reach_get_throws w1 fuel this t arg e w2 :
      reachable w w1 -> get fuel this t arg w1 = Thr e w2 -> reachable w w2
  | reach_instantiate w1 fuel this p v w2 :
      reachable w w1 -> instantiateResolved fuel this p w1 = Ret v w2 ->
      reachable w w2
  | reach_instantiate_throws w1 fuel this p e w2 :
      reachable w w1 -> instantiateResolved fuel this p w1 = Thr e w2 ->
      reachable w w2
  | reach_create w1 ps parent :
      reachable w w1 ->
      (forall p, parent = Some p -> p < length (injectors w1)) ->
      reachable w (snd (fromResolvedProviders ps parent w1))
  | reach_child w1 this ps :
      reachable w w1 -> this < length (injectors w1) ->
      reachable w (snd (createChildFromResolved this ps w1)).

(** What every reachable store keeps of an injector: its key ids and the
    slots that are not the first of their key. *)
Definition keeps (w w1 : World) : Prop :=
  wf_world w1 /\
  forall x r, injectors w !! x = Some (Reflective r) ->
    exists r1, injectors w1 !! x = Some (Reflective r1) /\
      keyIds r1 = keyIds r /\
      forall j, (forall k, find_keyId (keyIds r) k 0 <> Some j) ->
        objs r1 !! j = objs r !! j.

Lemma keeps_frames w w1 w2 :
  keeps w w1 -> frames w1 w2 -> keeps w w2.
Proof.
  intros (Hw & Hk) Hrel. split; [eauto using frames_wf|].
  intros x r Hx. destruct (Hk x r Hx) as (r1 & E1 & K1 & S1).
  destruct (frames_lookup _ _ _ _ Hrel E1) as (r2 & E2 & []).
  exists r2. repeat split; [auto|congruence|].
  intros j Hj. rewrite frame_shadowed0 by (rewrite K1; auto). auto.
Qed.

Lemma keeps_snoc w w1 r :
  keeps w w1 -> (forall p, parent r = Some p -> p < length (injectors w1)) ->
  keeps w (mkWorld (injectors w1 ++ [Reflective r]) (globalKeyRegistry w1) (heap_next w1)).
Proof.
  intros (Hw & Hk) Hp. split; [apply wf_world_snoc; auto|].
  intros x r0 Hx. destruct (Hk x r0 Hx) as (r1 & E1 & K1 & S1).
  exists r1. split; [|auto]. simpl. rewrite lookup_app_l; auto.
  eapply lookup_lt_Some; eauto.
Qed.

Lemma reachable_keeps w w1 : wf_world w -> reachable w w1 -> keeps w w1.
Proof.
  intros Hw. induction 1 as [|w1 fuel this t arg v w2 _ IH H
                             |w1 fuel this t arg e w2 _ IH H
                             |w1 fuel this p v w2 _ IH H
                             |w1 fuel this p e w2 _ IH H
                             |w1 ps parent _ IH Hp
                             |w1 this ps _ IH Hp].
  - split; [auto|]. intros x r Hx. exists r. auto.
  - pose proof (get_framed fuel this t arg w1) as Hf. rewrite H in Hf.
    eapply keeps_frames; eauto.
  - pose proof (get_framed fuel this t arg w1) as Hf. rewrite H in Hf.
    eapply keeps_frames; eauto.
  - pose proof (instantiateResolved_framed fuel this p w1) as Hf. rewrite H in Hf.
    eapply keeps_frames; eauto.
  - pose proof (instantiateResolved_framed fuel this p w1) as Hf. rewrite H in Hf.
    eapply keeps_frames; eauto.
  - apply keeps_snoc; auto.
  - apply keeps_snoc; auto. simpl. intros p [= <-]. exact Hp.
Qed.





(** A token that is registered stays registered, with its key, when the
    registry grows. *)
Lemma ReflectiveKey_get_stable g t k h :
  ReflectiveKey_get g t = (Ok k, g) ->
  ReflectiveKey_get (g ++ h) t = (Ok k, g ++ h).
Proof.
  intros H.
  destruct (ReflectiveKey_get_cases g t)
    as [(tok & i & dn & -> & E)|[(Hk & k0 & Hg & E)|[(Hk & Hg & Hf & E)|(Hk & Hg & Hf & E)]]];
    rewrite E in H; try discriminate.
  - injection H as <-. reflexivity.
  - injection H as <-. apply ReflectiveKey_get_found; auto.
    rewrite allKeys_get_app, Hg. reflexivity.
  - injection H as _ H. exfalso.
    apply (f_equal length) in H. rewrite length_app in H. simpl in H. lia.
Qed.

Lemma frames_registered w w1 t k :
  frames w w1 ->
  ReflectiveKey_get (globalKeyRegistry w) t = (Ok k, globalKeyRegistry w) ->
  ReflectiveKey_get (globalKeyRegistry w1) t = (Ok k, globalKeyRegistry w1).
Proof.
  intros (_ & (h & ->) & _) H. apply ReflectiveKey_get_stable. exact H.
Qed.

Lemma get_registered fuel this t k arg w' :
  ReflectiveKey_get (globalKeyRegistry w') t = (Ok k, globalKeyRegistry w') ->
  get fuel this t arg w' =
  getByKey fuel this k None (default_param arg THROW_IF_NOT_FOUND) w'.
Proof.
  intros H. rewrite (get_unfold _ _ _ _ _ _ _ H), set_registry_same. reflexivity.
Qed.

(** ** A constructed slot keeps its instance *)

(** Every slot of [w] that holds something other than the [UNDEFINED]
    object holds it in [w1] too, and no cache has changed its length. *)
Definition settled (w w1 : World) : Prop :=
  forall x rx, injectors w !! x = Some (Reflective rx) ->
    exists r1, injectors w1 !! x = Some (Reflective r1) /\
      length (objs r1) = length (objs rx) /\
      forall j, read_slot (objs rx) j <> UNDEFINED -> objs r1 !! j = objs rx !! j.

Definition settled_post {A} (w : World) (o : outcome A) : Prop :=
  match o with
  | Ret _ w1 | Thr _ w1 => settled w w1
  | Diverge => True
  end.

Lemma settled_refl w : settled w w.
Proof. intros x rx Hx. eauto. Qed.

Lemma settled_trans w w1 w2 : settled w w1 -> settled w1 w2 -> settled w w2.
Proof.
  intros H1 H2 x rx Hx.
  destruct (H1 x rx Hx) as (r1 & E1 & L1 & K1).
  destruct (H2 x r1 E1) as (r2 & E2 & L2 & K2).
  exists r2. split; [exact E2|]. split; [congruence|].
  intros j Hj. rewrite K2, K1; auto.
  unfold read_slot in *. rewrite K1; auto.
Qed.

Lemma settled_post_trans {A} w w1 (o : outcome A) :
  settled w w1 -> settled_post w1 o -> settled_post w o.
Proof. destruct o; simpl; eauto using settled_trans. Qed.

Lemma settled_set_injector w x rx rx' :
  injectors w !! x = Some (Reflective rx) ->
  length (objs rx') = length (objs rx) ->
  (forall j, read_slot (objs rx) j <> UNDEFINED -> objs rx' !! j = objs rx !! j) ->
  settled w (set_injector w x rx').
Proof.
  intros Hx Hlen Hkeep y ry Hy. simpl.
  destruct (decide (x = y)) as [->|Hne].
  - rewrite Hx in Hy. injection Hy as <-.
    exists rx'. split; [|auto].
    apply list_lookup_insert_eq. eapply lookup_lt_Some; eauto.
  - exists ry. rewrite list_lookup_insert_ne by auto. auto.
Qed.

Lemma settled_heap w n : settled w (set_heap_next w n).
Proof. intros x rx Hx. eauto. Qed.

Lemma settled_registry w g : settled w (set_registry w g).
Proof. intros x rx Hx. eauto. Qed.

Lemma mapM_settled {A B} (f : A -> M B) :
  (forall x w, settled_post w (f x w)) ->
  forall l w, settled_post w (mapM f l w).
Proof.
  intros Hf. induction l as [|x l IH]; intros w; simpl.
  - apply settled_refl.
  - unfold bind. specialize (Hf x w).
    destruct (f x w) as [y w1|e w1|]; simpl in *; auto.
    specialize (IH w1).
    destruct (mapM f l w1); simpl in *; eauto using settled_trans.
Qed.

Section MethodsSettled.

Variable rec : nat -> ReflectiveKey -> option Visibility -> value -> M value.
Hypothesis rec_settled : forall this key vis nf w,
  settled_post w (rec this key vis nf w).

Lemma injector_get_settled inj t nf w :
  settled_post w (injector_get rec inj t nf w).
Proof.
  unfold injector_get.
  destruct (injectors w !! inj) as [[r|]|]; simpl; try apply settled_refl.
  - destruct (ReflectiveKey_get _ _) as [[k|e] g]; [|apply settled_registry].
    eapply settled_post_trans; [apply (settled_registry w g)|apply rec_settled].
  - unfold NullInjector_get. destruct (strict_eq _ _); apply settled_refl.
Qed.

Lemma run_factory_settled this p fr : forall w,
  settled_post w (run_factory rec this p fr w).
Proof.
  induction fr as [v n|e|v|n inj t nf k IH]; intros w; simpl.
  - apply settled_heap.
  - apply settled_refl.
  - destruct (nullish v); apply settled_refl.
  - pose proof (injector_get_settled inj t nf (set_heap_next w n)) as H.
    destruct (injector_get rec inj t nf (set_heap_next w n)) as [v w1|e w1|];
      simpl in *; auto;
      (eapply settled_post_trans; [|apply IH]);
      (eapply settled_trans; [apply settled_heap|exact H]).
Qed.

Lemma instantiate_settled this p rf w :
  settled_post w (instantiate rec this p rf w).
Proof.
  unfold instantiate.
  pose proof (mapM_settled (getByReflectiveDependency rec this)
                (fun d w' => rec_settled _ _ _ _ w') (dependencies rf) w) as H.
  destruct (mapM _ _ w) as [deps w1|e w1|]; simpl in *; auto.
  eapply settled_post_trans; [exact H|apply run_factory_settled].
Qed.

Lemma instantiateProvider_settled this p w :
  settled_post w (instantiateProvider rec this p w).
Proof.
  unfold instantiateProvider. destruct (multiProvider p).
  - pose proof (mapM_settled (instantiate rec this p) (instantiate_settled this p)
                  (resolvedFactories p) (set_heap_next w (S (heap_next w)))) as H.
    destruct (mapM _ _ _); simpl in *; auto;
      (eapply settled_trans; [apply settled_heap|exact H]).
  - destruct (resolvedFactories p !! 0%nat); [apply instantiate_settled|].
    apply settled_refl.
Qed.

Lemma new_settled this p w : settled_post w (new_ rec this p w).
Proof.
  unfold new_.
  destruct (injectors w !! this) as [[r|]|] eqn:E; try apply settled_refl.
  fold (incr_counter w this r).
  assert (Hs : settled w (incr_counter w this r))
    by (apply (settled_set_injector w this r); auto).
  destruct p as [p|]; [|exact Hs].
  destruct (_ <? _)%nat; [exact Hs|].
  eapply settled_post_trans; [exact Hs|].
  apply instantiateProvider_settled.
Qed.

(** The slot that [getObjByKeyId] writes held no instance when the call
    began; whatever was written to it during the construction, no
    instance that was cached at the start is lost. *)
Lemma getObjByKeyId_settled this kid w :
  settled_post w (getObjByKeyId rec this kid w).
Proof.
  unfold getObjByKeyId.
  destruct (injectors w !! this) as [[r|]|] eqn:E; try apply settled_refl.
  destruct (find_keyId (keyIds r) kid 0) as [i|]; [|apply settled_refl].
  destruct (strict_eq (read_slot (objs r) i) UNDEFINED) eqn:Hs; [|apply settled_refl].
  apply strict_eq_UNDEFINED_true in Hs.
  pose proof (new_settled this (providers r !! i) w) as H.
  destruct (new_ rec this (providers r !! i) w) as [v w1|e w1|] eqn:Hn; simpl in *; auto.
  destruct (injectors w1 !! this) as [[r1|]|] eqn:E1; simpl; auto.
  intros x rx Hx.
  destruct (H x rx Hx) as (rx1 & Ex1 & Hl1 & Hj1). simpl.
  destruct (decide (this = x)) as [<-|Hne].
  - rewrite E in Hx. injection Hx as <-. rewrite E1 in Ex1. injection Ex1 as <-.
    exists (set_objs r1 (<[i := v]> (objs r1))). split.
    + apply list_lookup_insert_eq. eapply lookup_lt_Some; eauto.
    + simpl. rewrite length_insert. split; [exact Hl1|].
      intros j Hj. rewrite list_lookup_insert_ne; auto.
      intros ->. contradiction.
  - exists rx1. rewrite list_lookup_insert_ne by auto. auto.
Qed.

Lemma walk_settled n this key nf : forall inj w,
  settled_post w (walk rec n this key nf inj w).
Proof.
  assert (Hton : forall w', settled_post w' (throwOrNull this key nf w'))
    by (intros w'; unfold throwOrNull; destruct (negb _); apply settled_refl).
  assert (Hnull : forall w', settled_post w'
                    (NullInjector_get (token key) (Some nf) w'))
    by (intros w'; unfold NullInjector_get; destruct (strict_eq _ _);
        apply settled_refl).
  induction n as [|n IH]; intros inj w.
  - destruct inj as [j|]; simpl; auto.
    destruct (injectors w !! j) as [[r|]|]; simpl; auto. apply settled_refl.
  - destruct inj as [j|]; simpl; auto.
    destruct (injectors w !! j) as [[r|]|] eqn:E; simpl; auto;
      [|apply settled_refl].
    pose proof (getObjByKeyId_settled j (id key) w) as H.
    destruct (getObjByKeyId rec j (id key) w) as [v w1|e w1|]; simpl in *; auto.
    destruct (negb _); simpl; auto.
    destruct (injectors w1 !! j) as [[r1|]|]; simpl; auto.
    eapply settled_post_trans; [exact H|]. apply IH.
Qed.

Lemma getByKey_body_settled n this key vis nf w :
  settled_post w (getByKey_body rec n this key vis nf w).
Proof.
  unfold getByKey_body.
  destruct (key_eqb key INJECTOR_KEY); [apply settled_refl|].
  destruct vis as [[|]|]; unfold getByKeyDefault.
  - unfold getByKeySelf, bind.
    pose proof (getObjByKeyId_settled this (id key) w) as H.
    destruct (getObjByKeyId rec this (id key) w) as [v w1|e w1|]; simpl in *; auto.
    destruct (negb _); simpl; auto.
    unfold throwOrNull. destruct (negb _); simpl; auto.
  - destruct (injectors w !! this) as [[r|]|]; try apply settled_refl.
    apply walk_settled.
  - apply walk_settled.
Qed.

End MethodsSettled.

Lemma getByKey_settled fuel : forall this key vis nf w,
  settled_post w (getByKey fuel this key vis nf w).
Proof.
  induction fuel as [|fuel IH]; intros; simpl; [exact I|].
  apply getByKey_body_settled; auto.
Qed.

Lemma get_settled fuel this t arg w : settled_post w (get fuel this t arg w).
Proof.
  unfold get. destruct (ReflectiveKey_get _ _) as [[k|e] g].
  - eapply settled_post_trans; [apply (settled_registry w g)|apply getByKey_settled].
  - apply settled_registry.
Qed.

Lemma instantiateResolved_settled fuel this p w :
  settled_post w (instantiateResolved fuel this p w).
Proof. apply instantiateProvider_settled, getByKey_settled. Qed.

(** Between calls of the public methods an instance stays in its slot. *)
Lemma reachable_settled w w1 : reachable w w1 -> settled w w1.
Proof.
  intros Hreach.
  induction Hreach as [|w1 fuel this t arg v w2 Hr IH H
                       |w1 fuel this t arg e w2 Hr IH H
                       |w1 fuel this p v w2 Hr IH H
                       |w1 fuel this p e w2 Hr IH H
                       |w1 ps parent Hr IH Hp
                       |w1 this ps Hr IH Hp].
  - apply settled_refl.
  - pose proof (get_settled fuel this t arg w1) as Hs. rewrite H in Hs.
    eapply settled_trans; [exact IH|exact Hs].
  - pose proof (get_settled fuel this t arg w1) as Hs. rewrite H in Hs.
    eapply settled_trans; [exact IH|exact Hs].
  - pose proof (instantiateResolved_settled fuel this p w1) as Hs. rewrite H in Hs.
    eapply settled_trans; [exact IH|exact Hs].
  - pose proof (instantiateResolved_settled fuel this p w1) as Hs. rewrite H in Hs.
    eapply settled_trans; [exact IH|exact Hs].
  - intros x rx Hx. destruct (IH x rx Hx) as (r1 & E1 & Hj1).
    exists r1. split; [|auto]. simpl. rewrite lookup_app_l; auto.
    eapply lookup_lt_Some; eauto.
  - intros x rx Hx. destruct (IH x rx Hx) as (r1 & E1 & Hj1).
    exists r1. split; [|auto]. simpl. rewrite lookup_app_l; auto.
    eapply lookup_lt_Some; eauto.
Qed.

(** ** Addresses are handed out upwards *)

(** A factory that allocates upwards: the next free address it reports,
    and the one it passes to the injector when it calls back, is not below
    the one it was given. *)
Fixpoint forward_result (n : nat) (fr : factory_result) : Prop :=
  match fr with
  | FReturn _ n' => n <= n'
  | FGet n' _ _ _ k => n <= n' /\ forall r m, n' <= m -> forward_result m (k r m)
  | _ => True
  end.

Definition forward_factory (f : Factory) : Prop :=
  forall args n, forward_result n (f args n).

Definition forward_provider (p : ResolvedReflectiveProvider) : Prop :=
  forall rf, rf ∈ resolvedFactories p -> forward_factory (factory rf).

Definition forward (w : World) : Prop :=
  forall x r p, injectors w !! x = Some (Reflective r) ->
    p ∈ providers r -> forward_provider p.

Lemma frames_forward w w1 : frames w w1 -> forward w -> forward w1.
Proof.
  intros (L & _ & F) Hc x r1 p Hx Hp. specialize (F x).
  destruct (injectors w !! x) as [[r|]|] eqn:E; try congruence.
  destruct F as (r1' & E1 & Fr). rewrite Hx in E1. injection E1 as <-.
  apply (Hc x r p E). destruct Fr. congruence.
Qed.

(** [rising w o]: the computation left the next free address where it was
    or above. *)
Definition rising {A} (w : World) (o : outcome A) : Prop :=
  match o with
  | Ret _ w1 | Thr _ w1 => heap_next w <= heap_next w1
  | Diverge => True
  end.

Lemma rising_trans {A} w w1 (o : outcome A) :
  heap_next w <= heap_next w1 -> rising w1 o -> rising w o.
Proof. destruct o; simpl; lia. Qed.

Lemma mapM_rising {A B} (f : A -> M B) :
  (forall x w, framed w (f x w)) ->
  (forall x w, forward w -> rising w (f x w)) ->
  forall l w, forward w -> rising w (mapM f l w).
Proof.
  intros Hfr Hf. induction l as [|x l IH]; intros w Hw; simpl; [lia|].
  unfold bind. specialize (Hf x w Hw). specialize (Hfr x w).
  destruct (f x w) as [y w1|e w1|]; simpl in *; auto.
  specialize (IH w1 (frames_forward _ _ Hfr Hw)).
  destruct (mapM f l w1); simpl in *; lia.
Qed.

Section MethodsForward.

Variable rec : nat -> ReflectiveKey -> option Visibility -> value -> M value.
Hypothesis rec_framed : forall this key vis nf w, framed w (rec this key vis nf w).
Hypothesis rec_rising : forall this key vis nf w,
  forward w -> rising w (rec this key vis nf w).

Lemma injector_get_rising inj t nf w :
  forward w -> rising w (injector_get rec inj t nf w).
Proof.
  intros Hw. unfold injector_get.
  destruct (injectors w !! inj) as [[r|]|]; simpl; auto.
  - destruct (ReflectiveKey_get _ _) as [[k|e] g]; simpl; auto.
    apply (rec_rising inj k None _ (set_registry w g)). exact Hw.
  - unfold NullInjector_get. destruct (strict_eq _ _); simpl; auto.
Qed.

Lemma run_factory_rising this p fr : forall w,
  forward w -> forward_result (heap_next w) fr ->
  rising w (run_factory rec this p fr w).
Proof.
  induction fr as [v n|e|v|n inj t nf k IH]; intros w Hw Hfr; simpl in *; auto.
  - destruct (nullish v); simpl; auto.
  - destruct Hfr as (Hn & Hk).
    assert (Hw' : forward (set_heap_next w n)) by exact Hw.
    pose proof (injector_get_rising inj t nf _ Hw') as H.
    pose proof (injector_get_framed rec rec_framed inj t nf (set_heap_next w n)) as F.
    destruct (injector_get rec inj t nf (set_heap_next w n)) as [v w1|e w1|];
      simpl in *; auto;
      (eapply rising_trans; [|apply IH; [eapply frames_forward; eauto|apply Hk; lia]]);
      lia.
Qed.

Lemma instantiate_rising this p rf w :
  forward w -> forward_factory (factory rf) ->
  rising w (instantiate rec this p rf w).
Proof.
  intros Hw Hf. unfold instantiate.
  pose proof (mapM_rising (getByReflectiveDependency rec this)
                (fun d w' => rec_framed _ _ _ _ w')
                (fun d w' H => rec_rising _ _ _ _ w' H) (dependencies rf) w Hw) as H.
  pose proof (mapM_framed (getByReflectiveDependency rec this)
                (fun d w' => rec_framed _ _ _ _ w') (dependencies rf) w) as F.
  destruct (mapM _ _ w) as [deps w1|e w1|]; simpl in *; auto.
  eapply rising_trans; [exact H|].
  apply run_factory_rising; [eapply frames_forward; eauto|apply Hf].
Qed.

Lemma mapM_instantiate_rising this p l : forall w,
  forward w -> (forall rf, rf ∈ l -> forward_factory (factory rf)) ->
  rising w (mapM (instantiate rec this p) l w).
Proof.
  induction l as [|rf l IH]; intros w Hw Hl; simpl; [lia|].
  unfold bind.
  pose proof (instantiate_rising this p rf w Hw (Hl rf (list_elem_of_here _ _))) as H.
  pose proof (instantiate_framed rec rec_framed this p rf w) as F.
  destruct (instantiate rec this p rf w) as [y w1|e w1|]; simpl in *; auto.
  specialize (IH w1 (frames_forward _ _ F Hw)
                (fun rf' Hin => Hl rf' (list_elem_of_further _ _ _ Hin))).
  destruct (mapM _ l w1); simpl in *; lia.
Qed.

Lemma instantiateProvider_rising this p w :
  forward w -> forward_provider p ->
  rising w (instantiateProvider rec this p w).
Proof.
  intros Hw Hp. unfold instantiateProvider. destruct (multiProvider p).
  - pose proof (mapM_instantiate_rising this p (resolvedFactories p)
                  (set_heap_next w (S (heap_next w))) Hw Hp) as H.
    destruct (mapM _ _ _); simpl in *; lia.
  - destruct (resolvedFactories p) as [|rf rest] eqn:Hrf; simpl; auto.
    apply instantiate_rising; auto. apply Hp. rewrite Hrf. left.
Qed.

Lemma new_rising this p w :
  forward w -> (forall p', p = Some p' -> forward_provider p') ->
  rising w (new_ rec this p w).
Proof.
  intros Hw Hp. unfold new_.
  destruct (injectors w !! this) as [[r|]|] eqn:E; simpl; auto.
  destruct p as [p|]; simpl; auto.
  destruct (_ <? _)%nat; simpl; auto.
  fold (incr_counter w this r).
  apply (instantiateProvider_rising this p (incr_counter w this r)); auto.
  eapply frames_forward; [apply incr_counter_frames|]; eauto.
Qed.

Lemma getObjByKeyId_rising this kid w :
  forward w -> rising w (getObjByKeyId rec this kid w).
Proof.
  intros Hw. unfold getObjByKeyId.
  destruct (injectors w !! this) as [[r|]|] eqn:E; simpl; auto.
  destruct (find_keyId (keyIds r) kid 0) as [i|]; simpl; auto.
  destruct (strict_eq _ _); simpl; auto.
  assert (Hp : forall p', providers r !! i = Some p' -> forward_provider p').
  { intros p' Hp'. apply (Hw this r p' E). eapply list_elem_of_lookup_2; eauto. }
  pose proof (new_rising this (providers r !! i) w Hw Hp) as H.
  destruct (new_ rec this (providers r !! i) w) as [v w1|e w1|]; simpl in *; auto.
  destruct (injectors w1 !! this) as [[r1|]|]; simpl; auto.
Qed.

Lemma walk_rising n this key nf : forall inj w,
  forward w -> rising w (walk rec n this key nf inj w).
Proof.
  assert (Hton : forall w', rising w' (throwOrNull this key nf w'))
    by (intros w'; unfold throwOrNull; destruct (negb _); simpl; auto).
  assert (Hnull : forall w', rising w' (NullInjector_get (token key) (Some nf) w'))
    by (intros w'; unfold NullInjector_get; destruct (strict_eq _ _); simpl; auto).
  induction n as [|n IH]; intros inj w Hw.
  - destruct inj as [j|]; simpl; auto.
    destruct (injectors w !! j) as [[r|]|]; simpl; auto.
  - destruct inj as [j|]; simpl; auto.
    destruct (injectors w !! j) as [[r|]|]; simpl; auto.
    pose proof (getObjByKeyId_rising j (id key) w Hw) as H.
    pose proof (getObjByKeyId_framed rec rec_framed j (id key) w) as F.
    destruct (getObjByKeyId rec j (id key) w) as [v w1|e w1|]; simpl in *; auto.
    destruct (negb _); simpl; auto.
    destruct (injectors w1 !! j) as [[r1|]|]; simpl; auto.
    eapply rising_trans; [exact H|]. apply IH. eapply frames_forward; eauto.
Qed.

Lemma getByKey_body_rising n this key vis nf w :
  forward w -> rising w (getByKey_body rec n this key vis nf w).
Proof.
  intros Hw. unfold getByKey_body.
  destruct (key_eqb key INJECTOR_KEY); [simpl; auto|].
  destruct vis as [[|]|]; unfold getByKeyDefault.
  - unfold getByKeySelf, bind.
    pose proof (getObjByKeyId_rising this (id key) w Hw) as H.
    destruct (getObjByKeyId rec this (id key) w) as [v w1|e w1|]; simpl in *; auto.
    destruct (negb _); simpl; auto.
    unfold throwOrNull. destruct (negb _); simpl; auto.
  - destruct (injectors w !! this) as [[r|]|]; simpl; auto.
    apply walk_rising; auto.
  - apply walk_rising; auto.
Qed.

End MethodsForward.

Lemma getByKey_rising fuel : forall this key vis nf w,
  forward w -> rising w (getByKey fuel this key vis nf w).
Proof.
  induction fuel as [|fuel IH]; intros; simpl; [exact I|].
  apply getByKey_body_rising; auto using getByKey_framed.
Qed.

(** ** Singletons and fresh instances *)

(** C1, as stated, has [instantiateResolved] never return the same
    reference twice and never write a cache slot, and has the instance of
    a token constructed at most once.  A provider of a fixed value returns
    that value on every call, and instantiating a provider that depends on
    A constructs A and caches it in its slot.  And a factory that is
    handed the injector and asks it for its own token is run twice by one
    [get]: the inner [get] returns one object, which the outer
    construction then replaces in the slot by another. *)
Lemma C1_instantiateResolved_same_reference_and_slot_write :
  let w := snd (fromResolvedProviders [provA] None world0) in
  let fixed := mkProvider keyB [mkFactory (value_factory (VObj 7)) []] false in
  let car := mkProvider keyB [mkFactory class_factory [dep keyA]] false in
  let w' := snd (fromResolvedProviders [wrappingA] None world0) in
  instantiateResolved 3 0 fixed w = Ret (VObj 7) w /\
  (exists r, injectors w !! 0 = Some (Reflective r) /\ objs r = [UNDEFINED]) /\
  (exists v w1 r1, instantiateResolved 3 0 car w = Ret v w1 /\
     injectors w1 !! 0 = Some (Reflective r1) /\ objs r1 = [VObj 10]) /\
  (exists w1,
     get 7 0 tokA None w' = Ret (VArr 11 [VObj 10]) w1 /\
     get 7 0 tokA None w1 = Ret (VArr 11 [VObj 10]) w1).
Proof.
  split; [reflexivity|split; [|split]].
  - eexists. split; reflexivity.
  - do 3 eexists. split; [reflexivity|split; reflexivity].
  - eexists. split; reflexivity.
Qed.

(** A dependency that is answered from what the container holds: the
    injector itself, or a key whose first slot in the container holds an
    instance. *)
Definition cached_dep (this : nat) (r : ReflectiveInjector_)
    (d : ReflectiveDependency) (v : value) : Prop :=
  (key_eqb (dep_key d) INJECTOR_KEY = true /\ v = VInj this) \/
  (key_eqb (dep_key d) INJECTOR_KEY = false /\ visibility d <> Some SkipSelf /\
   exists i, find_keyId (keyIds r) (id (dep_key d)) 0 = Some i /\
             read_slot (objs r) i = v /\ v <> UNDEFINED).

Lemma dependency_cached fuel this r d v w :
  injectors w !! this = Some (Reflective r) -> cached_dep this r d v ->
  getByReflectiveDependency (getByKey (S (S fuel))) this d w = Ret v w.
Proof.
  intros Hr [(Hk & ->)|(Hk & Hv & i & Hf & <- & Hu)]; unfold getByReflectiveDependency.
  - simpl. unfold getByKey_body. rewrite Hk. reflexivity.
  - destruct (visibility d) as [[|]|]; try congruence.
    + rewrite getByKey_Self_unfold by auto. unfold getByKeySelf, bind.
      apply strict_eq_UNDEFINED in Hu.
      rewrite (getObjByKeyId_cached _ _ _ _ _ _ Hr Hf Hu), Hu. reflexivity.
    + apply getByKey_read_cached; auto.
Qed.

Lemma dependencies_cached fuel this r w ds vs :
  injectors w !! this = Some (Reflective r) -> Forall2 (cached_dep this r) ds vs ->
  mapM (getByReflectiveDependency (getByKey (S (S fuel))) this) ds w = Ret vs w.
Proof.
  intros Hr. induction 1 as [|d v ds vs Hd _ IH]; cbn [mapM]; [reflexivity|].
  unfold bind. rewrite (dependency_cached _ _ _ _ _ _ Hr Hd), IH. reflexivity.
Qed.

(** A token that is registered stays registered in every store reached
    through the public methods. *)
Lemma reachable_registered w w1 t k :
  reachable w w1 ->
  ReflectiveKey_get (globalKeyRegistry w) t = (Ok k, globalKeyRegistry w) ->
  ReflectiveKey_get (globalKeyRegistry w1) t = (Ok k, globalKeyRegistry w1).
Proof.
  intros Hreach Ht.
  induction Hreach as [|w1 fuel this t' arg v w2 Hr IH H
                       |w1 fuel this t' arg e w2 Hr IH H
                       |w1 fuel this p v w2 Hr IH H
                       |w1 fuel this p e w2 Hr IH H
                       |w1 ps parent Hr IH Hp
                       |w1 this ps Hr IH Hp]; auto.
  - pose proof (get_framed fuel this t' arg w1) as F. rewrite H in F.
    eapply frames_registered; eauto.
  - pose proof (get_framed fuel this t' arg w1) as F. rewrite H in F.
    eapply frames_registered; eauto.
  - pose proof (instantiateResolved_framed fuel this p w1) as F. rewrite H in F.
    eapply frames_registered; eauto.
  - pose proof (instantiateResolved_framed fuel this p w1) as F. rewrite H in F.
    eapply frames_registered; eauto.
Qed.

(** What [instantiateResolved] returns for a class-like factory is the
    address that was free when the factory ran. *)
Lemma instantiateResolved_allocates fuel this p rf rest w v w1 :
  forward w -> multiProvider p = false -> resolvedFactories p = rf :: rest ->
  (forall args n, factory rf args n = FReturn (VObj n) (S n)) ->
  instantiateResolved fuel this p w = Ret v w1 ->
  exists a, v = VObj a /\ heap_next w <= a /\ heap_next w1 = S a /\ forward w1.
Proof.
  intros Hw Hm Hrf Halloc H. unfold instantiateResolved in H.
  pose proof (instantiateProvider_framed (getByKey fuel) (getByKey_framed fuel)
                this p w) as F.
  rewrite H in F. simpl in F.
  rewrite (instantiateProvider_single _ _ _ _ _ _ Hm Hrf) in H.
  unfold instantiate in H.
  pose proof (mapM_rising (getByReflectiveDependency (getByKey fuel) this)
                (fun d w' => getByKey_framed fuel _ _ _ _ w')
                (fun d w' Hw' => getByKey_rising fuel _ _ _ _ w' Hw')
                (dependencies rf) w Hw) as Hrise.
  destruct (mapM _ _ w) as [deps wa|e wa|]; try discriminate.
  rewrite Halloc in H. simpl in H. injection H as <- <-.
  exists (heap_next wa). simpl in *. eauto using frames_forward.
Qed.

(** What [instantiateResolved] returns for a multi-provider is an array at
    the address that was free when the call began. *)
Lemma instantiateResolved_multi fuel this p w v w1 :
  forward w -> forward_provider p -> multiProvider p = true ->
  instantiateResolved fuel this p w = Ret v w1 ->
  (exists res, v = VArr (heap_next w) res) /\ heap_next w < heap_next w1 /\
  forward w1.
Proof.
  intros Hw Hp Hm H. unfold instantiateResolved in H.
  pose proof (instantiateProvider_framed (getByKey fuel) (getByKey_framed fuel)
                this p w) as F.
  rewrite H in F. simpl in F.
  unfold instantiateProvider in H. rewrite Hm in H.
  pose proof (mapM_instantiate_rising (getByKey fuel) (getByKey_framed fuel)
                (getByKey_rising fuel) this p (resolvedFactories p)
                (set_heap_next w (S (heap_next w))) Hw Hp) as Hrise.
  destruct (mapM _ _ _) as [res wa|e wa|]; try discriminate.
  injection H as <- <-. simpl in Hrise.
  split; [eauto|]. split; [lia|]. eauto using frames_forward.
Qed.

(** C1, amended. For a token bound in the container, once a [get] made
    between constructions has returned an instance, every [get] of the
    token in every store reached afterwards through the public methods
    returns that same instance from the store as it is, without
    constructing anything, whatever the factories do.
    [instantiateResolved] runs the factory of the provider on every call
    and stores the result in no slot: when the dependencies of the
    provider are the injector or instances that the container already
    holds, the call is the run of the factory on these instances in the
    store as it is, and a factory that returns leaves the injectors of
    the store as they are.  For a factory that builds a new object, as a
    class does, and for a multi-provider, two calls that return, return
    two different references, whatever the dependencies are, when the
    factories of the store allocate upwards.  (A fixed value is returned
    again, slots of the dependencies it resolves can be constructed and
    cached, and a [get] made by a factory of the slot under construction
    can return an instance that is replaced afterwards.) *)
Theorem C1_singleton_per_container (fuel : nat) (w : World) (this : nat)
    (r : ReflectiveInjector_) :
  wf_world w ->
  injectors w !! this = Some (Reflective r) ->
  (forall t arg k g i v w1,
     ReflectiveKey_get (globalKeyRegistry w) t = (Ok k, g) ->
     find_keyId (keyIds r) (id k) 0 = Some i ->
     (forall p, providers r !! i = Some p -> no_sentinel p) ->
     get fuel this t arg w = Ret v w1 ->
     forall w2, reachable w1 w2 ->
     forall fuel' arg', fuel <= fuel' ->
       get fuel' this t arg' w2 = Ret v w2) /\
  (forall p rf rest vs,
     multiProvider p = false -> resolvedFactories p = rf :: rest ->
     Forall2 (cached_dep this r) (dependencies rf) vs ->
     instantiateResolved (S (S fuel)) this p w =
       run_factory (getByKey (S (S fuel))) this p (factory rf vs (heap_next w)) w /\
     forall v n, factory rf vs (heap_next w) = FReturn v n ->
       instantiateResolved (S (S fuel)) this p w = Ret v (set_heap_next w n)) /\
  (forall p fuel1 fuel2 v1 w1 v2 w2,
     forward w ->
     (multiProvider p = true /\ forward_provider p) \/
     (multiProvider p = false /\
      exists rf rest, resolvedFactories p = rf :: rest /\
        forall args n, factory rf args n = FReturn (VObj n) (S n)) ->
     instantiateResolved fuel1 this p w = Ret v1 w1 ->
     instantiateResolved fuel2 this p w1 = Ret v2 w2 ->
     strict_eq v1 v2 = false) /\
  (forall p rf rest vs,
     multiProvider p = false -> resolvedFactories p = rf :: rest ->
     (forall args n, factory rf args n = FReturn (VObj n) (S n)) ->
     Forall2 (cached_dep this r) (dependencies rf) vs ->
     exists v1 w1 v2 w2,
       instantiateResolved (S (S fuel)) this p w = Ret v1 w1 /\
       instantiateResolved (S (S fuel)) this p w1 = Ret v2 w2 /\
       strict_eq v1 v2 = false /\
       injectors w2 = injectors w).
Proof.
  intros Hw Hr.
  assert (Hcached : forall p rf rest vs w',
            injectors w' !! this = Some (Reflective r) ->
            multiProvider p = false -> resolvedFactories p = rf :: rest ->
            Forall2 (cached_dep this r) (dependencies rf) vs ->
            instantiateResolved (S (S fuel)) this p w' =
              run_factory (getByKey (S (S fuel))) this p
                (factory rf vs (heap_next w')) w').
  { intros p rf rest vs w' Hr' Hm Hrf Hds. unfold instantiateResolved.
    rewrite (instantiateProvider_single _ _ _ _ _ _ Hm Hrf).
    unfold instantiate.
    rewrite (dependencies_cached _ _ _ _ _ _ Hr' Hds). reflexivity. }
  split; [|split; [|split]].
  - intros t arg k g i v w1 Hk Hf Hp H w2 Hreach fuel' arg' Hfuel.
    rewrite (get_unfold _ _ _ _ _ _ _ Hk) in H.
    pose proof (getByKey_framed fuel this k None
                  (default_param arg THROW_IF_NOT_FOUND) (set_registry w g)) as F1.
    rewrite H in F1. simpl in F1.
    assert (Ht1 : ReflectiveKey_get (globalKeyRegistry w1) t
                  = (Ok k, globalKeyRegistry w1)).
    { apply (frames_registered (set_registry w g)); [exact F1|].
      simpl. eapply ReflectiveKey_get_idem; eauto. }
    pose proof (reachable_registered _ _ _ _ Hreach Ht1) as Ht2.
    rewrite (get_registered _ _ _ _ _ _ Ht2).
    destruct (key_eqb k INJECTOR_KEY) eqn:Hinj.
    + destruct fuel as [|fuel0]; [discriminate|].
      destruct fuel' as [|fuel'0]; [lia|].
      simpl in *. unfold getByKey_body in *. rewrite Hinj in *.
      injection H as <- _. reflexivity.
    + change (injectors w) with (injectors (set_registry w g)) in Hr.
      destruct (getByKey_bound_cached _ _ _ _ _ _ _ _ _ Hinj Hr Hf Hp H)
        as (Hv & _ & r1 & E1 & Hkeys & Hread).
      assert (Hw1 : wf_world w1) by (eapply frames_wf; eauto).
      destruct (reachable_settled _ _ Hreach this r1 E1) as (r2 & E2 & _ & Hkeep).
      destruct (reachable_keeps _ _ Hw1 Hreach) as (_ & Hk2).
      destruct (Hk2 this r1 E1) as (r2' & E2' & Hkeys2 & _).
      rewrite E2 in E2'. injection E2' as <-.
      assert (Hread2 : read_slot (objs r2) i = v).
      { unfold read_slot in *. rewrite Hkeep; [exact Hread|].
        unfold read_slot. congruence. }
      destruct fuel as [|[|fuel0]]; [discriminate| |].
      * rewrite getByKey_default_unfold in H by auto.
        rewrite (walk_zero_reflective _ _ _ _ _ _ _ Hr) in H. discriminate.
      * destruct fuel' as [|[|fuel'0]]; try lia.
        rewrite <- Hread2. apply getByKey_read_cached; auto; congruence.
  - intros p rf rest vs Hm Hrf Hds.
    pose proof (Hcached p rf rest vs w Hr Hm Hrf Hds) as E.
    split; [exact E|]. intros v n Hv. rewrite E, Hv. reflexivity.
  - intros p fuel1 fuel2 v1 w1 v2 w2 Hfw Hkind H1 H2.
    destruct Hkind as [(Hm & Hp)|(Hm & rf & rest & Hrf & Halloc)].
    + destruct (instantiateResolved_multi _ _ _ _ _ _ Hfw Hp Hm H1)
        as ((res1 & ->) & Hlt & Hfw1).
      destruct (instantiateResolved_multi _ _ _ _ _ _ Hfw1 Hp Hm H2)
        as ((res2 & ->) & _).
      simpl. apply Nat.eqb_neq. lia.
    + destruct (instantiateResolved_allocates _ _ _ _ _ _ _ _ Hfw Hm Hrf Halloc H1)
        as (a1 & -> & _ & Hn1 & Hfw1).
      destruct (instantiateResolved_allocates _ _ _ _ _ _ _ _ Hfw1 Hm Hrf Halloc H2)
        as (a2 & -> & Hle & _).
      simpl. apply Nat.eqb_neq. lia.
  - intros p rf rest vs Hm Hrf Halloc Hds.
    exists (VObj (heap_next w)), (set_heap_next w (S (heap_next w))),
           (VObj (S (heap_next w))),
           (set_heap_next w (S (S (heap_next w)))).
    rewrite (Hcached p rf rest vs w Hr Hm Hrf Hds), Halloc. simpl.
    split; [reflexivity|].
    rewrite (Hcached p rf rest vs (set_heap_next w (S (heap_next w))) Hr Hm Hrf Hds),
      Halloc. simpl.
    repeat split; auto. apply Nat.eqb_neq. lia.
Qed.

Lemma world0A_wf :
  wf_world (snd (fromResolvedProviders [provA] None world0)).
Proof.
  intros i r p Hi Hp. destruct i as [|i]; simpl in Hi; try discriminate.
  injection Hi as <-. discriminate.
Qed.

Lemma world0A_forward :
  forward (snd (fromResolvedProviders [provA] None world0)).
Proof.
  intros x r p Hx Hp rf Hrf args n.
  destruct x as [|x]; simpl in Hx; try discriminate. injection Hx as <-.
  apply list_elem_of_singleton in Hp. subst p.
  apply list_elem_of_singleton in Hrf. subst rf. simpl. lia.
Qed.

Lemma C1_witness :
  let w := snd (fromResolvedProviders [provA] None world0) in
  let car := mkProvider keyB [mkFactory class_factory [dep keyA]] false in
  (exists v w1, get 3 0 tokA None w = Ret v w1 /\ get 3 0 tokA None w1 = Ret v w1) /\
  (exists v1 w1 v2 w2,
     instantiateResolved 3 0 car w = Ret v1 w1 /\
     instantiateResolved 3 0 car w1 = Ret v2 w2 /\
     strict_eq v1 v2 = false).
Proof.
  intros w car.
  destruct (C1_singleton_per_container 3 w 0 (ReflectiveInjector__new [provA] None)
              world0A_wf eq_refl) as (H1 & _ & H3 & _).
  split.
  - exists (VObj 10). eexists. split; [reflexivity|].
    eapply (H1 tokA None keyA registry0 0 (VObj 10));
      [reflexivity|reflexivity| |reflexivity|apply reach_here|lia].
    intros p [= <-] rf args n Hin.
    apply list_elem_of_singleton in Hin. subst rf. simpl. discriminate.
  - do 4 eexists. split; [reflexivity|]. split; [reflexivity|].
    eapply (H3 car 3 3); [apply world0A_forward| |reflexivity|reflexivity].
    right. split; [reflexivity|].
    exists (mkFactory class_factory [dep keyA]), []. split; reflexivity.
Defined.

(** ** Parent and child *)

Section ChildVisibility.

Variables (w : World) (p c : nat) (rp rc : ReflectiveInjector_).
Variables (tA tB : value) (kA kB : ReflectiveKey) (iA iB : nat).

Hypothesis Hp : injectors w !! p = Some (Reflective rp).
Hypothesis Hc : injectors w !! c = Some (Reflective rc).
Hypothesis Hroot : parent rp = None.
Hypothesis Hchild : parent rc = Some p.
Hypothesis HtA : ReflectiveKey_get (globalKeyRegistry w) tA = (Ok kA, globalKeyRegistry w).
Hypothesis HtB : ReflectiveKey_get (globalKeyRegistry w) tB = (Ok kB, globalKeyRegistry w).
Hypothesis HkA : key_eqb kA INJECTOR_KEY = false.
Hypothesis HkB : key_eqb kB INJECTOR_KEY = false.
Hypothesis HA_parent : find_keyId (keyIds rp) (id kA) 0 = Some iA.
Hypothesis HA_child : find_keyId (keyIds rc) (id kA) 0 = None.
Hypothesis HB_child : find_keyId (keyIds rc) (id kB) 0 = Some iB.
Hypothesis HB_parent : find_keyId (keyIds rp) (id kB) 0 = None.
Hypothesis HA_factory : forall pA, providers rp !! iA = Some pA -> no_sentinel pA.

(** The child asks its parent once its own slots have no binding. *)
Lemma child_defers fuel nf w' rc' :
  injectors w' !! c = Some (Reflective rc') -> frame_inj rc rc' ->
  getByKey (S (S fuel)) c kA None nf w' =
  walk (getByKey (S fuel)) fuel c kA nf (Some p) w'.
Proof.
  intros Hc' [].
  assert (Hu : find_keyId (keyIds rc') (id kA) 0 = None) by congruence.
  rewrite getByKey_default_unfold by auto.
  rewrite (walk_first _ _ _ _ _ _ _ _ Hc').
  rewrite (getObjByKeyId_unbound _ _ _ _ _ Hc' Hu). simpl.
  rewrite Hc'. replace (parent rc') with (Some p) by congruence. reflexivity.
Qed.

Lemma child_then_parent fuel v w2 :
  get fuel p tA None w = Ret v w2 -> get (S fuel) c tA None w2 = Ret v w2.
Proof.
  intros H. rewrite (get_registered _ _ _ _ _ _ HtA) in H.
  destruct (getByKey_bound_cached _ _ _ _ _ _ _ _ _ HkA Hp HA_parent HA_factory H)
    as (Hv & Hfr & r1 & E1 & Hkeys & Hread).
  destruct (frames_lookup _ _ _ _ Hfr Hc) as (rc' & Ec & Frc).
  rewrite (get_registered _ _ tA kA) by (eapply frames_registered; eauto).
  destruct fuel as [|[|fuel]]; [discriminate| |].
  - rewrite getByKey_default_unfold in H by auto.
    rewrite (walk_zero_reflective _ _ _ _ _ _ _ Hp) in H. discriminate.
  - rewrite (child_defers _ _ _ rc') by auto.
    rewrite (walk_first _ _ _ _ _ _ _ _ E1).
    assert (Hs : strict_eq (read_slot (objs r1) iA) UNDEFINED = false)
      by (apply strict_eq_UNDEFINED; congruence).
    rewrite (getObjByKeyId_cached _ _ _ _ iA _ E1) by (congruence || auto).
    rewrite Hs. simpl. congruence.
Qed.

Lemma parent_then_child fuel v w2 :
  get fuel c tA None w = Ret v w2 -> get fuel p tA None w2 = Ret v w2.
Proof.
  intros H. rewrite (get_registered _ _ _ _ _ _ HtA) in H.
  destruct fuel as [|[|[|fuel]]]; try discriminate.
  - rewrite getByKey_default_unfold in H by auto.
    rewrite (walk_zero_reflective _ _ _ _ _ _ _ Hc) in H. discriminate.
  - rewrite (child_defers _ _ _ rc) in H by auto using frame_inj_refl.
    rewrite (walk_zero_reflective _ _ _ _ _ _ _ Hp) in H. discriminate.
  - rewrite (child_defers _ _ _ rc) in H by auto using frame_inj_refl.
    rewrite (walk_first _ _ _ _ _ _ _ _ Hp) in H.
    pose proof (getObjByKeyId_framed (getByKey (S (S fuel))) (getByKey_framed _)
                  p (id kA) w) as Hpost.
    destruct (getObjByKeyId (getByKey (S (S fuel))) p (id kA) w)
      as [v' w'|e w'|] eqn:Hg; try discriminate.
    destruct (getObjByKeyId_bound _ _ _ _ _ _ _ _ Hp HA_parent HA_factory Hg)
      as (Hv & r1 & E1 & Hread).
    rewrite (proj2 (strict_eq_UNDEFINED v') Hv) in H. simpl in H.
    injection H as <- <-. simpl in Hpost.
    destruct (frames_lookup _ _ _ _ Hpost Hp) as (r1' & E1' & []).
    rewrite E1 in E1'. injection E1' as <-.
    rewrite (get_registered _ _ tA kA) by (eapply frames_registered; eauto).
    rewrite <- Hread. apply getByKey_read_cached; auto; congruence.
Qed.

(** Reading the unconstructed slot of a provider constructs it: the
    result is what instantiating the provider returns. *)
Lemma constructs_slot this r kid i fuel pv v w2 :
  injectors w !! this = Some (Reflective r) ->
  find_keyId (keyIds r) kid 0 = Some i ->
  providers r !! i = Some pv -> no_sentinel pv ->
  read_slot (objs r) i = UNDEFINED ->
  constructionCounter r <= length (objs r) ->
  instantiateProvider (getByKey fuel) this pv (incr_counter w this r) = Ret v w2 ->
  v <> UNDEFINED /\
  exists w3, getObjByKeyId (getByKey fuel) this kid w = Ret v w3.
Proof.
  intros Hr Hf Hpv Hns Hslot Hcount Hinst.
  assert (Hv : v <> UNDEFINED) by (eapply instantiateProvider_no_sentinel; eauto).
  split; [exact Hv|].
  rewrite (getObjByKeyId_construct _ _ _ _ _ _ Hr Hf)
    by (rewrite Hslot; reflexivity).
  rewrite Hpv, (new_guard_passes _ _ _ _ _ Hr Hcount), Hinst.
  assert (Hstep : frames w (incr_counter w this r))
    by (eapply frames_set_injector; [exact Hr|split; simpl; auto]).
  pose proof (instantiateProvider_framed (getByKey fuel) (getByKey_framed _)
                this pv (incr_counter w this r)) as Hpost.
  rewrite Hinst in Hpost. simpl in Hpost.
  destruct (frames_lookup _ _ _ _ (frames_trans _ _ _ Hstep Hpost) Hr)
    as (r1 & E1 & []).
  unfold write_slot. rewrite E1. simpl.
  assert (Hi : i < length (objs r)).
  { destruct (decide (i < length (objs r))); auto.
    unfold read_slot in Hslot. rewrite lookup_ge_None_2 in Hslot by lia.
    discriminate. }
  unfold read_slot. rewrite list_lookup_insert_eq by lia. simpl. eauto.
Qed.

Lemma constructs_own this r t k i fuel pv v w2 :
  injectors w !! this = Some (Reflective r) ->
  ReflectiveKey_get (globalKeyRegistry w) t = (Ok k, globalKeyRegistry w) ->
  key_eqb k INJECTOR_KEY = false ->
  find_keyId (keyIds r) (id k) 0 = Some i ->
  providers r !! i = Some pv -> no_sentinel pv ->
  read_slot (objs r) i = UNDEFINED ->
  constructionCounter r <= length (objs r) ->
  instantiateProvider (getByKey (S fuel)) this pv (incr_counter w this r) = Ret v w2 ->
  exists w3, get (S (S fuel)) this t None w = Ret v w3.
Proof.
  intros Hr Ht Hk Hf Hpv Hns Hslot Hcount Hinst.
  destruct (constructs_slot this r (id k) i (S fuel) pv v w2) as (Hv & w3 & H3); auto.
  exists w3.
  rewrite (get_registered _ _ _ _ _ _ Ht), getByKey_default_unfold by auto.
  rewrite (walk_first _ _ _ _ _ _ _ _ Hr), H3.
  rewrite (proj2 (strict_eq_UNDEFINED v) Hv). reflexivity.
Qed.

Lemma child_constructs fuel pB v w2 :
  providers rc !! iB = Some pB -> no_sentinel pB ->
  read_slot (objs rc) iB = UNDEFINED ->
  constructionCounter rc <= length (objs rc) ->
  instantiateProvider (getByKey (S fuel)) c pB (incr_counter w c rc) = Ret v w2 ->
  exists w3, get (S (S fuel)) c tB None w = Ret v w3.
Proof. intros. eapply constructs_own; eauto. Qed.

(** [child.get(A)] constructs A in the parent, and [parent.get(A)] then
    returns the same instance. *)
Lemma child_constructs_in_parent fuel pA v w2 :
  providers rp !! iA = Some pA ->
  read_slot (objs rp) iA = UNDEFINED ->
  constructionCounter rp <= length (objs rp) ->
  instantiateProvider (getByKey (S (S fuel))) p pA (incr_counter w p rp) = Ret v w2 ->
  exists w3, get (S (S (S fuel))) c tA None w = Ret v w3 /\
             get (S (S (S fuel))) p tA None w3 = Ret v w3.
Proof.
  intros HpA Hslot Hcount Hinst.
  destruct (constructs_slot p rp (id kA) iA (S (S fuel)) pA v w2)
    as (Hv & w3 & H3); auto.
  assert (Hchild_get : get (S (S (S fuel))) c tA None w = Ret v w3).
  { rewrite (get_registered _ _ _ _ _ _ HtA).
    rewrite (child_defers _ _ _ rc) by auto using frame_inj_refl.
    rewrite (walk_first _ _ _ _ _ _ _ _ Hp), H3.
    rewrite (proj2 (strict_eq_UNDEFINED v) Hv). reflexivity. }
  exists w3. split; [exact Hchild_get|].
  apply parent_then_child. exact Hchild_get.
Qed.

(** [parent.get(A)] constructs A, and [child.get(A)] then returns the
    same instance. *)
Lemma parent_constructs_for_child fuel pA v w2 :
  providers rp !! iA = Some pA ->
  read_slot (objs rp) iA = UNDEFINED ->
  constructionCounter rp <= length (objs rp) ->
  instantiateProvider (getByKey (S fuel)) p pA (incr_counter w p rp) = Ret v w2 ->
  exists w3, get (S (S fuel)) p tA None w = Ret v w3 /\
             get (S (S (S fuel))) c tA None w3 = Ret v w3.
Proof.
  intros HpA Hslot Hcount Hinst.
  destruct (constructs_own p rp tA kA iA fuel pA v w2) as (w3 & H3); auto.
  exists w3. split; [exact H3|]. apply child_then_parent. exact H3.
Qed.

Lemma parent_lacks_B :
  exists N, forall fuel, N <= fuel ->
    get fuel p tB None w = Thr (noProviderError p kB) w.
Proof.
  destruct (walk_unbound p kB w (Some p) None) as (N & HN).
  - eapply chain_end_parent; eauto. rewrite Hroot. constructor.
  - exists (S N). intros [|fuel] Hf; [lia|].
    rewrite (get_registered _ _ _ _ _ _ HtB), getByKey_default_unfold by auto.
    rewrite HN by lia. reflexivity.
Qed.

End ChildVisibility.

(** C2. Let [parent] be created from providers that bind A and not B, and
    [child] be created from it with providers that bind B and not A.  Then
    [child.get(A)] constructs A in the parent and returns the instance
    that constructing A's provider yields, and [parent.get(A)] then returns
    the same reference; so it is when [parent.get(A)] is called first; and
    whenever one of the two calls returns, the other returns the same
    reference after it.  [child.get(B)] finds B in the child and returns
    the instance that constructing B's provider yields.  For a provider
    without dependencies whose factory returns, these calls return what
    the factory returned.  [parent.get(B)] fails with the NoProviderError
    of B. *)
Theorem C2_child_visibility (ps cs : list ResolvedReflectiveProvider)
    (w0 : World) (tA tB : value) (kA kB : ReflectiveKey) (iA iB : nat) :
  wf_world w0 ->
  let p := fst (fromResolvedProviders ps None w0) in
  let w1 := snd (fromResolvedProviders ps None w0) in
  let c := fst (createChildFromResolved p cs w1) in
  let w := snd (createChildFromResolved p cs w1) in
  let rp := ReflectiveInjector__new ps None in
  let rc := set_parent (ReflectiveInjector__new cs None) (Some p) in
  ReflectiveKey_get (globalKeyRegistry w0) tA = (Ok kA, globalKeyRegistry w0) ->
  ReflectiveKey_get (globalKeyRegistry w0) tB = (Ok kB, globalKeyRegistry w0) ->
  key_eqb kA INJECTOR_KEY = false ->
  key_eqb kB INJECTOR_KEY = false ->
  find_keyId (keyIds (ReflectiveInjector__new ps None)) (id kA) 0 = Some iA ->
  find_keyId (keyIds (ReflectiveInjector__new cs None)) (id kA) 0 = None ->
  find_keyId (keyIds (ReflectiveInjector__new cs None)) (id kB) 0 = Some iB ->
  find_keyId (keyIds (ReflectiveInjector__new ps None)) (id kB) 0 = None ->
  (forall pA, ps !! iA = Some pA -> no_sentinel pA) ->
  (forall pB, cs !! iB = Some pB -> no_sentinel pB) ->
  (forall fuel v w2,
     get fuel p tA None w = Ret v w2 -> get (S fuel) c tA None w2 = Ret v w2) /\
  (forall fuel v w2,
     get fuel c tA None w = Ret v w2 -> get fuel p tA None w2 = Ret v w2) /\
  (forall fuel pA v w2, ps !! iA = Some pA ->
     instantiateProvider (getByKey (S (S fuel))) p pA (incr_counter w p rp) = Ret v w2 ->
     exists w3, get (S (S (S fuel))) c tA None w = Ret v w3 /\
                get (S (S (S fuel))) p tA None w3 = Ret v w3) /\
  (forall fuel pA v w2, ps !! iA = Some pA ->
     instantiateProvider (getByKey (S fuel)) p pA (incr_counter w p rp) = Ret v w2 ->
     exists w3, get (S (S fuel)) p tA None w = Ret v w3 /\
                get (S (S (S fuel))) c tA None w3 = Ret v w3) /\
  (forall pA rf rest v n, ps !! iA = Some pA ->
     multiProvider pA = false -> resolvedFactories pA = rf :: rest ->
     dependencies rf = [] -> factory rf [] (heap_next w0) = FReturn v n ->
     (exists w3, get 3 c tA None w = Ret v w3 /\ get 3 p tA None w3 = Ret v w3) /\
     (exists w3, get 2 p tA None w = Ret v w3 /\ get 3 c tA None w3 = Ret v w3)) /\
  (forall fuel pB v w2, cs !! iB = Some pB ->
     instantiateProvider (getByKey (S fuel)) c pB (incr_counter w c rc) = Ret v w2 ->
     exists w3, get (S (S fuel)) c tB None w = Ret v w3) /\
  (forall pB rf rest v n, cs !! iB = Some pB ->
     multiProvider pB = false -> resolvedFactories pB = rf :: rest ->
     dependencies rf = [] -> factory rf [] (heap_next w0) = FReturn v n ->
     exists w3, get 2 c tB None w = Ret v w3) /\
  (exists N, forall fuel, N <= fuel ->
     get fuel p tB None w = Thr (noProviderError p kB) w).
Proof.
  intros Hw0 p w1 c w rp rc HtA HtB HkA HkB HAp HAc HBc HBp HnsA HnsB.
  assert (Hp1 : injectors w1 !! p = Some (Reflective rp))
    by apply fromResolvedProviders_lookup.
  assert (Hplen : p < length (injectors w1)) by (eapply lookup_lt_Some; eauto).
  assert (Hp : injectors w !! p = Some (Reflective rp)).
  { unfold w. simpl. rewrite lookup_app_l by exact Hplen. exact Hp1. }
  assert (Hc : injectors w !! c = Some (Reflective rc)).
  { unfold w, c. simpl. rewrite lookup_app_r, Nat.sub_diag by lia. reflexivity. }
  assert (HslotB : forall pB, cs !! iB = Some pB -> read_slot (objs rc) iB = UNDEFINED).
  { intros pB HpB. unfold read_slot. simpl. rewrite list_lookup_fmap, HpB. reflexivity. }
  assert (HslotA : forall pA, ps !! iA = Some pA -> read_slot (objs rp) iA = UNDEFINED).
  { intros pA HpA. unfold read_slot. simpl. rewrite list_lookup_fmap, HpA. reflexivity. }
  assert (HgenB : forall fuel pB v w2, cs !! iB = Some pB ->
            instantiateProvider (getByKey (S fuel)) c pB (incr_counter w c rc) = Ret v w2 ->
            exists w3, get (S (S fuel)) c tB None w = Ret v w3).
  { intros fuel pB v w2 HpB Hinst.
    eapply (child_constructs w c rc tB kB iB Hc HtB HkB HBc); eauto.
    simpl. lia. }
  assert (HgenA1 : forall fuel pA v w2, ps !! iA = Some pA ->
            instantiateProvider (getByKey (S (S fuel))) p pA (incr_counter w p rp)
              = Ret v w2 ->
            exists w3, get (S (S (S fuel))) c tA None w = Ret v w3 /\
                       get (S (S (S fuel))) p tA None w3 = Ret v w3).
  { intros fuel pA v w2 HpA Hinst.
    eapply (child_constructs_in_parent w p c rp rc tA kA kB iA
              Hp Hc eq_refl eq_refl HtA HkA HAp HAc HBp HnsA); eauto.
    simpl. lia. }
  assert (HgenA2 : forall fuel pA v w2, ps !! iA = Some pA ->
            instantiateProvider (getByKey (S fuel)) p pA (incr_counter w p rp)
              = Ret v w2 ->
            exists w3, get (S (S fuel)) p tA None w = Ret v w3 /\
                       get (S (S (S fuel))) c tA None w3 = Ret v w3).
  { intros fuel pA v w2 HpA Hinst.
    eapply (parent_constructs_for_child w p c rp rc tA kA kB iA
              Hp Hc eq_refl eq_refl HtA HkA HAp HAc HBp HnsA); eauto.
    simpl. lia. }
  split; [|split; [|split; [|split; [|split; [|split; [|split]]]]]].
  - intros fuel v w2.
    apply (child_then_parent w p c rp rc tA kA kB iA
             Hp Hc eq_refl eq_refl HtA HkA HAp HAc HBp HnsA).
  - intros fuel v w2.
    apply (parent_then_child w p c rp rc tA kA kB iA
             Hp Hc eq_refl eq_refl HtA HkA HAp HAc HBp HnsA).
  - exact HgenA1.
  - exact HgenA2.
  - intros pA rf rest v n HpA Hm Hrf Hd Hf. split.
    + apply (HgenA1 0 pA v (set_heap_next (incr_counter w p rp) n) HpA).
      rewrite (instantiateProvider_single _ _ _ _ _ _ Hm Hrf).
      unfold instantiate. rewrite Hd. simpl. rewrite Hf. reflexivity.
    + apply (HgenA2 0 pA v (set_heap_next (incr_counter w p rp) n) HpA).
      rewrite (instantiateProvider_single _ _ _ _ _ _ Hm Hrf).
      unfold instantiate. rewrite Hd. simpl. rewrite Hf. reflexivity.
  - exact HgenB.
  - intros pB rf rest v n HpB Hm Hrf Hd Hf.
    apply (HgenB 0 pB v (set_heap_next (incr_counter w c rc) n) HpB).
    rewrite (instantiateProvider_single _ _ _ _ _ _ Hm Hrf).
    unfold instantiate. rewrite Hd. simpl. rewrite Hf. reflexivity.
  - apply (parent_lacks_B w p rp tB kB Hp eq_refl HtB HkB HBp).
Qed.

Lemma C2_witness :
  let p := fst (fromResolvedProviders [provA] None world0) in
  let w1 := snd (fromResolvedProviders [provA] None world0) in
  let c := fst (createChildFromResolved p [provB] w1) in
  let w := snd (createChildFromResolved p [provB] w1) in
  (exists w3, get 3 c tokA None w = Ret (VObj 10) w3 /\
              get 3 p tokA None w3 = Ret (VObj 10) w3) /\
  (exists w3, get 2 p tokA None w = Ret (VObj 10) w3 /\
              get 3 c tokA None w3 = Ret (VObj 10) w3) /\
  (exists w3, get 2 c tokB None w = Ret (VObj 10) w3) /\
  (exists N, forall fuel, N <= fuel ->
     get fuel p tokB None w = Thr (noProviderError p keyB) w).
Proof.
  intros p w1 c w.
  assert (Hw0 : wf_world world0) by (intros i r q Hi; destruct i; discriminate).
  assert (Hns : forall i q, [provA] !! i = Some q \/ [provB] !! i = Some q ->
            no_sentinel q).
  { intros i q Hq rf args n Hin.
    assert (rf = mkFactory class_factory []).
    { destruct Hq as [Hq|Hq]; destruct i; simpl in Hq; try discriminate;
        injection Hq as <-; apply list_elem_of_singleton in Hin; exact Hin. }
    subst rf. simpl. discriminate. }
  destruct (C2_child_visibility [provA] [provB] world0 tokA tokB keyA keyB 0 0
              Hw0 eq_refl eq_refl eq_refl eq_refl eq_refl eq_refl eq_refl eq_refl
              (fun q H => Hns 0 q (or_introl H)) (fun q H => Hns 0 q (or_intror H)))
    as (_ & _ & _ & _ & H5 & _ & H7 & H8).
  destruct (H5 provA (mkFactory class_factory []) [] (VObj 10) 11
              eq_refl eq_refl eq_refl eq_refl eq_refl) as [Ha Hb].
  split; [exact Ha|split; [exact Hb|split; [|exact H8]]].
  exact (H7 provB (mkFactory class_factory []) [] (VObj 10) 11
           eq_refl eq_refl eq_refl eq_refl eq_refl).
Defined.

(** ** Termination *)

(** How many more constructions the guard of [new] lets through. *)
Definition budget (i : Injector) : nat :=
  match i with
  | Reflective r => S (length (objs r)) - constructionCounter r
  | NullInjector => 0
  end.

Definition remaining (w : World) : nat := sum_list (budget <$> injectors w).

Lemma sum_list_insert (l : list nat) x b b' :
  l !! x = Some b -> sum_list (<[x := b']> l) + b = sum_list l + b'.
Proof.
  revert x. induction l as [|a l IH]; intros x H; [destruct x; discriminate|].
  destruct x as [|x]; simpl in *.
  - injection H as ->. lia.
  - specialize (IH x H). lia.
Qed.

Lemma remaining_set_injector w x r r' :
  injectors w !! x = Some (Reflective r) ->
  remaining (set_injector w x r') + budget (Reflective r)
  = remaining w + budget (Reflective r').
Proof.
  intros H. unfold remaining. simpl. rewrite list_fmap_insert.
  apply sum_list_insert. rewrite list_lookup_fmap, H. reflexivity.
Qed.

Lemma sum_list_pointwise (l l' : list nat) :
  length l' = length l ->
  (forall x a a', l !! x = Some a -> l' !! x = Some a' -> a' <= a) ->
  sum_list l' <= sum_list l.
Proof.
  revert l'. induction l as [|a l IH]; intros [|a' l'] Hlen H; simpl in *;
    try discriminate; [lia|].
  specialize (IH l' ltac:(lia) (fun x => H (S x))).
  specialize (H 0 a a' eq_refl eq_refl). lia.
Qed.

Lemma frames_remaining w w1 : frames w w1 -> remaining w1 <= remaining w.
Proof.
  intros (Hlen & _ & F). unfold remaining.
  apply sum_list_pointwise; [rewrite !length_fmap; exact Hlen|].
  intros x a a' Ha Ha'. rewrite list_lookup_fmap in Ha, Ha'. specialize (F x).
  destruct (injectors w !! x) as [[r|]|]; try discriminate.
  - destruct F as (r1 & E1 & []). rewrite E1 in Ha'. simpl in *.
    injection Ha as <-. injection Ha' as <-. lia.
  - rewrite F in Ha'. simpl in *. injection Ha as <-. injection Ha' as <-. lia.
Qed.

Lemma frames_length w w1 :
  frames w w1 -> length (injectors w1) = length (injectors w).
Proof. intros (H & _); exact H. Qed.

Lemma incr_counter_remaining w this r :
  injectors w !! this = Some (Reflective r) ->
  constructionCounter r <= length (objs r) ->
  S (remaining (incr_counter w this r)) = remaining w.
Proof.
  intros H Hc.
  pose proof (remaining_set_injector w this r
                (set_counter r (S (constructionCounter r))) H) as Hr.
  simpl in Hr. unfold incr_counter. lia.
Qed.

Section MethodsTerminate.

Variable rec : nat -> ReflectiveKey -> option Visibility -> value -> M value.
Variables (L m : nat).

(** The stores on which the recursive call is known to finish. *)
Definition inside (w : World) : Prop :=
  wf_world w /\ length (injectors w) = L /\ remaining w < m.

(** The stores of the current call. *)
Definition at_most (w : World) : Prop :=
  wf_world w /\ length (injectors w) = L /\ remaining w <= m.

Hypothesis rec_framed : forall this key vis nf w, framed w (rec this key vis nf w).
Hypothesis rec_finishes : forall this key vis nf w,
  inside w -> rec this key vis nf w <> Diverge.

Lemma inside_frames w w1 : inside w -> frames w w1 -> inside w1.
Proof.
  intros (Hw & Hl & Hm) H. repeat split; eauto using frames_wf.
  - rewrite (frames_length _ _ H). exact Hl.
  - apply frames_remaining in H. lia.
Qed.

Lemma at_most_frames w w1 : at_most w -> frames w w1 -> at_most w1.
Proof.
  intros (Hw & Hl & Hm) H. repeat split; eauto using frames_wf.
  - rewrite (frames_length _ _ H). exact Hl.
  - apply frames_remaining in H. lia.
Qed.

Lemma mapM_finishes {A B} (f : A -> M B) :
  (forall x w, framed w (f x w)) ->
  (forall x w, inside w -> f x w <> Diverge) ->
  forall l w, inside w -> mapM f l w <> Diverge.
Proof.
  intros Hpost Hf. induction l as [|x l IH]; intros w Hw; simpl; [discriminate|].
  unfold bind. specialize (Hf x w Hw). specialize (Hpost x w).
  destruct (f x w) as [y w1|e w1|]; try congruence. simpl in Hpost.
  specialize (IH w1 (inside_frames _ _ Hw Hpost)).
  destruct (mapM f l w1); unfold ret; congruence.
Qed.

Lemma injector_get_finishes inj t nf w :
  inside w -> injector_get rec inj t nf w <> Diverge.
Proof.
  intros Hw. unfold injector_get.
  destruct (injectors w !! inj) as [[r|]|]; [| |discriminate].
  - destruct (ReflectiveKey_get _ _) as [[k|e] g]; [|discriminate].
    apply rec_finishes. exact Hw.
  - unfold NullInjector_get. destruct (strict_eq _ _); discriminate.
Qed.

(** A factory is a finite program: it finishes once the lookups it makes
    finish. *)
Lemma run_factory_finishes this provider fr : forall w,
  inside w -> run_factory rec this provider fr w <> Diverge.
Proof.
  induction fr as [v n|e|v|n inj t nf k IH]; intros w Hw; simpl;
    try discriminate.
  - destruct (nullish v); discriminate.
  - assert (Hw' : inside (set_heap_next w n)) by exact Hw.
    pose proof (injector_get_finishes inj t nf _ Hw') as Hfin.
    pose proof (injector_get_framed rec rec_framed inj t nf (set_heap_next w n)) as H.
    destruct (injector_get rec inj t nf (set_heap_next w n)) as [v w1|e w1|];
      try congruence; simpl in H; apply IH; eapply inside_frames; eauto.
Qed.

Lemma instantiate_finishes this provider rf w :
  inside w -> instantiate rec this provider rf w <> Diverge.
Proof.
  intros Hw. unfold instantiate.
  pose proof (mapM_finishes (getByReflectiveDependency rec this)
                (fun d w' => rec_framed _ _ _ _ w')
                (fun d w' H => rec_finishes _ _ _ _ w' H)
                (dependencies rf) w Hw) as H.
  pose proof (mapM_framed (getByReflectiveDependency rec this)
                (fun d w' => rec_framed _ _ _ _ w') (dependencies rf) w) as Hfr.
  destruct (mapM _ _ w) as [deps w1|e w1|]; try congruence.
  apply run_factory_finishes. eapply inside_frames; eauto.
Qed.

Lemma instantiateProvider_finishes this provider w :
  inside w -> instantiateProvider rec this provider w <> Diverge.
Proof.
  intros Hw. unfold instantiateProvider.
  destruct (multiProvider provider).
  - pose proof (mapM_finishes (instantiate rec this provider)
                  (instantiate_framed rec rec_framed this provider)
                  (fun rf w' H => instantiate_finishes this provider rf w' H)
                  (resolvedFactories provider) (set_heap_next w (S (heap_next w)))
                  Hw) as H.
    destruct (mapM _ _ _); congruence.
  - destruct (resolvedFactories provider !! 0%nat); [|discriminate].
    apply instantiate_finishes; auto.
Qed.

Lemma new_finishes this provider w :
  at_most w -> new_ rec this provider w <> Diverge.
Proof.
  intros (Hw & Hl & Hm). unfold new_.
  destruct (injectors w !! this) as [[r|]|] eqn:E; try discriminate.
  destruct provider as [p|]; [|discriminate].
  destruct (Nat.ltb_spec (length (objs r)) (constructionCounter r));
    [discriminate|].
  change (instantiateProvider rec this p (incr_counter w this r) <> Diverge).
  apply instantiateProvider_finishes.
  pose proof (incr_counter_remaining w this r E ltac:(lia)) as Hrem.
  pose proof (incr_counter_frames w this r E) as Hev.
  repeat split; eauto using frames_wf.
  - rewrite (frames_length _ _ Hev). exact Hl.
  - lia.
Qed.

Lemma getObjByKeyId_finishes this keyId w :
  at_most w -> getObjByKeyId rec this keyId w <> Diverge.
Proof.
  intros Hw. unfold getObjByKeyId.
  destruct (injectors w !! this) as [[r|]|]; try discriminate.
  destruct (find_keyId _ _ _) as [i|]; [|discriminate].
  destruct (strict_eq _ _); [|discriminate].
  pose proof (new_finishes this (providers r !! i) w Hw) as H.
  destruct (new_ rec this (providers r !! i) w) as [v w1|e w1|]; try congruence.
  destruct (injectors w1 !! this) as [[r1|]|]; discriminate.
Qed.

Lemma walk_finishes n this key nf : forall inj w,
  at_most w ->
  (forall j, inj = Some j -> j < length (injectors w) -> j < n) ->
  walk rec n this key nf inj w <> Diverge.
Proof.
  assert (Hton : forall w', throwOrNull this key nf w' <> Diverge)
    by (intros w'; unfold throwOrNull; destruct (negb _); discriminate).
  assert (Hnull : forall w', NullInjector_get (token key) (Some nf) w' <> Diverge)
    by (intros w'; unfold NullInjector_get; destruct (strict_eq _ _); discriminate).
  induction n as [|n IH]; intros inj w Hw Hj.
  - destruct inj as [j|]; simpl; auto.
    destruct (injectors w !! j) as [[r|]|] eqn:E; auto; try discriminate.
    specialize (Hj j eq_refl (lookup_lt_Some _ _ _ E)). lia.
  - destruct inj as [j|]; simpl; auto.
    destruct (injectors w !! j) as [[r|]|] eqn:E; auto; try discriminate.
    pose proof (getObjByKeyId_finishes j (id key) w Hw) as Hfin.
    pose proof (getObjByKeyId_framed rec rec_framed j (id key) w) as Hpost.
    destruct (getObjByKeyId rec j (id key) w) as [v w1|e w1|]; try congruence.
    destruct (negb _); [discriminate|]. simpl in Hpost.
    destruct (injectors w1 !! j) as [[r1|]|] eqn:E1; try discriminate.
    pose proof (at_most_frames _ _ Hw Hpost) as Hw1.
    apply IH; auto. intros p Hp _.
    pose proof (proj1 Hw1 j r1 p E1 Hp).
    specialize (Hj j eq_refl (lookup_lt_Some _ _ _ E)). lia.
Qed.

Lemma getByKey_body_finishes n this key vis nf w :
  at_most w -> L <= n ->
  getByKey_body rec n this key vis nf w <> Diverge.
Proof.
  intros Hw Hn. unfold getByKey_body.
  destruct (key_eqb key INJECTOR_KEY); [discriminate|].
  assert (Hwalk : forall inj, walk rec n this key nf inj w <> Diverge).
  { intros inj. apply walk_finishes; auto.
    intros j _ Hj. destruct Hw as (_ & Hl & _). lia. }
  destruct vis as [[|]|]; unfold getByKeyDefault; auto.
  - unfold getByKeySelf, bind.
    pose proof (getObjByKeyId_finishes this (id key) w Hw) as H.
    destruct (getObjByKeyId rec this (id key) w) as [v w1|e w1|]; try congruence.
    destruct (negb _); [discriminate|].
    unfold throwOrNull. destruct (negb _); discriminate.
  - destruct (injectors w !! this) as [[r|]|]; auto; discriminate.
Qed.

End MethodsTerminate.

(** Every lookup finishes: the fuel it needs is bounded by the
    constructions the guards still let through and the number of injectors. *)
Lemma getByKey_finishes fuel : forall this key vis nf w,
  wf_world w -> remaining w + length (injectors w) < fuel ->
  getByKey fuel this key vis nf w <> Diverge.
Proof.
  induction fuel as [|fuel IH]; intros this key vis nf w Hw Hf; [lia|].
  simpl.
  apply (getByKey_body_finishes (getByKey fuel) (length (injectors w)) (remaining w)).
  - intros; apply getByKey_framed.
  - intros this' key' vis' nf' w' (Hw' & Hl & Hm). apply IH; auto. lia.
  - repeat split; auto.
  - lia.
Qed.

(** ** Cyclic dependencies *)

(** The dependency [d], resolved in the injector [r], leads to a slot of
    the set [S]. *)
Definition depends_into (r : ReflectiveInjector_) (S : nat -> Prop)
    (d : ReflectiveDependency) : Prop :=
  key_eqb (dep_key d) INJECTOR_KEY = false /\
  visibility d <> Some SkipSelf /\
  exists j, find_keyId (keyIds r) (id (dep_key d)) 0 = Some j /\ S j.

(** [S] is a set of unconstructed slots whose providers depend, with the
    first dependency they resolve, on a slot of [S] again: A on A, or A on
    B and B on A. *)
Definition first_cycle (r : ReflectiveInjector_) (S : nat -> Prop) : Prop :=
  forall i, S i ->
    read_slot (objs r) i = UNDEFINED /\
    exists p rf rest d drest,
      providers r !! i = Some p /\ resolvedFactories p = rf :: rest /\
      dependencies rf = d :: drest /\ depends_into r S d.

Lemma instantiateProvider_first_dep_throws rec this p rf rest d drest w :
  resolvedFactories p = rf :: rest -> dependencies rf = d :: drest ->
  (forall wx, injectors wx = injectors w ->
     exists ks js w', getByReflectiveDependency rec this d wx
                      = Thr (CyclicDependencyError ks js) w') ->
  exists ks js w',
    instantiateProvider rec this p w = Thr (CyclicDependencyError ks js) w'.
Proof.
  intros Hrf Hd H.
  assert (Hinst : forall wx, injectors wx = injectors w ->
            exists ks js w', instantiate rec this p rf wx
                             = Thr (CyclicDependencyError ks js) w').
  { intros wx Hwx. destruct (H wx Hwx) as (ks & js & w' & E).
    exists (ks ++ [key p]), (js ++ [this]), w'.
    unfold instantiate. rewrite Hd. simpl. unfold bind. rewrite E. reflexivity. }
  unfold instantiateProvider. rewrite Hrf. destruct (multiProvider p).
  - destruct (Hinst (set_heap_next w (S (heap_next w))) eq_refl) as (ks & js & w' & E).
    exists ks, js, w'. simpl. unfold bind. rewrite E. reflexivity.
  - simpl. apply Hinst. reflexivity.
Qed.

Lemma first_cycle_throws this S : forall m w r,
  injectors w !! this = Some (Reflective r) -> first_cycle r S ->
  Datatypes.S (length (objs r)) - constructionCounter r <= m ->
  forall fuel k vis nf i, m + 1 < fuel ->
    key_eqb k INJECTOR_KEY = false -> vis <> Some SkipSelf ->
    find_keyId (keyIds r) (id k) 0 = Some i -> S i ->
    exists ks js w',
      getByKey fuel this k vis nf w = Thr (CyclicDependencyError ks js) w'.
Proof.
  induction m as [|m IH]; intros w r Hr Hcyc Hm fuel k vis nf i Hfuel Hk Hvis Hf Hi.
  - (* the guard fails at once *)
    destruct fuel as [|[|fuel]]; try lia.
    destruct (Hcyc i Hi) as (Hslot & p & rf & rest & d & drest & Hp & _).
    assert (Hg : getObjByKeyId (getByKey (Datatypes.S fuel)) this (id k) w
                 = Thr (cyclicDependencyError this (key p)) (incr_counter w this r)).
    { rewrite (getObjByKeyId_construct _ _ _ _ _ _ Hr Hf) by (rewrite Hslot; reflexivity).
      rewrite Hp, (new_guard_fails _ _ _ _ _ Hr) by lia. reflexivity. }
    exists [key p], [this], (incr_counter w this r).
    destruct vis as [[|]|]; try congruence.
    + rewrite getByKey_Self_unfold by auto. unfold getByKeySelf, bind.
      rewrite Hg. reflexivity.
    + rewrite getByKey_default_unfold, (walk_first _ _ _ _ _ _ _ _ Hr), Hg by auto.
      reflexivity.
  - destruct fuel as [|[|fuel]]; try lia.
    destruct (Hcyc i Hi) as (Hslot & p & rf & rest & d & drest & Hp & Hrf & Hd & Hdep).
    assert (Hg : exists ks js w',
               getObjByKeyId (getByKey (Datatypes.S fuel)) this (id k) w
               = Thr (CyclicDependencyError ks js) w').
    { rewrite (getObjByKeyId_construct _ _ _ _ _ _ Hr Hf) by (rewrite Hslot; reflexivity).
      rewrite Hp.
      destruct (le_lt_dec (constructionCounter r) (length (objs r))) as [Hle|Hgt].
      - rewrite (new_guard_passes _ _ _ _ _ Hr Hle).
        destruct (instantiateProvider_first_dep_throws
                    (getByKey (Datatypes.S fuel)) this p rf rest d drest
                    (incr_counter w this r) Hrf Hd) as (ks & js & w' & E).
        + intros wx Hwx. destruct Hdep as (Hdk & Hdv & j & Hj & HSj).
          unfold getByReflectiveDependency.
          apply (IH wx (set_counter r (Datatypes.S (constructionCounter r))))
            with (i := j); auto; try lia.
          * rewrite Hwx. simpl. apply list_lookup_insert_eq.
            eapply lookup_lt_Some; eauto.
          * simpl. lia.
        + exists ks, js, w'. rewrite E. reflexivity.
      - rewrite (new_guard_fails _ _ _ _ _ Hr Hgt).
        exists [key p], [this], (incr_counter w this r). reflexivity. }
    destruct Hg as (ks & js & w' & Hg). exists ks, js, w'.
    destruct vis as [[|]|]; try congruence.
    + rewrite getByKey_Self_unfold by auto. unfold getByKeySelf, bind.
      rewrite Hg. reflexivity.
    + rewrite getByKey_default_unfold, (walk_first _ _ _ _ _ _ _ _ Hr), Hg by auto.
      reflexivity.
Qed.

(** The factories that [instantiateProvider] runs. *)
Definition factories_used (p : ResolvedReflectiveProvider)
    : list ResolvedReflectiveFactory :=
  if multiProvider p then resolvedFactories p else take 1 (resolvedFactories p).

(** [S] is a set of unconstructed slots whose providers depend, with some
    dependency, on a slot of [S] again. *)
Definition cycle (r : ReflectiveInjector_) (S : nat -> bool) : Prop :=
  forall i, S i = true ->
    read_slot (objs r) i = UNDEFINED /\
    exists p rf d,
      providers r !! i = Some p /\ rf ∈ factories_used p /\
      d ∈ dependencies rf /\ depends_into r (fun j => S j = true) d.

(** The static part of a cycle: every slot of [S] holds a provider with a
    dependency into [S]. *)
Definition linked (r : ReflectiveInjector_) (S : nat -> bool) : Prop :=
  forall i, S i = true ->
    exists p rf d,
      providers r !! i = Some p /\ rf ∈ factories_used p /\
      d ∈ dependencies rf /\ depends_into r (fun j => S j = true) d.

Lemma cycle_linked r S : cycle r S -> linked r S.
Proof. intros H i Hi. apply (H i Hi). Qed.

Section MethodsCycle.

Variables (this : nat) (r : ReflectiveInjector_) (S : nat -> bool).
Hypothesis Hlinked : linked r S.

(** The slots of [S] are still unconstructed. *)
Definition pending (w : World) : Prop :=
  exists r', injectors w !! this = Some (Reflective r') /\
    keyIds r' = keyIds r /\ providers r' = providers r /\
    forall i, S i = true -> read_slot (objs r') i = UNDEFINED.

(** The lookup is one of a slot of [S] in this injector. *)
Definition targets (x : nat) (kid : nat) : Prop :=
  x = this /\ exists j, find_keyId (keyIds r) kid 0 = Some j /\ S j = true.

(** [blocked bad o]: the slots of [S] stay unconstructed, and the
    computation does not return when [bad] holds. *)
Definition blocked {A} (bad : Prop) (o : outcome A) : Prop :=
  match o with
  | Ret _ w1 => pending w1 /\ ~ bad
  | Thr _ w1 => pending w1
  | Diverge => True
  end.

Lemma blocked_weaken {A} (bad bad' : Prop) (o : outcome A) :
  (bad' -> bad) -> blocked bad o -> blocked bad' o.
Proof. intros H. destruct o; simpl; tauto. Qed.

Lemma pending_heap w n : pending w -> pending (set_heap_next w n).
Proof. intros H. exact H. Qed.

Lemma pending_set_injector w x rx rx' :
  pending w -> injectors w !! x = Some (Reflective rx) ->
  keyIds rx' = keyIds rx -> providers rx' = providers rx ->
  (x = this -> forall i, S i = true -> objs rx' !! i = objs rx !! i) ->
  pending (set_injector w x rx').
Proof.
  intros (r' & E & Hk & Hp & Hs) Hx Hk' Hp' Ho.
  unfold pending. simpl.
  destruct (decide (x = this)) as [->|Hne].
  - rewrite E in Hx. injection Hx as <-.
    exists rx'. rewrite list_lookup_insert_eq by (eapply lookup_lt_Some; eauto).
    repeat split; try congruence.
    intros i Hi. unfold read_slot. rewrite (Ho eq_refl i Hi). apply Hs; auto.
  - exists r'. rewrite list_lookup_insert_ne by auto. auto.
Qed.

Lemma mapM_blocked {A B} (f : A -> M B) :
  (forall x w, pending w -> blocked False (f x w)) ->
  forall l w, pending w -> blocked False (mapM f l w).
Proof.
  intros Hf. induction l as [|x l IH]; intros w Hw; simpl; [split; auto|].
  unfold bind. specialize (Hf x w Hw).
  destruct (f x w) as [y w1|e w1|]; simpl in *; auto.
  specialize (IH w1 (proj1 Hf)).
  destruct (mapM f l w1); simpl in *; auto.
Qed.

Lemma mapM_never_returns {A B} (f : A -> M B) x0 :
  (forall x w, pending w -> blocked False (f x w)) ->
  (forall w, pending w -> blocked True (f x0 w)) ->
  forall l w, x0 ∈ l -> pending w -> blocked True (mapM f l w).
Proof.
  intros Hf Hx0. induction l as [|x l IH]; intros w Hin Hw; [inversion Hin|].
  simpl. unfold bind. apply elem_of_cons in Hin as [<-|Hin].
  - specialize (Hx0 w Hw). destruct (f x0 w); simpl in *; tauto.
  - specialize (Hf x w Hw).
    destruct (f x w) as [y w1|e w1|]; simpl in *; auto.
    specialize (IH w1 Hin (proj1 Hf)).
    destruct (mapM f l w1); simpl in *; tauto.
Qed.

Variable rec : nat -> ReflectiveKey -> option Visibility -> value -> M value.
Hypothesis rec_blocked : forall x key vis nf w, pending w ->
  blocked (key_eqb key INJECTOR_KEY = false /\ vis <> Some SkipSelf /\
           targets x (id key))
    (rec x key vis nf w).

Lemma dependency_blocked x d w :
  pending w -> blocked False (getByReflectiveDependency rec x d w).
Proof.
  intros Hw. eapply blocked_weaken; [|apply rec_blocked; auto]. tauto.
Qed.

Lemma dependency_never_returns d w :
  depends_into r (fun j => S j = true) d -> pending w ->
  blocked True (getByReflectiveDependency rec this d w).
Proof.
  intros (Hk & Hv & j & Hj & HS) Hw.
  pose proof (rec_blocked this (dep_key d) (visibility d)
                (if optional d then VNull else THROW_IF_NOT_FOUND) w Hw) as H.
  unfold getByReflectiveDependency.
  destruct (rec this (dep_key d) (visibility d) _ w); simpl in *; auto.
  exfalso. apply (proj2 H). repeat split; eauto.
Qed.

Lemma injector_get_blocked inj t nf w :
  pending w -> blocked False (injector_get rec inj t nf w).
Proof.
  intros Hw. unfold injector_get.
  destruct (injectors w !! inj) as [[rx|]|]; simpl; auto.
  - destruct (ReflectiveKey_get _ _) as [[k|e] g]; [|exact Hw].
    eapply blocked_weaken; [|apply rec_blocked; exact Hw]. tauto.
  - unfold NullInjector_get. destruct (strict_eq _ _); simpl; auto.
Qed.

(** Whatever lookups a factory makes, the slots of [S] stay unconstructed. *)
Lemma run_factory_blocked x p fr : forall w,
  pending w -> blocked False (run_factory rec x p fr w).
Proof.
  induction fr as [v n|e|v|n inj t nf k IH]; intros w Hw; simpl; auto.
  - destruct (nullish v); exact Hw.
  - pose proof (injector_get_blocked inj t nf (set_heap_next w n) Hw) as H.
    destruct (injector_get rec inj t nf (set_heap_next w n)) as [v w1|e w1|];
      simpl in *; auto; apply IH; tauto.
Qed.

Lemma instantiate_blocked x p rf w :
  pending w -> blocked False (instantiate rec x p rf w).
Proof.
  intros Hw. unfold instantiate.
  pose proof (mapM_blocked (getByReflectiveDependency rec x)
                (dependency_blocked x) (dependencies rf) w Hw) as H.
  destruct (mapM _ _ w) as [deps w1|e w1|]; simpl in *; auto.
  apply run_factory_blocked. tauto.
Qed.

Lemma instantiate_never_returns p rf d w :
  d ∈ dependencies rf -> depends_into r (fun j => S j = true) d ->
  pending w -> blocked True (instantiate rec this p rf w).
Proof.
  intros Hin Hd Hw. unfold instantiate.
  pose proof (mapM_never_returns (getByReflectiveDependency rec this) d
                (dependency_blocked this)
                (fun w' => dependency_never_returns d w' Hd)
                (dependencies rf) w Hin Hw) as H.
  destruct (mapM _ _ w) as [deps w1|e w1|]; simpl in *; tauto.
Qed.

Lemma instantiateProvider_blocked x p w :
  pending w -> blocked False (instantiateProvider rec x p w).
Proof.
  intros Hw. unfold instantiateProvider. destruct (multiProvider p).
  - pose proof (mapM_blocked (instantiate rec x p) (instantiate_blocked x p)
                  (resolvedFactories p) _
                  (pending_heap w (Datatypes.S (heap_next w)) Hw)) as H.
    destruct (mapM _ _ _); simpl in *; tauto.
  - destruct (resolvedFactories p !! 0%nat); [apply instantiate_blocked; auto|].
    exact Hw.
Qed.

Lemma instantiateProvider_never_returns p rf d w :
  rf ∈ factories_used p -> d ∈ dependencies rf ->
  depends_into r (fun j => S j = true) d ->
  pending w -> blocked True (instantiateProvider rec this p w).
Proof.
  intros Hrf Hin Hd Hw. unfold instantiateProvider, factories_used in *.
  destruct (multiProvider p).
  - pose proof (mapM_never_returns (instantiate rec this p) rf
                  (instantiate_blocked this p)
                  (fun w' => instantiate_never_returns p rf d w' Hin Hd)
                  (resolvedFactories p) _ Hrf
                  (pending_heap w (Datatypes.S (heap_next w)) Hw)) as H.
    destruct (mapM _ _ _); simpl in *; tauto.
  - destruct (resolvedFactories p) as [|rf' rest]; [inversion Hrf|].
    simpl in Hrf. apply list_elem_of_singleton in Hrf. subst rf'. simpl.
    eapply instantiate_never_returns; eauto.
Qed.

Lemma pending_incr_counter w x rx :
  pending w -> injectors w !! x = Some (Reflective rx) ->
  pending (incr_counter w x rx).
Proof. intros Hw Hx. eapply pending_set_injector; eauto. Qed.

Lemma new_blocked x p w :
  pending w ->
  blocked (x = this /\ exists i, S i = true /\ p = providers r !! i)
    (new_ rec x p w).
Proof.
  intros Hw. unfold new_.
  destruct (injectors w !! x) as [[rx|]|] eqn:Ex; try exact Hw.
  pose proof (pending_incr_counter w x rx Hw Ex) as Hw1.
  destruct p as [p|]; [|exact Hw1].
  destruct (_ <? _)%nat; [exact Hw1|].
  fold (incr_counter w x rx).
  pose proof (instantiateProvider_blocked x p _ Hw1) as H.
  destruct (instantiateProvider rec x p (incr_counter w x rx)) as [v w1|e w1|] eqn:E;
    simpl in *; auto.
  split; [tauto|]. intros (-> & i & Hi & Hp).
  destruct (Hlinked i Hi) as (p' & rf & d & Hp' & Hrf & Hin & Hd).
  rewrite Hp' in Hp. injection Hp as ->.
  pose proof (instantiateProvider_never_returns p' rf d _ Hrf Hin Hd Hw1) as H'.
  rewrite E in H'. simpl in H'. tauto.
Qed.

Lemma getObjByKeyId_blocked x kid w :
  pending w -> blocked (targets x kid) (getObjByKeyId rec x kid w).
Proof.
  intros Hw. unfold getObjByKeyId.
  destruct (injectors w !! x) as [[rx|]|] eqn:Ex; try exact Hw.
  assert (Hsame : x = this ->
            keyIds rx = keyIds r /\ providers rx = providers r /\
            forall i, S i = true -> read_slot (objs rx) i = UNDEFINED).
  { intros ->. destruct Hw as (r' & E & ?). rewrite Ex in E. injection E as <-. auto. }
  destruct (find_keyId (keyIds rx) kid 0) as [i|] eqn:Ef.
  - destruct (strict_eq (read_slot (objs rx) i) UNDEFINED) eqn:Hs.
    + pose proof (new_blocked x (providers rx !! i) w Hw) as H.
      destruct (new_ rec x (providers rx !! i) w) as [v w1|e w1|]; simpl in *; auto.
      destruct H as (Hw1 & Hnot).
      assert (HSi : x = this -> S i = false).
      { intros ->. destruct (S i) eqn:HSi; auto. exfalso. apply Hnot.
        split; [auto|]. exists i. destruct (Hsame eq_refl) as (_ & -> & _). auto. }
      destruct (injectors w1 !! x) as [[r1|]|] eqn:E1; simpl; auto.
      split.
      * eapply pending_set_injector; eauto. simpl.
        intros -> i' Hi'. apply list_lookup_insert_ne. intros ->.
        rewrite (HSi eq_refl) in Hi'. discriminate.
      * intros (-> & j & Hj & HSj).
        destruct (Hsame eq_refl) as (Hk & _). rewrite Hk in Ef.
        rewrite Ef in Hj. injection Hj as <-.
        rewrite (HSi eq_refl) in HSj. discriminate.
    + simpl. split; [auto|]. intros (-> & j & Hj & HSj).
      destruct (Hsame eq_refl) as (Hk & _ & Hu). rewrite Hk in Ef.
      rewrite Ef in Hj. injection Hj as <-.
      rewrite (Hu i HSj) in Hs. discriminate.
  - simpl. split; [auto|]. intros (-> & j & Hj & _).
    destruct (Hsame eq_refl) as (Hk & _). congruence.
Qed.

Lemma throwOrNull_pending {bad : Prop} x key nf w :
  pending w -> ~ bad -> blocked bad (throwOrNull x key nf w).
Proof. intros Hw Hb. unfold throwOrNull. destruct (negb _); simpl; auto. Qed.

Lemma walk_blocked n x key nf : forall inj w,
  pending w ->
  blocked (exists j, inj = Some j /\ targets j (id key))
    (walk rec n x key nf inj w).
Proof.
  induction n as [|n IH]; intros inj w Hw.
  - destruct inj as [j|]; simpl.
    + destruct (injectors w !! j) as [[rj|]|] eqn:Ej; simpl; auto.
      unfold NullInjector_get. destruct (strict_eq _ _); simpl; auto.
      split; [auto|]. intros (j' & [= <-] & -> & _).
      destruct Hw as (r' & E & _). congruence.
    + apply throwOrNull_pending; auto. intros (j & Hj & _). discriminate.
  - destruct inj as [j|]; simpl.
    + destruct (injectors w !! j) as [[rj|]|] eqn:Ej; simpl; auto.
      * pose proof (getObjByKeyId_blocked j (id key) w Hw) as H.
        destruct (getObjByKeyId rec j (id key) w) as [v w1|e w1|]; simpl in *; auto.
        destruct H as (Hw1 & Hnot).
        assert (Hbad : ~ (exists j', Some j = Some j' /\ targets j' (id key)))
          by (intros (j' & [= <-] & Ht); auto).
        destruct (negb _); simpl; [auto|].
        destruct (injectors w1 !! j) as [[r1|]|]; simpl; auto.
        specialize (IH (parent r1) w1 Hw1).
        destruct (walk rec n x key nf (parent r1) w1); simpl in *; tauto.
      * unfold NullInjector_get. destruct (strict_eq _ _); simpl; auto.
        split; [auto|]. intros (j' & [= <-] & -> & _).
        destruct Hw as (r' & E & _). congruence.
    + apply throwOrNull_pending; auto. intros (j & Hj & _). discriminate.
Qed.

Lemma getByKey_body_blocked n x key vis nf w :
  pending w ->
  blocked (key_eqb key INJECTOR_KEY = false /\ vis <> Some SkipSelf /\
           targets x (id key))
    (getByKey_body rec n x key vis nf w).
Proof.
  intros Hw. unfold getByKey_body.
  destruct (key_eqb key INJECTOR_KEY) eqn:Hk.
  - simpl. split; [auto|]. intros (? & _). discriminate.
  - destruct vis as [[|]|].
    + unfold getByKeySelf, bind.
      pose proof (getObjByKeyId_blocked x (id key) w Hw) as H.
      destruct (getObjByKeyId rec x (id key) w) as [v w1|e w1|]; simpl in *; auto.
      destruct (negb _); simpl; [tauto|].
      apply throwOrNull_pending; tauto.
    + unfold getByKeyDefault.
      destruct (injectors w !! x) as [[rx|]|]; simpl; auto.
      eapply blocked_weaken; [|apply walk_blocked; auto].
      intros (_ & Hv & _). congruence.
    + eapply blocked_weaken; [|apply (walk_blocked n x key nf (Some x)); auto].
      intros (_ & _ & Ht). eauto.
Qed.

End MethodsCycle.

(** While the slots of a cycle are unconstructed, no lookup constructs one
    of them, and a lookup of one of them does not return. *)
Lemma getByKey_blocked this r S (Hlinked : linked r S) fuel :
  forall x key vis nf w, pending this r S w ->
    blocked this r S
      (key_eqb key INJECTOR_KEY = false /\ vis <> Some SkipSelf /\
       targets this r S x (id key))
      (getByKey fuel x key vis nf w).
Proof.
  induction fuel as [|fuel IH]; intros; simpl; [exact I|].
  apply getByKey_body_blocked; auto.
Qed.

(** ** The first binding up the parent chain *)

(** [binds js kid inj d b rb i]: walking up from [inj], the first injector
    that binds the key id [kid] is [b], [d] injectors further up; [rb] is
    its record and [i] the slot. *)
Inductive binds (js : list Injector) (kid : nat)
    : option nat -> nat -> nat -> ReflectiveInjector_ -> nat -> Prop :=
  | binds_here b rb i :
      js !! b = Some (Reflective rb) ->
      find_keyId (keyIds rb) kid 0 = Some i ->
      binds js kid (Some b) 0 b rb i
  | binds_parent j r d b rb i :
      js !! j = Some (Reflective r) ->
      find_keyId (keyIds r) kid 0 = None ->
      binds js kid (parent r) d b rb i ->
      binds js kid (Some j) (S d) b rb i.

Lemma binds_lookup js kid inj d b rb i :
  binds js kid inj d b rb i ->
  js !! b = Some (Reflective rb) /\ find_keyId (keyIds rb) kid 0 = Some i.
Proof. induction 1; auto. Qed.

(** The walk passes the injectors that do not bind the key. *)
Lemma walk_binds rec this key nf w inj d b rb i :
  binds (injectors w) (id key) inj d b rb i ->
  forall n, walk rec (d + n) this key nf inj w = walk rec n this key nf (Some b) w.
Proof.
  induction 1 as [|j r d b rb i Hj Hf _ IH]; intros n; [reflexivity|].
  simpl. rewrite Hj, (getObjByKeyId_unbound rec j r (id key) w Hj Hf). simpl.
  rewrite Hj. apply IH.
Qed.

(** A walk that finishes gives what the lookup in the binding injector
    gives. *)
Lemma walk_binds_result rec this key nf w inj d b rb i :
  binds (injectors w) (id key) inj d b rb i ->
  (forall p, providers rb !! i = Some p -> no_sentinel p) ->
  forall n, walk rec n this key nf inj w = Diverge \/
            walk rec n this key nf inj w = getObjByKeyId rec b (id key) w.
Proof.
  induction 1 as [b rb i Hb Hf|j r d b rb i Hj Hf _ IH]; intros Hns n.
  - destruct n as [|n]; simpl; rewrite Hb; [left; reflexivity|right].
    destruct (getObjByKeyId rec b (id key) w) as [v w1|e w1|] eqn:Hg; auto.
    destruct (getObjByKeyId_bound _ _ _ _ _ _ _ _ Hb Hf Hns Hg) as (Hv & _).
    rewrite (proj2 (strict_eq_UNDEFINED v) Hv). reflexivity.
  - destruct n as [|n]; simpl; rewrite Hj; [left; reflexivity|].
    rewrite (getObjByKeyId_unbound rec j r (id key) w Hj Hf). simpl.
    rewrite Hj. apply IH. exact Hns.
Qed.

Lemma binds_frames w w1 kid inj d b rb i :
  frames w w1 -> binds (injectors w) kid inj d b rb i ->
  exists rb1, binds (injectors w1) kid inj d b rb1 i /\ frame_inj rb rb1.
Proof.
  intros Hfr. induction 1 as [b rb i Hb Hf|j r d b rb i Hj Hf _ (rb1 & IH & Fr)].
  - destruct (frames_lookup _ _ _ _ Hfr Hb) as (rb1 & E1 & Fr).
    exists rb1. split; [|exact Fr]. constructor; [exact E1|].
    destruct Fr. congruence.
  - destruct (frames_lookup _ _ _ _ Hfr Hj) as (r1 & E1 & Fr1).
    exists rb1. split; [|exact Fr].
    apply (binds_parent _ _ j r1); [exact E1|destruct Fr1; congruence|].
    destruct Fr1. congruence.
Qed.

(** ** The error of a cyclic dependency *)

Definition is_cyclic (e : error) : Prop :=
  exists ks js, e = CyclicDependencyError ks js.

(** A factory that returns an instance whatever its lookups give. *)
Fixpoint always_returns (fr : factory_result) : Prop :=
  match fr with
  | FReturn v _ => v <> UNDEFINED
  | FThrow _ | FThrowValue _ => False
  | FGet _ _ _ _ k => forall r n, always_returns (k r n)
  end.

(** A lookup in the reflective injector [x] that cannot end in "no
    provider": the dependency is optional, or its key is bound where its
    visibility looks: in the container itself for [Self], up the chain
    from the parent on for [SkipSelf], up the chain from the container on
    otherwise. *)
Definition resolvable (w : World) (x : nat) (key : ReflectiveKey)
    (vis : option Visibility) (nf : value) : Prop :=
  exists rx, injectors w !! x = Some (Reflective rx) /\
    (nf = VNull \/
     match vis with
     | Some Self => find_keyId (keyIds rx) (id key) 0 <> None
     | Some SkipSelf =>
         exists d b rb i, binds (injectors w) (id key) (parent rx) d b rb i
     | None =>
         exists d b rb i, binds (injectors w) (id key) (Some x) d b rb i
     end).

(** Every slot has a provider, every provider a factory, no factory
    throws, and every dependency is resolvable. *)
Definition closed_injector (w : World) (x : nat) (r : ReflectiveInjector_) : Prop :=
  length (providers r) = length (keyIds r) /\
  forall p, p ∈ providers r ->
    (multiProvider p = false -> resolvedFactories p <> []) /\
    forall rf, rf ∈ resolvedFactories p ->
      (forall args n, always_returns (factory rf args n)) /\
      forall d, d ∈ dependencies rf ->
        resolvable w x (dep_key d) (visibility d)
          (if optional d then VNull else THROW_IF_NOT_FOUND).

Definition closed (w : World) : Prop :=
  wf_world w /\
  forall x r, injectors w !! x = Some (Reflective r) -> closed_injector w x r.

(** [fine P o]: the computation returned a value of [P], or failed with a
    CyclicDependencyError, or has not finished. *)
Definition fine {A} (P : A -> Prop) (o : outcome A) : Prop :=
  match o with
  | Ret v _ => P v
  | Thr e _ => is_cyclic e
  | Diverge => True
  end.

Lemma addKey_cyclic e x k : is_cyclic e -> is_cyclic (addKey e x k).
Proof. intros (ks & js & ->). simpl. eexists _, _. reflexivity. Qed.

Lemma fine_weaken {A} (P Q : A -> Prop) (o : outcome A) :
  (forall v, P v -> Q v) -> fine P o -> fine Q o.
Proof. intros H. destruct o; simpl; auto. Qed.

Lemma resolvable_frames w w1 x key vis nf :
  frames w w1 -> resolvable w x key vis nf -> resolvable w1 x key vis nf.
Proof.
  intros Hfr (rx & Ex & H).
  destruct (frames_lookup _ _ _ _ Hfr Ex) as (r1 & E1 & [Fp Fpar Fk Fl Fc Fs]).
  exists r1. split; [exact E1|].
  destruct H as [->|H]; [left; reflexivity|right].
  destruct vis as [[|]|].
  - congruence.
  - destruct H as (d & b & rb & i & H). rewrite Fpar.
    destruct (binds_frames _ _ _ _ _ _ _ _ Hfr H) as (rb1 & H1 & _). eauto.
  - destruct H as (d & b & rb & i & H).
    destruct (binds_frames _ _ _ _ _ _ _ _ Hfr H) as (rb1 & H1 & _). eauto.
Qed.

Lemma closed_frames w w1 : closed w -> frames w w1 -> closed w1.
Proof.
  intros (Hwf & Hc) Hfr. split; [eapply frames_wf; eauto|].
  intros x r1 E1. pose proof Hfr as (_ & _ & F). specialize (F x).
  destruct (injectors w !! x) as [[r|]|] eqn:E; try congruence.
  destruct F as (r1' & E1' & [Fp Fpar Fk Fl Fc Fs]).
  rewrite E1 in E1'. injection E1' as <-.
  destruct (Hc x r E) as (Hl & Hp).
  split; [congruence|]. rewrite Fp. intros p Hin.
  destruct (Hp p Hin) as (Hne & Hrf). split; [exact Hne|].
  intros rf Hrfin. destruct (Hrf rf Hrfin) as (Hret & Hd). split; [exact Hret|].
  intros d Hdin. eapply resolvable_frames; eauto.
Qed.

Lemma find_keyId_lt l k i : find_keyId l k 0 = Some i -> i < length l.
Proof.
  intros H. destruct (find_keyId_Some _ _ _ _ H) as (_ & Hl & _).
  rewrite Nat.sub_0_r in Hl. eapply lookup_lt_Some; eauto.
Qed.

(** A list of computations that keep [Inv] and are fine one by one. *)
Lemma mapM_fine {A B} (f : A -> M B) (Inv : World -> Prop) (P : B -> Prop) :
  (forall x w, Inv w -> match f x w with Ret _ w1 => Inv w1 | _ => True end) ->
  forall l, (forall x w, x ∈ l -> Inv w -> fine P (f x w)) ->
  forall w, Inv w -> fine (fun _ => True) (mapM f l w).
Proof.
  intros HI. induction l as [|x l IH]; intros Hf w Hw; simpl; [exact I|].
  unfold bind. specialize (HI x w Hw).
  specialize (Hf x w (list_elem_of_here _ _) Hw) as H1.
  destruct (f x w) as [y w1|e w1|]; simpl in *; auto.
  specialize (IH (fun x' w' Hx => Hf x' w' (list_elem_of_further _ _ _ Hx)) w1 HI).
  destruct (mapM f l w1); simpl in *; auto.
Qed.

Section MethodsClosed.

Variable rec : nat -> ReflectiveKey -> option Visibility -> value -> M value.
Hypothesis rec_framed : forall this key vis nf w, framed w (rec this key vis nf w).
Hypothesis rec_fine : forall x key vis nf w,
  closed w -> resolvable w x key vis nf ->
  fine (fun _ => True) (rec x key vis nf w).

(** The store is closed and holds the injector [x] with the key ids [kids]
    and the providers [ps]. *)
Definition closed_at (x : nat) (kids : list nat)
    (ps : list ResolvedReflectiveProvider) (w : World) : Prop :=
  closed w /\
  exists rx, injectors w !! x = Some (Reflective rx) /\
             keyIds rx = kids /\ providers rx = ps.

Lemma closed_at_frames x kids ps w w1 :
  closed_at x kids ps w -> frames w w1 -> closed_at x kids ps w1.
Proof.
  intros (Hc & rx & Ex & Hk & Hp) Hfr. split; [eapply closed_frames; eauto|].
  destruct (frames_lookup _ _ _ _ Hfr Ex) as (r1 & E1 & [Fp Fpar Fk Fl Fc Fs]).
  exists r1. repeat split; congruence.
Qed.

Lemma closed_at_framed {A} x kids ps w (o : outcome A) :
  closed_at x kids ps w -> framed w o ->
  match o with Ret _ w1 => closed_at x kids ps w1 | _ => True end.
Proof. destruct o; simpl; eauto using closed_at_frames. Qed.

Lemma run_factory_fine x p fr : forall w,
  always_returns fr -> fine (fun v => v <> UNDEFINED) (run_factory rec x p fr w).
Proof.
  induction fr as [v n|e|v|n inj t nf k IH]; intros w H; simpl in *;
    try contradiction.
  - exact H.
  - destruct (injector_get rec inj t nf (set_heap_next w n)); simpl; auto.
Qed.

Lemma instantiate_fine x kids ps p rf w :
  closed_at x kids ps w -> p ∈ ps -> rf ∈ resolvedFactories p ->
  fine (fun v => v <> UNDEFINED) (instantiate rec x p rf w).
Proof.
  intros Hw Hp Hrf. unfold instantiate.
  assert (Hret : forall args n, always_returns (factory rf args n)).
  { destruct Hw as ((_ & Hc) & rx & Ex & _ & <-).
    destruct (Hc x rx Ex) as (_ & Hps).
    destruct (Hps p Hp) as (_ & Hrfs). apply (Hrfs rf Hrf). }
  assert (Hdeps : forall d w', d ∈ dependencies rf -> closed_at x kids ps w' ->
            fine (fun _ => True) (getByReflectiveDependency rec x d w')).
  { intros d w' Hd ((Hwf & Hc) & rx & Ex & _ & <-).
    apply rec_fine; [split; auto|].
    destruct (Hc x rx Ex) as (_ & Hps).
    destruct (Hps p Hp) as (_ & Hrfs). apply (Hrfs rf Hrf). exact Hd. }
  pose proof (mapM_fine (getByReflectiveDependency rec x) (closed_at x kids ps)
                (fun _ => True)
                (fun d w' H' => closed_at_framed x kids ps w' _ H'
                                  (rec_framed _ _ _ _ w'))
                (dependencies rf) Hdeps w Hw) as H.
  destruct (mapM _ _ w) as [deps w1|e w1|]; simpl in *; auto.
  - apply run_factory_fine. apply Hret.
  - apply addKey_cyclic. exact H.
Qed.

Lemma instantiateProvider_fine x kids ps p w :
  closed_at x kids ps w -> p ∈ ps ->
  fine (fun v => v <> UNDEFINED) (instantiateProvider rec x p w).
Proof.
  intros Hw Hp. unfold instantiateProvider.
  destruct (multiProvider p) eqn:Hm.
  - assert (Hw' : closed_at x kids ps (set_heap_next w (S (heap_next w))))
      by (eapply closed_at_frames; [exact Hw|apply frames_heap]).
    pose proof (mapM_fine (instantiate rec x p) (closed_at x kids ps)
                  (fun v => v <> UNDEFINED)
                  (fun rf w' H' => closed_at_framed x kids ps w' _ H'
                                     (instantiate_framed rec rec_framed x p rf w'))
                  (resolvedFactories p)
                  (fun rf w' Hrf Hw0 => instantiate_fine x kids ps p rf w' Hw0 Hp Hrf)
                  (set_heap_next w (S (heap_next w))) Hw') as H.
    destruct (mapM _ _ _) as [res w1|e w1|]; simpl in *; auto; discriminate.
  - assert (Hne : resolvedFactories p <> []).
    { destruct Hw as ((_ & Hc) & rx & Ex & _ & <-).
      destruct (Hc x rx Ex) as (_ & Hps). apply (Hps p Hp). exact Hm. }
    destruct (resolvedFactories p) as [|rf rest] eqn:Hrf; [congruence|]. simpl.
    apply (instantiate_fine x kids ps); auto. rewrite Hrf. left.
Qed.

Lemma new_fine x kids ps i w :
  closed_at x kids ps w -> i < length kids ->
  fine (fun v => v <> UNDEFINED) (new_ rec x (ps !! i) w).
Proof.
  intros Hw Hi. pose proof Hw as ((Hwf & Hc) & rx & Ex & Hk & Hp).
  unfold new_. rewrite Ex.
  destruct (Hc x rx Ex) as (Hl & _).
  destruct (lookup_lt_is_Some_2 ps i) as (p & Hpi); [congruence|].
  rewrite Hpi.
  destruct (_ <? _)%nat; [eexists _, _; reflexivity|].
  apply (instantiateProvider_fine x kids ps).
  - eapply closed_at_frames; [exact Hw|]. apply (incr_counter_frames w x rx Ex).
  - eapply list_elem_of_lookup_2; eauto.
Qed.

Lemma getObjByKeyId_fine x kids ps kid w :
  closed_at x kids ps w ->
  fine (fun v => find_keyId kids kid 0 <> None -> v <> UNDEFINED)
    (getObjByKeyId rec x kid w).
Proof.
  intros Hw. pose proof Hw as (Hc & rx & Ex & Hk & Hp).
  unfold getObjByKeyId. rewrite Ex, Hk.
  destruct (find_keyId kids kid 0) as [i|] eqn:Ef; [|simpl; congruence].
  destruct (strict_eq (read_slot (objs rx) i) UNDEFINED) eqn:Hs.
  - pose proof (new_fine x kids ps i w Hw (find_keyId_lt _ _ _ Ef)) as H.
    pose proof (new_framed rec rec_framed x (ps !! i) w) as Hfr.
    rewrite Hp.
    destruct (new_ rec x (ps !! i) w) as [v w1|e w1|]; simpl in *; auto.
    destruct (frames_lookup _ _ _ _ Hfr Ex) as (r1 & E1 & _).
    rewrite E1. simpl. intros _. apply read_insert_no_sentinel. exact H.
  - simpl. intros _. apply strict_eq_UNDEFINED. exact Hs.
Qed.

(** The walk ends without an error when the dependency is optional, and
    finds the binding when there is one up the chain. *)
Lemma walk_fine n x key nf : forall inj w,
  closed w ->
  (forall j, inj = Some j -> j < length (injectors w)) ->
  nf = VNull \/
    (exists d b rb i, binds (injectors w) (id key) inj d b rb i) ->
  fine (fun _ => True) (walk rec n x key nf inj w).
Proof.
  induction n as [|n IH]; intros inj w Hc Hj Hres.
  - destruct inj as [j|]; simpl.
    + destruct (lookup_lt_is_Some_2 (injectors w) j (Hj j eq_refl)) as (o & Eo).
      rewrite Eo. destruct o as [rj|]; [exact I|].
      destruct Hres as [->|(d & b & rb & i & Hb)]; [exact I|].
      inversion Hb; congruence.
    + destruct Hres as [->|(d & b & rb & i & Hb)]; [exact I|inversion Hb].
  - destruct inj as [j|]; simpl.
    + destruct (lookup_lt_is_Some_2 (injectors w) j (Hj j eq_refl)) as (o & Eo).
      rewrite Eo. destruct o as [rj|].
      * assert (Hat : closed_at j (keyIds rj) (providers rj) w)
          by (split; [exact Hc|exists rj; auto]).
        pose proof (getObjByKeyId_fine j _ _ (id key) w Hat) as H.
        pose proof (getObjByKeyId_framed rec rec_framed j (id key) w) as Hfr.
        destruct (getObjByKeyId rec j (id key) w) as [v w1|e w1|]; simpl in *; auto.
        destruct (strict_eq v UNDEFINED) eqn:Hs; simpl; [|exact I].
        apply strict_eq_UNDEFINED_true in Hs. subst v.
        destruct (frames_lookup _ _ _ _ Hfr Eo) as (r1 & E1 & Fr).
        rewrite E1.
        pose proof (closed_frames _ _ Hc Hfr) as Hc1.
        apply IH; auto.
        -- intros p Hp. pose proof (proj1 Hc1 j r1 p E1 Hp).
           apply lookup_lt_Some in E1. lia.
        -- destruct Hres as [->|(d & b & rb & i & Hb)]; [left; reflexivity|right].
           inversion Hb as [b' rb' i' Eb Hf|j' r' d' b' rb' i' Ej Hf Hb']; subst.
           ++ exfalso. rewrite Eo in Eb. injection Eb as <-.
              apply H; [congruence|reflexivity].
           ++ rewrite Eo in Ej. injection Ej as <-.
              destruct (binds_frames _ _ _ _ _ _ _ _ Hfr Hb') as (rb1 & Hb1 & _).
              destruct Fr. replace (parent r1) with (parent rj) by congruence.
              eauto.
      * destruct Hres as [->|(d & b & rb & i & Hb)]; [exact I|].
        inversion Hb; congruence.
    + destruct Hres as [->|(d & b & rb & i & Hb)]; [exact I|inversion Hb].
Qed.

Lemma getByKey_body_fine n x key vis nf w :
  closed w -> resolvable w x key vis nf ->
  fine (fun _ => True) (getByKey_body rec n x key vis nf w).
Proof.
  intros Hc (rx & Ex & Hres). unfold getByKey_body.
  destruct (key_eqb key INJECTOR_KEY); [exact I|].
  assert (Hx : x < length (injectors w)) by (eapply lookup_lt_Some; eauto).
  destruct vis as [[|]|]; unfold getByKeyDefault.
  - unfold getByKeySelf, bind.
    assert (Hat : closed_at x (keyIds rx) (providers rx) w)
      by (split; [exact Hc|exists rx; auto]).
    pose proof (getObjByKeyId_fine x _ _ (id key) w Hat) as H.
    destruct (getObjByKeyId rec x (id key) w) as [v w1|e w1|]; simpl in *; auto.
    destruct (strict_eq v UNDEFINED) eqn:Hs; simpl; [|exact I].
    apply strict_eq_UNDEFINED_true in Hs. subst v.
    destruct Hres as [->|Hb]; [exact I|].
    exfalso. apply (H Hb). reflexivity.
  - rewrite Ex. apply walk_fine; auto.
    intros p Hp. pose proof (proj1 Hc x rx p Ex Hp). lia.
  - apply walk_fine; auto.
    intros j [= <-]. exact Hx.
Qed.

End MethodsClosed.

(** In a closed store a resolvable lookup fails only with a
    CyclicDependencyError. *)
Lemma getByKey_fine fuel : forall x key vis nf w,
  closed w -> resolvable w x key vis nf ->
  fine (fun _ => True) (getByKey fuel x key vis nf w).
Proof.
  induction fuel as [|fuel IH]; intros; simpl; [exact I|].
  eapply getByKey_body_fine; eauto using getByKey_framed.
Qed.

(** C4, as stated, has the guard fail once the incremented counter exceeds
    the number of slots, and has every cycle fail with
    CyclicDependencyError.  In a container of one slot whose counter is
    already 1, [new] raises the counter to 2 and constructs all the same;
    a provider that depends on itself is therefore entered three times in
    a container of one slot before the guard fails.  And a provider of A
    that depends on an unbound B and then on A itself is a cycle that
    fails with the NoProviderError of B. *)
Lemma C4_guard_compares_before_increment :
  let selfA := mkProvider keyA [mkFactory class_factory [dep keyA]] false in
  let w := mkWorld [Reflective (mkInjector 1 [provA] None [1] [UNDEFINED])]
             registry0 10 in
  new_ (getByKey 0) 0 (Some provA) w =
    Ret (VObj 10)
      (mkWorld [Reflective (mkInjector 2 [provA] None [1] [UNDEFINED])]
         registry0 11) /\
  (exists w1,
     get 5 0 tokA None (snd (fromResolvedProviders [selfA] None world0)) =
       Thr (CyclicDependencyError [keyA; keyA; keyA] [0; 0; 0]) w1) /\
  cycle (ReflectiveInjector__new [selfBA] None) (fun j => Nat.eqb j 0) /\
  (exists w1,
     get 5 0 tokA None (snd (fromResolvedProviders [selfBA] None world0)) =
       Thr (NoProviderError [keyB; keyA] [0; 0]) w1).
Proof.
  split; [reflexivity|]. split; [eexists; reflexivity|].
  split; [|eexists; reflexivity].
  intros i Hi. destruct i; [|discriminate]. split; [reflexivity|].
  exists selfBA, (mkFactory class_factory [dep keyB; dep keyA]), (dep keyA).
  split; [reflexivity|]. split; [left|].
  split; [right; left|].
  split; [reflexivity|]. split; [discriminate|].
  exists 0. split; reflexivity.
Qed.

Lemma get_finishes fuel this t arg w :
  wf_world w -> remaining w + length (injectors w) < fuel ->
  get fuel this t arg w <> Diverge.
Proof.
  intros Hw Hf. unfold get.
  destruct (ReflectiveKey_get _ _) as [[k|e] g]; [|discriminate].
  apply getByKey_finishes; auto.
Qed.

(** C4, amended. In a well-formed store every [get] finishes.  If a set of
    unconstructed providers of a container is closed under "depends on"
    (A on A; A on B and B on A), [get] on any of their tokens never
    returns: it fails.  It fails with CyclicDependencyError when the store
    is closed (every slot has a provider with a factory, no factory
    throws or returns the [UNDEFINED] object, and every dependency is
    optional or bound where its visibility looks for it), whatever
    lookups the factories make themselves; and it
    fails with CyclicDependencyError when the cyclic dependency is the
    first one each provider of the set resolves.  The guard of [new]
    increments the construction counter of the container before any other
    work, and fails exactly when the value the counter had before the
    increment exceeds the number of slots. *)
Theorem C4_cycles_fail (w : World) (this : nat) (r : ReflectiveInjector_)
    (S : nat -> bool) :
  wf_world w ->
  injectors w !! this = Some (Reflective r) ->
  (forall rec p,
     (length (objs r) < constructionCounter r ->
        new_ rec this (Some p) w =
          Thr (cyclicDependencyError this (key p)) (incr_counter w this r)) /\
     (constructionCounter r <= length (objs r) ->
        new_ rec this (Some p) w =
          instantiateProvider rec this p (incr_counter w this r))) /\
  (forall fuel t arg,
     remaining w + length (injectors w) < fuel ->
     get fuel this t arg w <> Diverge) /\
  (forall fuel t arg k g i,
     ReflectiveKey_get (globalKeyRegistry w) t = (Ok k, g) ->
     key_eqb k INJECTOR_KEY = false ->
     find_keyId (keyIds r) (id k) 0 = Some i -> S i = true ->
     (cycle r S ->
        (forall v w1, get fuel this t arg w <> Ret v w1) /\
        (remaining w + length (injectors w) < fuel ->
           exists e w1, get fuel this t arg w = Thr e w1) /\
        (closed w -> remaining w + length (injectors w) < fuel ->
           exists ks js w1,
             get fuel this t arg w = Thr (CyclicDependencyError ks js) w1)) /\
     (first_cycle r (fun j => S j = true) ->
        Datatypes.S (length (objs r)) - constructionCounter r + 1 < fuel ->
        exists ks js w1,
          get fuel this t arg w = Thr (CyclicDependencyError ks js) w1)).
Proof.
  intros Hw Hr. split; [|split].
  - intros rec p. split; intros H.
    + apply new_guard_fails; auto.
    + apply new_guard_passes; auto.
  - intros fuel t arg. apply get_finishes; auto.
  - intros fuel t arg k g i Hk Hinj Hf HS. split.
    + intros Hcyc.
      assert (Hnoret : forall v w1, get fuel this t arg w <> Ret v w1).
      { intros v w1 H. rewrite (get_unfold _ _ _ _ _ _ _ Hk) in H.
        assert (Hpend : pending this r S (set_registry w g)).
        { exists r. repeat split; auto. intros j Hj. apply (Hcyc j Hj). }
        pose proof (getByKey_blocked this r S (cycle_linked _ _ Hcyc) fuel this k None
                      (default_param arg THROW_IF_NOT_FOUND) _ Hpend) as Hb.
        rewrite H in Hb. simpl in Hb. apply (proj2 Hb).
        split; [auto|split; [discriminate|split; [reflexivity|eauto]]]. }
      split; [exact Hnoret|]. split.
      * intros Hfuel.
        pose proof (get_finishes fuel this t arg w Hw Hfuel) as Hfin.
        destruct (get fuel this t arg w) as [v w1|e w1|] eqn:E.
        -- exfalso. eapply Hnoret; eauto.
        -- eauto.
        -- congruence.
      * intros Hclosed Hfuel.
        pose proof (get_finishes fuel this t arg w Hw Hfuel) as Hfin.
        assert (Hfine : fine (fun _ => True) (get fuel this t arg w)).
        { rewrite (get_unfold _ _ _ _ _ _ _ Hk).
          apply getByKey_fine; auto.
          exists r. split; [exact Hr|]. right.
          exists 0, this, r, i. apply binds_here; auto. }
        destruct (get fuel this t arg w) as [v w1|e w1|] eqn:E.
        -- exfalso. eapply Hnoret; eauto.
        -- destruct Hfine as (ks & js & ->). eauto.
        -- congruence.
    + intros Hcyc Hfuel. rewrite (get_unfold _ _ _ _ _ _ _ Hk).
      eapply (first_cycle_throws this (fun j => S j = true)
                (Datatypes.S (length (objs r)) - constructionCounter r)
                (set_registry w g) r); eauto.
Qed.

Definition sample_cycle : World :=
  snd (fromResolvedProviders [cycA; cycB] None world0).

Lemma sample_cycle_wf : wf_world sample_cycle.
Proof.
  intros i r p Hi Hp. destruct i as [|i]; simpl in Hi; try discriminate.
  injection Hi as <-. discriminate.
Qed.

Lemma sample_cycle_first :
  first_cycle (ReflectiveInjector__new [cycA; cycB] None) (fun j => Nat.ltb j 2 = true).
Proof.
  intros i Hi. destruct i as [|[|i]]; try discriminate; (split; [reflexivity|]).
  - exists cycA, (mkFactory class_factory [dep keyB]), [], (dep keyB), [].
    repeat split; try discriminate. exists 1. split; reflexivity.
  - exists cycB, (mkFactory class_factory [dep keyA]), [], (dep keyA), [].
    repeat split; try discriminate. exists 0. split; reflexivity.
Qed.

(** A depends on B, which is bound and constructs, and then on itself. *)
Definition sample_late_cycle : World :=
  snd (fromResolvedProviders [selfBA; provB] None world0).

Lemma sample_late_cycle_wf : wf_world sample_late_cycle.
Proof.
  intros i r p Hi Hp. destruct i as [|i]; simpl in Hi; try discriminate.
  injection Hi as <-. discriminate.
Qed.

Lemma sample_late_cycle_closed : closed sample_late_cycle.
Proof.
  split; [apply sample_late_cycle_wf|].
  intros x r Hx. destruct x as [|x]; simpl in Hx; try discriminate.
  injection Hx as <-. split; [reflexivity|].
  assert (Hbound : forall k i,
            find_keyId (keyIds (ReflectiveInjector__new [selfBA; provB] None))
              (id k) 0 = Some i ->
            resolvable sample_late_cycle 0 k None THROW_IF_NOT_FOUND).
  { intros k i Hf. eexists. split; [reflexivity|]. right.
    exists 0, 0, (ReflectiveInjector__new [selfBA; provB] None), i.
    apply binds_here; [reflexivity|exact Hf]. }
  intros p Hp. simpl in Hp.
  apply elem_of_cons in Hp as [->|Hp];
    [|apply list_elem_of_singleton in Hp; subst p]; simpl.
  - split; [discriminate|]. intros rf Hrf.
    apply list_elem_of_singleton in Hrf. subst rf. simpl.
    split; [discriminate|]. intros d Hd.
    apply elem_of_cons in Hd as [->|Hd];
      [|apply list_elem_of_singleton in Hd; subst d].
    + apply (Hbound keyB 1). reflexivity.
    + apply (Hbound keyA 0). reflexivity.
  - split; [discriminate|]. intros rf Hrf.
    apply list_elem_of_singleton in Hrf. subst rf. simpl.
    split; [discriminate|]. intros d Hd. inversion Hd.
Qed.

Lemma sample_late_cycle_cycle :
  cycle (ReflectiveInjector__new [selfBA; provB] None) (fun j => Nat.eqb j 0).
Proof.
  intros i Hi. destruct i; [|discriminate]. split; [reflexivity|].
  exists selfBA, (mkFactory class_factory [dep keyB; dep keyA]), (dep keyA).
  split; [reflexivity|]. split; [left|].
  split; [right; left|].
  split; [reflexivity|]. split; [discriminate|].
  exists 0. split; reflexivity.
Qed.

Lemma C4_witness :
  (exists ks js w1,
     get 5 0 tokA None sample_cycle = Thr (CyclicDependencyError ks js) w1) /\
  (exists ks js w1,
     get 5 0 tokA None sample_late_cycle = Thr (CyclicDependencyError ks js) w1).
Proof.
  split.
  - destruct (C4_cycles_fail sample_cycle 0 (ReflectiveInjector__new [cycA; cycB] None)
                (fun j => Nat.ltb j 2) sample_cycle_wf eq_refl) as (_ & _ & H).
    destruct (H 5 tokA None keyA registry0 0 eq_refl eq_refl eq_refl eq_refl)
      as (_ & H2).
    apply H2; [apply sample_cycle_first|simpl; lia].
  - destruct (C4_cycles_fail sample_late_cycle 0
                (ReflectiveInjector__new [selfBA; provB] None)
                (fun j => Nat.eqb j 0) sample_late_cycle_wf eq_refl) as (_ & _ & H).
    destruct (H 5 tokA None keyA registry0 0 eq_refl eq_refl eq_refl eq_refl)
      as (Hc & _).
    destruct (Hc sample_late_cycle_cycle) as (_ & _ & H2).
    apply H2; [apply sample_late_cycle_closed|vm_compute; lia].
Defined.

(** ** A failed construction leaves its slot unconstructed *)

Definition inb (S : list nat) (i : nat) : bool := bool_decide (i ∈ S).

Lemma inb_true S i : inb S i = true <-> i ∈ S.
Proof. unfold inb. apply bool_decide_eq_true. Qed.

Lemma inb_false S i : inb S i = false <-> i ∉ S.
Proof. unfold inb. apply bool_decide_eq_false. Qed.

Lemma pending_subset this r (S S' : nat -> bool) w :
  (forall i, S' i = true -> S i = true) ->
  pending this r S w -> pending this r S' w.
Proof.
  intros Hsub (r' & E & Hk & Hp & Hs). exists r'. repeat split; auto.
Qed.

Section MethodsStack.

Variables (this : nat) (r : ReflectiveInjector_).

(** [d] is a dependency that constructing slot [t] resolves. *)
Definition dep_of (t : nat) (d : ReflectiveDependency) : Prop :=
  exists p rf, providers r !! t = Some p /\ rf ∈ factories_used p /\
               d ∈ dependencies rf.

Definition link_into (S : list nat) (i : nat) : Prop :=
  exists d, dep_of i d /\ depends_into r (fun j => inb S j = true) d.

(** The slots under construction: each of them, the top one apart, is
    resolving a dependency that led to the next. *)
Definition stack (S : list nat) (top : nat) : Prop :=
  top ∈ S /\ forall i, i ∈ S -> i <> top -> link_into S i.

Definition kept {A} (S : list nat) (o : outcome A) : Prop :=
  match o with
  | Ret _ w1 | Thr _ w1 => pending this r (inb S) w1 /\ quiet w1
  | Diverge => True
  end.

Lemma link_into_mono S t i : link_into S i -> link_into (t :: S) i.
Proof.
  intros (d & Hd & Hk & Hv & j & Hj & HS). exists d. split; [auto|].
  repeat split; auto. exists j. split; [auto|].
  apply inb_true. right. apply inb_true. exact HS.
Qed.

Lemma stack_linked S top d j :
  stack S top -> dep_of top d ->
  key_eqb (dep_key d) INJECTOR_KEY = false -> visibility d <> Some SkipSelf ->
  find_keyId (keyIds r) (id (dep_key d)) 0 = Some j -> j ∈ S ->
  linked r (inb S).
Proof.
  intros (Htop & Hst) Hd Hk Hv Hj HS i Hi. apply inb_true in Hi.
  assert (Hlink : link_into S i).
  { destruct (decide (i = top)) as [->|Hne]; [|auto].
    exists d. split; [auto|]. repeat split; auto.
    exists j. split; [auto|]. apply inb_true. exact HS. }
  destruct Hlink as (d' & (p & rf & Hp & Hrf & Hin) & Hdep).
  exists p, rf, d'. auto.
Qed.

Lemma stack_push S top d t :
  stack S top -> dep_of top d ->
  key_eqb (dep_key d) INJECTOR_KEY = false -> visibility d <> Some SkipSelf ->
  find_keyId (keyIds r) (id (dep_key d)) 0 = Some t ->
  stack (t :: S) t.
Proof.
  intros (Htop & Hst) Hd Hk Hv Ht. split; [left|].
  intros i Hi Hne. apply elem_of_cons in Hi as [->|Hi]; [congruence|].
  destruct (decide (i = top)) as [->|Hne'].
  - exists d. split; [auto|]. repeat split; auto.
    exists t. split; [auto|]. apply inb_true. left.
  - apply link_into_mono. auto.
Qed.

Variable rec : nat -> ReflectiveKey -> option Visibility -> value -> M value.
Hypothesis rec_post : forall x key vis nf w,
  quiet w -> post x w (rec x key vis nf w).
Hypothesis rec_blocked : forall S, linked r S ->
  forall x key vis nf w, pending this r S w ->
    blocked this r S
      (key_eqb key INJECTOR_KEY = false /\ vis <> Some SkipSelf /\
       targets this r S x (id key))
      (rec x key vis nf w).
Hypothesis rec_kept : forall S top d w,
  quiet w -> pending this r (inb S) w -> stack S top -> dep_of top d ->
  kept S (getByReflectiveDependency rec this d w).

Lemma mapM_kept {A B} (f : A -> M B) S : forall l,
  (forall x w, x ∈ l -> quiet w -> pending this r (inb S) w -> kept S (f x w)) ->
  forall w, quiet w -> pending this r (inb S) w -> kept S (mapM f l w).
Proof.
  induction l as [|x l IH]; intros Hf w Hw Hp; simpl; [auto|].
  unfold bind. pose proof (Hf x w ltac:(left) Hw Hp) as H.
  destruct (f x w) as [y w1|e w1|]; simpl in *; auto.
  destruct H as (Hp1 & Hw1).
  assert (IH' : kept S (mapM f l w1)).
  { apply IH; auto. intros x' w' Hin. apply Hf. right. exact Hin. }
  destruct (mapM f l w1); simpl in *; auto.
Qed.

Lemma factories_used_resolved p rf :
  rf ∈ factories_used p -> rf ∈ resolvedFactories p.
Proof.
  unfold factories_used. destruct (multiProvider p); [auto|].
  destruct (resolvedFactories p) as [|rf' rest]; simpl; [auto|].
  intros H. apply list_elem_of_singleton in H. subst. left.
Qed.

Lemma instantiate_kept S t p rf w :
  quiet w -> pending this r (inb S) w -> stack S t ->
  providers r !! t = Some p -> rf ∈ factories_used p ->
  kept S (instantiate rec this p rf w).
Proof.
  intros Hw Hp Hst Hpt Hrf. unfold instantiate.
  assert (Hfree : call_free_factory (factory rf)).
  { destruct Hp as (r' & E & _ & Hprov & _).
    apply (proj2 Hw this r' p E).
    - rewrite Hprov. eapply list_elem_of_lookup_2; eauto.
    - apply factories_used_resolved. exact Hrf. }
  assert (H : kept S (mapM (getByReflectiveDependency rec this) (dependencies rf) w)).
  { apply mapM_kept; auto. intros d w' Hin Hw' Hp'.
    apply (rec_kept S t); auto. exists p, rf. auto. }
  destruct (mapM _ _ w) as [deps w1|e w1|]; simpl in *; auto.
  rewrite run_factory_call_free by exact Hfree.
  destruct H as (Hp1 & Hw1).
  destruct (factory rf deps (heap_next w1)) as [v n|e|v|n inj tk nf k]; simpl; auto.
  destruct (nullish v); simpl; auto.
Qed.

Lemma instantiateProvider_kept S t p w :
  quiet w -> pending this r (inb S) w -> stack S t ->
  providers r !! t = Some p ->
  kept S (instantiateProvider rec this p w).
Proof.
  intros Hw Hp Hst Hpt. unfold instantiateProvider.
  destruct (multiProvider p) eqn:Hm.
  - assert (H : kept S (mapM (instantiate rec this p) (resolvedFactories p)
                          (set_heap_next w (Datatypes.S (heap_next w))))).
    { apply mapM_kept; auto. intros rf w' Hin Hw' Hp'.
      apply (instantiate_kept S t); auto.
      unfold factories_used. rewrite Hm. exact Hin. }
    destruct (mapM _ _ _); simpl in *; auto.
  - destruct (resolvedFactories p) as [|rf rest] eqn:Hrf; simpl; [auto|].
    apply (instantiate_kept S t); auto.
    unfold factories_used. rewrite Hm, Hrf. simpl. left.
Qed.

Lemma new_kept S t w :
  quiet w -> pending this r (inb S) w -> stack S t ->
  kept S (new_ rec this (providers r !! t) w).
Proof.
  intros Hw Hp Hst. unfold new_.
  destruct (injectors w !! this) as [[r'|]|] eqn:E; simpl; auto.
  fold (incr_counter w this r').
  assert (Hp1 : pending this r (inb S) (incr_counter w this r'))
    by (apply pending_incr_counter; auto).
  assert (Hw1 : quiet (incr_counter w this r'))
    by (eapply frames_quiet; [apply incr_counter_frames|]; eauto).
  destruct (providers r !! t) as [p|] eqn:Hpt; simpl; auto.
  destruct (_ <? _)%nat; simpl; auto.
  apply (instantiateProvider_kept S t); auto.
Qed.

Lemma getObjByKeyId_kept S top d w :
  quiet w -> pending this r (inb S) w -> stack S top -> dep_of top d ->
  key_eqb (dep_key d) INJECTOR_KEY = false -> visibility d <> Some SkipSelf ->
  kept S (getObjByKeyId rec this (id (dep_key d)) w).
Proof.
  intros Hw Hp Hst Hd Hk Hv.
  pose proof (getObjByKeyId_post rec rec_post this (id (dep_key d)) w Hw) as Hpost.
  destruct Hp as (r' & E & Hkeys & Hprov & Hslots).
  assert (Hp : pending this r (inb S) w) by (exists r'; auto).
  destruct (find_keyId (keyIds r) (id (dep_key d)) 0) as [t|] eqn:Hf.
  - destruct (inb S t) eqn:HSt.
    + (* the lookup closes a cycle: it cannot return *)
      apply inb_true in HSt.
      pose proof (stack_linked S top d t Hst Hd Hk Hv Hf HSt) as Hl.
      pose proof (getObjByKeyId_blocked this r (inb S) Hl rec (rec_blocked _ Hl)
                    this (id (dep_key d)) w Hp) as Hb.
      destruct (getObjByKeyId rec this (id (dep_key d)) w); simpl in *;
        eauto using evolves_quiet.
      split; [tauto|eauto using evolves_quiet].
    + apply inb_false in HSt.
      destruct (strict_eq (read_slot (objs r') t) UNDEFINED) eqn:Hs.
      * rewrite (getObjByKeyId_construct rec this r' _ t w E) by congruence.
        rewrite Hprov.
        assert (Hp2 : pending this r (inb (t :: S)) w).
        { exists r'. repeat split; auto. intros j Hj.
          apply inb_true in Hj. apply elem_of_cons in Hj as [->|Hj].
          - apply strict_eq_UNDEFINED_true. exact Hs.
          - apply Hslots. apply inb_true. exact Hj. }
        pose proof (new_kept (t :: S) t w Hw Hp2
                      (stack_push S top d t Hst Hd Hk Hv Hf)) as Hn.
        assert (Hsub : forall w', pending this r (inb (t :: S)) w' ->
                  pending this r (inb S) w').
        { intros w'. apply pending_subset. intros j Hj.
          apply inb_true. right. apply inb_true. exact Hj. }
        rewrite (getObjByKeyId_construct rec this r' _ t w E) in Hpost by congruence.
        rewrite Hprov in Hpost.
        destruct (new_ rec this (providers r !! t) w) as [v w1|e w1|];
          simpl in *; [|split; [apply Hsub|]; tauto|exact I].
        destruct Hn as (Hp1 & Hw1).
        unfold write_slot in *.
        destruct (injectors w1 !! this) as [[r1|]|] eqn:E1; simpl in *;
          try (split; [apply Hsub|]; tauto).
        split; [|eauto using evolves_quiet].
        eapply pending_set_injector; eauto. simpl.
        intros _ j Hj. apply list_lookup_insert_ne. intros ->.
        apply inb_true in Hj. contradiction.
      * rewrite (getObjByKeyId_cached rec this r' _ t w E) by congruence.
        simpl. auto.
  - rewrite (getObjByKeyId_unbound rec this r' _ w E) by congruence.
    simpl. auto.
Qed.

(** A walk that starts above this injector does not touch it. *)
Lemma walk_above_kept S n x key nf inj w :
  quiet w -> pending this r (inb S) w ->
  (forall j, inj = Some j -> j < this) ->
  kept S (walk rec n x key nf inj w).
Proof.
  intros Hw Hp Hj. destruct inj as [j|].
  - pose proof (walk_post rec rec_post n x key nf j (Some j) w Hw
                  ltac:(intros j' [= <-]; lia)) as Hpost.
    specialize (Hj j eq_refl).
    assert (Hev : forall w1, evolves j w w1 ->
              pending this r (inb S) w1 /\ quiet w1).
    { intros w1 Hev. split; [|eauto using evolves_quiet].
      destruct Hp as (r' & E & Hrest).
      destruct (world_rel_lookup _ _ _ _ _ (evolves_world_rel _ _ _ Hev) E)
        as (r1 & E1 & _ & Hsame).
      rewrite (Hsame Hj) in E1. exists r'. auto. }
    destruct (walk rec n x key nf (Some j) w); simpl in *; auto.
  - destruct n; simpl; unfold throwOrNull; destruct (negb _); simpl; auto.
Qed.

Lemma getByKey_body_kept S top d n w :
  quiet w -> pending this r (inb S) w -> stack S top -> dep_of top d ->
  kept S (getByReflectiveDependency (getByKey_body rec n) this d w).
Proof.
  intros Hw Hp Hst Hd. unfold getByReflectiveDependency, getByKey_body.
  set (nf := if optional d then VNull else THROW_IF_NOT_FOUND).
  destruct (key_eqb (dep_key d) INJECTOR_KEY) eqn:Hk; [simpl; auto|].
  destruct Hp as (r' & E & Hrest).
  assert (Hp : pending this r (inb S) w) by (exists r'; auto).
  assert (Hobj : visibility d <> Some SkipSelf ->
            kept S (getObjByKeyId rec this (id (dep_key d)) w))
    by (intros Hv; apply (getObjByKeyId_kept S top d); auto).
  destruct (visibility d) as [[|]|] eqn:Hvis.
  - unfold getByKeySelf, bind. specialize (Hobj ltac:(discriminate)).
    destruct (getObjByKeyId rec this (id (dep_key d)) w) as [v w1|e w1|];
      simpl in *; auto.
    destruct (negb _); simpl; auto.
    unfold throwOrNull. destruct (negb _); simpl; auto.
  - unfold getByKeyDefault. rewrite E.
    apply walk_above_kept; auto. intros p Hpar. exact (proj1 Hw this r' p E Hpar).
  - unfold getByKeyDefault. destruct n as [|n]; simpl; rewrite E; [exact I|].
    specialize (Hobj ltac:(discriminate)).
    destruct (getObjByKeyId rec this (id (dep_key d)) w) as [v w1|e w1|];
      simpl in *; auto.
    destruct (negb _); simpl; auto.
    destruct Hobj as (Hp1 & Hw1).
    destruct (injectors w1 !! this) as [[r1|]|] eqn:E1; simpl; auto.
    apply walk_above_kept; auto. intros p Hpar. exact (proj1 Hw1 this r1 p E1 Hpar).
Qed.

End MethodsStack.

Lemma getByKey_kept this r fuel : forall S top d w,
  quiet w -> pending this r (inb S) w -> stack r S top -> dep_of r top d ->
  kept this r S (getByReflectiveDependency (getByKey fuel) this d w).
Proof.
  induction fuel as [|fuel IH]; intros S top d w Hw Hp Hst Hd; [exact I|].
  change (kept this r S
            (getByReflectiveDependency (getByKey_body (getByKey fuel) fuel) this d w)).
  apply (getByKey_body_kept this r (getByKey fuel)) with (top := top); auto.
  - intros; apply getByKey_post; auto.
  - intros S' Hl x key vis nf w' Hp'. apply getByKey_blocked; auto.
Qed.

Lemma new_throws_counter fuel this r p w e w1 :
  injectors w !! this = Some (Reflective r) ->
  new_ (getByKey fuel) this p w = Thr e w1 ->
  exists r1, injectors w1 !! this = Some (Reflective r1) /\
    constructionCounter r < constructionCounter r1.
Proof.
  intros Hr H. unfold new_ in H. rewrite Hr in H.
  fold (incr_counter w this r) in H.
  assert (Hinc : injectors (incr_counter w this r) !! this
                 = Some (Reflective (set_counter r (S (constructionCounter r))))).
  { simpl. apply list_lookup_insert_eq. eapply lookup_lt_Some; eauto. }
  assert (Hdone : w1 = incr_counter w this r ->
            exists r1, injectors w1 !! this = Some (Reflective r1) /\
              constructionCounter r < constructionCounter r1).
  { intros ->. eexists. split; [exact Hinc|]. simpl. lia. }
  destruct p as [p|]; [|injection H as _ <-; auto].
  destruct (_ <? _)%nat; [injection H as _ <-; auto|].
  pose proof (instantiateProvider_framed (getByKey fuel) (getByKey_framed fuel) this p
                (incr_counter w this r)) as Hpost.
  rewrite H in Hpost. simpl in Hpost.
  destruct (frames_lookup _ _ _ _ Hpost Hinc) as (r1 & E1 & []).
  exists r1. split; [auto|]. simpl in *. lia.
Qed.

(** A construction that fails leaves its slot unconstructed: nothing that
    runs inside it can fill the slot, when no factory calls back into an
    injector. *)
Lemma failed_construction_keeps_slot fuel this r kid i w e w1 :
  quiet w -> injectors w !! this = Some (Reflective r) ->
  find_keyId (keyIds r) kid 0 = Some i -> read_slot (objs r) i = UNDEFINED ->
  getObjByKeyId (getByKey fuel) this kid w = Thr e w1 ->
  exists r1, injectors w1 !! this = Some (Reflective r1) /\
    read_slot (objs r1) i = UNDEFINED /\
    keyIds r1 = keyIds r /\ providers r1 = providers r /\
    constructionCounter r < constructionCounter r1.
Proof.
  intros Hw Hr Hf Hslot H.
  rewrite (getObjByKeyId_construct _ _ _ _ _ _ Hr Hf) in H
    by (rewrite Hslot; reflexivity).
  destruct (new_ (getByKey fuel) this (providers r !! i) w) as [v w'|e' w'|] eqn:Hn;
    try discriminate.
  - exfalso. unfold write_slot in H.
    pose proof (new_framed (getByKey fuel) (getByKey_framed fuel) this
                  (providers r !! i) w) as Hpost.
    rewrite Hn in Hpost. simpl in Hpost.
    destruct (frames_lookup _ _ _ _ Hpost Hr) as (r1 & E1 & _).
    rewrite E1 in H. discriminate.
  - injection H as <- <-.
    assert (Hp : pending this r (inb [i]) w).
    { exists r. repeat split; auto. intros j Hj. apply inb_true in Hj.
      apply list_elem_of_singleton in Hj. subst j. exact Hslot. }
    assert (Hst : stack r [i] i).
    { split; [left|]. intros j Hj Hne.
      apply list_elem_of_singleton in Hj. congruence. }
    pose proof (new_kept this r (getByKey fuel)
                  (fun S top d w' => getByKey_kept this r fuel S top d w')
                  [i] i w Hw Hp Hst) as Hk.
    rewrite Hn in Hk. simpl in Hk. destruct Hk as ((r1 & E1 & Hk1 & Hp1 & Hs1) & _).
    destruct (new_throws_counter _ _ _ _ _ _ _ Hr Hn) as (r1' & E1' & Hc).
    rewrite E1 in E1'. injection E1' as <-.
    exists r1. repeat split; auto. apply Hs1. apply inb_true. left.
Qed.

(** ** Success caches, failure does not *)

(** C8, as stated, has every later [get] run the failing factory again,
    and has a failing [get] leave the slot unconstructed.  In a container
    of one slot whose provider's factory throws, the first two calls run
    the factory and fail with InstantiationError; the third fails with
    CyclicDependencyError and the factory is not called.  And a factory
    that is handed the injector, asks it for its own token and throws once
    that lookup has returned makes [get] fail with the instance that the
    inner lookup constructed left in the slot: the next [get] returns it
    and calls no factory. *)
Lemma C8_third_attempt_is_cyclic :
  let w := snd (fromResolvedProviders [failA] None world0) in
  let w' := snd (fromResolvedProviders [reentrantA] None world0) in
  (exists w1 w2 w3,
     get 3 0 tokA None w = Thr (InstantiationError boom "at Boom" [keyA] [0]) w1 /\
     get 3 0 tokA None w1 = Thr (InstantiationError boom "at Boom" [keyA] [0]) w2 /\
     get 3 0 tokA None w2 = Thr (CyclicDependencyError [keyA] [0]) w3) /\
  (exists w1 r1,
     get 7 0 tokA None w' = Thr (InstantiationError boom "at Boom" [keyA] [0]) w1 /\
     injectors w1 !! 0 = Some (Reflective r1) /\
     read_slot (objs r1) 0 = VObj 10 /\
     get 7 0 tokA None w1 = Ret (VObj 10) w1).
Proof.
  split.
  - do 3 eexists. split; [|split]; reflexivity.
  - do 2 eexists. split; [reflexivity|]. split; [reflexivity|].
    split; reflexivity.
Qed.

(** C8, amended. Let the first binding of the token up the parent chain
    be an unconstructed slot.  A [get] that succeeds leaves the instance
    in that slot, and later calls return it.  When no factory of the store
    calls back into an injector, a [get] that fails leaves the slot
    unconstructed, and the construction counter of the binding container
    has grown.  A later [get] of the token enters the construction of the
    same provider again: it calls the failing factory again as long as the
    counter, which nothing resets, does not exceed the number of slots,
    and fails with CyclicDependencyError, without calling the factory,
    once it does. *)
Theorem C8_get_atomic (fuel : nat) (w : World) (this : nat)
    (t : value) (arg : option value) (k : ReflectiveKey) (g : KeyRegistry)
    (d b : nat) (rb : ReflectiveInjector_) (i : nat) :
  wf_world w ->
  ReflectiveKey_get (globalKeyRegistry w) t = (Ok k, g) ->
  key_eqb k INJECTOR_KEY = false ->
  binds (injectors w) (id k) (Some this) d b rb i ->
  read_slot (objs rb) i = UNDEFINED ->
  (forall p, providers rb !! i = Some p -> no_sentinel p) ->
  (forall v w1, get fuel this t arg w = Ret v w1 ->
     v <> UNDEFINED /\
     (exists r1, injectors w1 !! b = Some (Reflective r1) /\
        read_slot (objs r1) i = v /\
        forall rec, getObjByKeyId rec b (id k) w1 = Ret v w1) /\
     forall n arg', get (S (d + S n)) this t arg' w1 = Ret v w1) /\
  (call_free w ->
   forall e w1, get fuel this t arg w = Thr e w1 ->
     exists r1, injectors w1 !! b = Some (Reflective r1) /\
       read_slot (objs r1) i = UNDEFINED /\
       constructionCounter rb < constructionCounter r1 /\
       forall rec, getObjByKeyId rec b (id k) w1 =
         match new_ rec b (providers rb !! i) w1 with
         | Ret v w2 => write_slot w2 b i v
         | Thr e' w2 => Thr e' w2
         | Diverge => Diverge
         end) /\
  (forall p rf rest err n,
     providers rb !! i = Some p -> multiProvider p = false ->
     resolvedFactories p = rf :: rest -> dependencies rf = [] ->
     (forall next, factory rf [] next = FThrow err) ->
     get (S (d + S n)) this t arg w =
       if Nat.leb (constructionCounter rb) (length (objs rb))
       then Thr (instantiationError b err (stack_of err) (key p))
                (incr_counter (set_registry w g) b rb)
       else Thr (cyclicDependencyError b (key p))
                (incr_counter (set_registry w g) b rb)).
Proof.
  intros Hw Hk Hinj Hb Hslot Hns.
  assert (Hb' : binds (injectors (set_registry w g)) (id k) (Some this) d b rb i)
    by exact Hb.
  destruct (binds_lookup _ _ _ _ _ _ _ Hb) as (Hr & Hf).
  assert (Hr' : injectors (set_registry w g) !! b = Some (Reflective rb)) by exact Hr.
  assert (Hreach : forall o, get fuel this t arg w = o -> o <> Diverge ->
            exists f, getObjByKeyId (getByKey f) b (id k) (set_registry w g) = o).
  { intros o H Ho. rewrite (get_unfold _ _ _ _ _ _ _ Hk) in H.
    destruct fuel as [|f]; [simpl in H; congruence|].
    rewrite getByKey_default_unfold in H by auto.
    destruct (walk_binds_result (getByKey f) this k
                (default_param arg THROW_IF_NOT_FOUND) _ _ _ _ _ _ Hb' Hns f)
      as [Hd|Hd]; [congruence|].
    exists f. congruence. }
  split; [|split].
  - intros v w1 H.
    destruct (Hreach _ H ltac:(discriminate)) as (f & Hg).
    destruct (getObjByKeyId_bound _ _ _ _ _ _ _ _ Hr' Hf Hns Hg)
      as (Hv & r1 & E1 & Hread).
    pose proof (getObjByKeyId_framed (getByKey f) (getByKey_framed f) b (id k)
                  (set_registry w g)) as Hfr.
    rewrite Hg in Hfr. simpl in Hfr.
    destruct (frames_lookup _ _ _ _ Hfr Hr') as (r1' & E1' & Fr).
    rewrite E1 in E1'. injection E1' as <-.
    assert (Hcached : forall rec, getObjByKeyId rec b (id k) w1 = Ret v w1).
    { intros rec. rewrite <- Hread.
      apply getObjByKeyId_cached; [auto|destruct Fr; congruence|].
      apply strict_eq_UNDEFINED. congruence. }
    split; [auto|]. split; [exists r1; auto|].
    intros n arg'.
    destruct (binds_frames _ _ _ _ _ _ _ _ Hfr Hb') as (rb1 & Hb1 & _).
    assert (Ht1 : ReflectiveKey_get (globalKeyRegistry w1) t
                  = (Ok k, globalKeyRegistry w1)).
    { apply (frames_registered (set_registry w g)); [exact Hfr|].
      simpl. eapply ReflectiveKey_get_idem; eauto. }
    rewrite (get_unfold _ _ _ _ _ _ _ Ht1), set_registry_same.
    rewrite getByKey_default_unfold by auto.
    rewrite (walk_binds _ _ _ _ _ _ _ _ _ _ Hb1).
    rewrite (walk_first _ _ _ _ _ _ _ _ E1), Hcached.
    rewrite (proj2 (strict_eq_UNDEFINED v) Hv). reflexivity.
  - intros Hfree e w1 H.
    destruct (Hreach _ H ltac:(discriminate)) as (f & Hg).
    assert (Hq : quiet (set_registry w g)) by (split; [exact Hw|exact Hfree]).
    destruct (failed_construction_keeps_slot _ _ _ _ _ _ _ _ Hq Hr' Hf Hslot Hg)
      as (r1 & E1 & Hs1 & Hk1 & Hp1 & Hc1).
    exists r1. repeat split; auto.
    intros rec. rewrite <- Hp1.
    apply getObjByKeyId_construct; [auto|congruence|].
    rewrite Hs1. reflexivity.
  - intros p rf rest err n Hp Hm Hrf Hd Hthrow.
    rewrite (get_unfold _ _ _ _ _ _ _ Hk).
    rewrite getByKey_default_unfold by auto.
    rewrite (walk_binds _ _ _ _ _ _ _ _ _ _ Hb').
    rewrite (walk_first _ _ _ _ _ _ _ _ Hr').
    rewrite (getObjByKeyId_construct _ _ _ _ _ _ Hr' Hf)
      by (rewrite Hslot; reflexivity).
    rewrite Hp.
    destruct (Nat.leb_spec (constructionCounter rb) (length (objs rb))) as [Hle|Hgt].
    + rewrite (new_guard_passes _ _ _ _ _ Hr' Hle).
      rewrite (instantiateProvider_single _ _ _ _ _ _ Hm Hrf).
      unfold instantiate. rewrite Hd. simpl. rewrite Hthrow. reflexivity.
    + rewrite (new_guard_fails _ _ _ _ _ Hr' Hgt). reflexivity.
Qed.

(** A child without providers of its own over a parent whose provider of A
    throws. *)
Definition sample_failing_family : World :=
  mkWorld [Reflective (ReflectiveInjector__new [failA] None);
           Reflective (set_parent (ReflectiveInjector__new [provB] None) (Some 0))]
    registry0 10.

Lemma sample_failing_family_wf : wf_world sample_failing_family.
Proof.
  intros i r p Hi Hp. destruct i as [|[|i]]; simpl in Hi; try discriminate;
    injection Hi as <-; simpl in Hp; [discriminate|injection Hp as <-; lia].
Qed.

Lemma sample_failing_family_call_free : call_free sample_failing_family.
Proof.
  intros x r p Hx Hp rf Hrf args n.
  destruct x as [|[|x]]; simpl in Hx; try discriminate; injection Hx as <-;
    apply list_elem_of_singleton in Hp; subst p;
    apply list_elem_of_singleton in Hrf; subst rf; exact I.
Qed.

Lemma C8_witness :
  let w := sample_failing_family in
  let rp := ReflectiveInjector__new [failA] None in
  get 3 1 tokA None w =
    Thr (instantiationError 0 boom "at Boom" keyA) (incr_counter w 0 rp) /\
  exists r1, injectors (incr_counter w 0 rp) !! 0 = Some (Reflective r1) /\
    read_slot (objs r1) 0 = UNDEFINED /\
    constructionCounter rp < constructionCounter r1.
Proof.
  intros w rp.
  assert (Hns : forall p, providers rp !! 0 = Some p -> no_sentinel p).
  { intros p [= <-] rf args n Hin.
    apply list_elem_of_singleton in Hin. subst rf. exact I. }
  assert (Hb : binds (injectors w) (id keyA) (Some 1) 1 0 rp 0).
  { apply (binds_parent _ _ 1
             (set_parent (ReflectiveInjector__new [provB] None) (Some 0)));
      [reflexivity|reflexivity|].
    apply binds_here; reflexivity. }
  destruct (C8_get_atomic 3 w 1 tokA None keyA registry0 1 0 rp 0
              sample_failing_family_wf eq_refl eq_refl Hb eq_refl Hns)
    as (_ & Hfail & Hthrow).
  pose proof (Hthrow failA (mkFactory (throwing_factory boom) []) [] boom 0
                eq_refl eq_refl eq_refl eq_refl (fun _ => eq_refl)) as H.
  split; [exact H|].
  destruct (Hfail sample_failing_family_call_free _ _ H) as (r1 & E1 & Hs & Hc & _).
  exists r1. auto.
Defined.


(** * Further properties of the injector *)

(** ** Access by index *)

(** Modelled from the spec: reflective_errors.ts is not part of the sources;
    the out-of-bounds error carries the index.  [UndefinedProvider] stands
    for reading [undefined] out of [providers]. *)
Inductive access_error : Type :=
  | OutOfBoundsError (index : Z)
  | UndefinedProvider.

(** [getProviderAtIndex(index)], for an integer [index]. *)
Definition getProviderAtIndex (r : ReflectiveInjector_) (index : Z)
    : access_error + ResolvedReflectiveProvider :=
  if ((index <? 0) || (index >=? Z.of_nat (length (providers r))))%Z
  then inl (OutOfBoundsError index)
  else match providers r !! Z.to_nat index with
       | Some p => inr p
       | None => inl UndefinedProvider
       end.

(** The loop of [mapProviders], from index [i] on, for [n] more rounds. *)
Fixpoint mapProviders_from {B} (r : ReflectiveInjector_)
    (fn : ResolvedReflectiveProvider -> B) (i n : nat) : access_error + list B :=
  match n with
  | O => inr []
  | S n' =>
      match getProviderAtIndex r (Z.of_nat i) with
      | inl e => inl e
      | inr p =>
          let y := fn p in
          match mapProviders_from r fn (S i) n' with
          | inl e => inl e
          | inr l => inr (y :: l)
          end
      end
  end.

(** [mapProviders(injector, fn)] *)
Definition mapProviders {B} (r : ReflectiveInjector_)
    (fn : ResolvedReflectiveProvider -> B) : access_error + list B :=
  mapProviders_from r fn 0 (length (providers r)).

Definition dquote : string := String "034"%char EmptyString.

(** [get displayName()] *)
Definition injector_displayName (r : ReflectiveInjector_) : access_error + string :=
  match mapProviders r
          (fun b => String.append " "
                      (String.append dquote
                         (String.append (displayName (key b))
                            (String.append dquote " ")))) with
  | inl e => inl e
  | inr names =>
      inr (String.append "ReflectiveInjector(providers: ["
             (String.append (String.concat ", " names) "])"))
  end.

(** The parallel arrays of an injector, as its constructor lays them out. *)
Definition aligned (r : ReflectiveInjector_) : Prop :=
  keyIds r = map (fun p => id (key p)) (providers r) /\
  length (objs r) = length (providers r).

Lemma new_injector_aligned ps parent : aligned (ReflectiveInjector__new ps parent).
Proof. split; simpl; [reflexivity|apply length_map]. Qed.

Lemma frame_inj_aligned r r1 : frame_inj r r1 -> aligned r -> aligned r1.
Proof. intros [] (Hk & Hl). split; congruence. Qed.

Lemma getProviderAtIndex_in_range r index :
  (0 <= index < Z.of_nat (length (providers r)))%Z ->
  exists p, getProviderAtIndex r index = inr p /\
            providers r !! Z.to_nat index = Some p.
Proof.
  intros H. unfold getProviderAtIndex.
  destruct (Z.ltb_spec index 0); [lia|].
  destruct (Z.geb_spec index (Z.of_nat (length (providers r)))); [lia|]. simpl.
  destruct (lookup_lt_is_Some_2 (providers r) (Z.to_nat index) ltac:(lia)) as (p & Hp).
  rewrite Hp. eauto.
Qed.

(** X1. [getProviderAtIndex] fails with the out-of-bounds error of the
    index exactly for an index below 0 or not below the number of
    providers; otherwise it returns the provider at that index, and in an
    injector laid out by the constructor that provider's key id is the
    entry of [keyIds] at the same index. *)
Theorem X1_getProviderAtIndex_bounds (r : ReflectiveInjector_) (index : Z) :
  ((index < 0 \/ Z.of_nat (length (providers r)) <= index)%Z ->
     getProviderAtIndex r index = inl (OutOfBoundsError index)) /\
  ((0 <= index < Z.of_nat (length (providers r)))%Z ->
     exists p, getProviderAtIndex r index = inr p /\
       providers r !! Z.to_nat index = Some p /\
       (aligned r -> keyIds r !! Z.to_nat index = Some (id (key p)))).
Proof.
  split.
  - intros H. unfold getProviderAtIndex.
    destruct (Z.ltb_spec index 0); [reflexivity|].
    destruct (Z.geb_spec index (Z.of_nat (length (providers r)))); [reflexivity|lia].
  - intros H. destruct (getProviderAtIndex_in_range r index H) as (p & E & Hp).
    exists p. repeat split; auto. intros (Hk & _).
    rewrite Hk, list_lookup_fmap, Hp. reflexivity.
Qed.

Lemma X1_witness :
  getProviderAtIndex (ReflectiveInjector__new [provA; provB] None) (-1)
    = inl (OutOfBoundsError (-1)) /\
  getProviderAtIndex (ReflectiveInjector__new [provA; provB] None) 2
    = inl (OutOfBoundsError 2) /\
  exists p, getProviderAtIndex (ReflectiveInjector__new [provA; provB] None) 1 = inr p /\
    keyIds (ReflectiveInjector__new [provA; provB] None) !! 1 = Some (id (key p)).
Proof.
  split; [|split].
  - apply (X1_getProviderAtIndex_bounds _ (-1)). simpl. lia.
  - apply (X1_getProviderAtIndex_bounds _ 2). simpl. lia.
  - destruct (proj2 (X1_getProviderAtIndex_bounds
                       (ReflectiveInjector__new [provA; provB] None) 1))
      as (p & E & _ & Hk); [simpl; lia|].
    exists p. split; [exact E|]. apply Hk. apply new_injector_aligned.
Defined.

Lemma mapProviders_from_spec {B} r (fn : ResolvedReflectiveProvider -> B) :
  forall n i, i + n = length (providers r) ->
    mapProviders_from r fn i n = inr (map fn (drop i (providers r))).
Proof.
  induction n as [|n IH]; intros i Hi; simpl.
  - rewrite drop_ge by lia. reflexivity.
  - destruct (getProviderAtIndex_in_range r (Z.of_nat i) ltac:(lia)) as (p & E & Hp).
    rewrite E, IH by lia. rewrite Nat2Z.id in Hp.
    rewrite (drop_S _ _ _ Hp). reflexivity.
Qed.

(** X2. [mapProviders] never runs into the bounds check of
    [getProviderAtIndex]: it returns the image of the providers in their
    order, and the display name of an injector lists the display names of
    its own providers in that order. *)
Theorem X2_mapProviders_total (r : ReflectiveInjector_) :
  (forall (B : Type) (fn : ResolvedReflectiveProvider -> B),
     mapProviders r fn = inr (map fn (providers r))) /\
  injector_displayName r =
    inr (String.append "ReflectiveInjector(providers: ["
           (String.append
              (String.concat ", "
                 (map (fun b => String.append " "
                                  (String.append dquote
                                     (String.append (displayName (key b))
                                        (String.append dquote " "))))
                    (providers r)))
              "])")).
Proof.
  assert (H : forall (B : Type) (fn : ResolvedReflectiveProvider -> B),
            mapProviders r fn = inr (map fn (providers r))).
  { intros B fn. unfold mapProviders.
    rewrite mapProviders_from_spec by lia. reflexivity. }
  split; [exact H|]. unfold injector_displayName. rewrite H. reflexivity.
Qed.

(** ** What no public method changes *)

Lemma frames_back w w1 x r1 :
  frames w w1 -> injectors w1 !! x = Some (Reflective r1) ->
  exists r, injectors w !! x = Some (Reflective r) /\ frame_inj r r1.
Proof.
  intros (_ & _ & F) H1. specialize (F x).
  destruct (injectors w !! x) as [[r|]|].
  - destruct F as (r1' & E & Fr). rewrite H1 in E. injection E as <-. eauto.
  - congruence.
  - congruence.
Qed.

(** The injectors of a store reachable from [w]: those of [w], with the
    same providers, parent and key ids, and those created since. *)
Definition extends_store (w w1 : World) : Prop :=
  wf_world w1 /\
  (forall x r, injectors w !! x = Some (Reflective r) ->
     exists r1, injectors w1 !! x = Some (Reflective r1) /\ frame_inj r r1) /\
  (forall x r1, injectors w1 !! x = Some (Reflective r1) ->
     (exists r, injectors w !! x = Some (Reflective r) /\ frame_inj r r1) \/
     aligned r1).

Lemma extends_frames w w1 w2 :
  extends_store w w1 -> frames w1 w2 -> extends_store w w2.
Proof.
  intros (Hw & Hf & Hb) Hrel. split; [eauto using frames_wf|split].
  - intros x r Hx. destruct (Hf x r Hx) as (r1 & E1 & F1).
    destruct (frames_lookup _ _ _ _ Hrel E1) as (r2 & E2 & F2).
    eauto using frame_inj_trans.
  - intros x r2 Hx. destruct (frames_back _ _ _ _ Hrel Hx) as (r1 & E1 & F12).
    destruct (Hb x r1 E1) as [(r & E & F)|Ha].
    + left. eauto using frame_inj_trans.
    + right. eauto using frame_inj_aligned.
Qed.

Lemma extends_snoc w w1 r :
  extends_store w w1 -> aligned r ->
  (forall p, parent r = Some p -> p < length (injectors w1)) ->
  extends_store w
    (mkWorld (injectors w1 ++ [Reflective r]) (globalKeyRegistry w1) (heap_next w1)).
Proof.
  intros (Hw & Hf & Hb) Ha Hp. split; [apply wf_world_snoc; auto|split].
  - intros x r0 Hx. destruct (Hf x r0 Hx) as (r1 & E1 & F1).
    exists r1. split; [|auto]. simpl. rewrite lookup_app_l; auto.
    eapply lookup_lt_Some; eauto.
  - intros x r1 Hx. simpl in Hx.
    destruct (decide (x < length (injectors w1))) as [Hlt|Hge].
    + rewrite lookup_app_l in Hx by auto. auto.
    + rewrite lookup_app_r in Hx by lia.
      destruct (x - length (injectors w1)) as [|n]; simpl in Hx;
        [|destruct n; discriminate].
      injection Hx as <-. auto.
Qed.

Lemma reachable_extends w w1 : wf_world w -> reachable w w1 -> extends_store w w1.
Proof.
  intros Hw. induction 1 as [|w1 fuel this t arg v w2 _ IH H
                             |w1 fuel this t arg e w2 _ IH H
                             |w1 fuel this p v w2 _ IH H
                             |w1 fuel this p e w2 _ IH H
                             |w1 ps parent _ IH Hp
                             |w1 this ps _ IH Hp].
  - split; [auto|split].
    + intros x r Hx. eauto using frame_inj_refl.
    + intros x r Hx. left. eauto using frame_inj_refl.
  - pose proof (get_framed fuel this t arg w1) as F. rewrite H in F.
    eapply extends_frames; eauto.
  - pose proof (get_framed fuel this t arg w1) as F. rewrite H in F.
    eapply extends_frames; eauto.
  - pose proof (instantiateResolved_framed fuel this p w1) as F. rewrite H in F.
    eapply extends_frames; eauto.
  - pose proof (instantiateResolved_framed fuel this p w1) as F. rewrite H in F.
    eapply extends_frames; eauto.
  - apply extends_snoc; auto using new_injector_aligned.
  - apply extends_snoc; auto.
    + apply (new_injector_aligned ps None).
    + simpl. intros p [= <-]. exact Hp.
Qed.

(** X3. Through [get], [instantiateResolved] and the creation of
    containers, an injector keeps its providers, its parent and its key
    ids, its cache keeps its length and its construction counter never
    decreases; and when the injectors of the first store are laid out as
    the constructor lays them out ([keyIds[i]] is the key id of
    [providers[i]], one cache slot per provider), so is every injector of
    every store reached. *)
Theorem X3_injector_layout_invariant (w w1 : World) :
  wf_world w -> reachable w w1 ->
  (forall x r, injectors w !! x = Some (Reflective r) ->
     exists r1, injectors w1 !! x = Some (Reflective r1) /\
       providers r1 = providers r /\ parent r1 = parent r /\
       keyIds r1 = keyIds r /\ length (objs r1) = length (objs r) /\
       constructionCounter r <= constructionCounter r1) /\
  ((forall x r, injectors w !! x = Some (Reflective r) -> aligned r) ->
   forall x r1, injectors w1 !! x = Some (Reflective r1) -> aligned r1).
Proof.
  intros Hw Hreach. destruct (reachable_extends w w1 Hw Hreach) as (_ & Hf & Hb).
  split.
  - intros x r Hx. destruct (Hf x r Hx) as (r1 & E1 & []). eauto 10.
  - intros Ha x r1 Hx. destruct (Hb x r1 Hx) as [(r & E & F)|H]; auto.
    eapply frame_inj_aligned; eauto.
Qed.

Lemma world0_wf : wf_world world0.
Proof. intros i r p Hi. destruct i; discriminate. Qed.

Definition forall_injectors_aligned (w : World) : Prop :=
  forall x r, injectors w !! x = Some (Reflective r) -> aligned r.

Lemma X3_witness :
  let w1 := snd (fromResolvedProviders [provA; provB] None world0) in
  forall_injectors_aligned w1.
Proof.
  intros w1 x r1 Hx.
  assert (Hreach : reachable world0 w1)
    by (apply (reach_create world0 world0 [provA; provB] None (reach_here world0));
        discriminate).
  assert (H0 : forall y r, injectors world0 !! y = Some (Reflective r) -> aligned r)
    by (intros y r Hy; destruct y; discriminate).
  exact (proj2 (X3_injector_layout_invariant world0 w1 world0_wf Hreach) H0 x r1 Hx).
Defined.

(** ** Multi-providers *)

Lemma mapM_Forall2 {A B} (f : A -> M B) : forall l w ys w1,
  mapM f l w = Ret ys w1 ->
  Forall2 (fun x y => exists wa wb, f x wa = Ret y wb) l ys.
Proof.
  induction l as [|x l IH]; intros w ys w1 H; simpl in H.
  - injection H as <- _. constructor.
  - unfold bind in H. destruct (f x w) as [y wa|e wa|] eqn:E; try discriminate.
    destruct (mapM f l wa) as [ys' wb|e wb|] eqn:E'; try discriminate.
    injection H as <- _. constructor; eauto.
Qed.

Lemma mapM_values rec this p : forall fs vs w,
  Forall2 (fun rf v => dependencies rf = [] /\
                       forall n, factory rf [] n = FReturn v n) fs vs ->
  mapM (instantiate rec this p) fs w = Ret vs w.
Proof.
  intros fs vs w H. revert w.
  induction H as [|rf v fs vs (Hd & Hf) _ IH]; intros w; simpl; [reflexivity|].
  unfold bind, instantiate. rewrite Hd. cbn [mapM]. unfold ret.
  rewrite Hf. cbn [run_factory].
  replace (set_heap_next w (heap_next w)) with w by (destruct w; reflexivity).
  rewrite IH. reflexivity.
Qed.

(** X4. For a multi-provider, [instantiateProvider] returns a new array
    with one entry per factory, in the order of the factories: each entry
    is what instantiating the factory at that position returned.  Factories
    without dependencies that return fixed values give the array of these
    values.  Without any factory the result is the empty array, where a
    provider that is not multi fails with a TypeError. *)
Theorem X4_multi_provider_order
    (rec : nat -> ReflectiveKey -> option Visibility -> value -> M value)
    (this : nat) (p : ResolvedReflectiveProvider) (w : World) :
  multiProvider p = true ->
  (forall v w1, instantiateProvider rec this p w = Ret v w1 ->
     exists res, v = VArr (heap_next w) res /\
       length res = length (resolvedFactories p) /\
       Forall2 (fun rf y => exists wa wb, instantiate rec this p rf wa = Ret y wb)
         (resolvedFactories p) res) /\
  (forall vs,
     Forall2 (fun rf v => dependencies rf = [] /\
                          forall n, factory rf [] n = FReturn v n)
       (resolvedFactories p) vs ->
     instantiateProvider rec this p w =
       Ret (VArr (heap_next w) vs) (set_heap_next w (S (heap_next w)))) /\
  (forall q, multiProvider q = false -> resolvedFactories q = [] ->
     instantiateProvider rec this q w = Thr typeError w).
Proof.
  intros Hm. split; [|split].
  - intros v w1 H. unfold instantiateProvider in H. rewrite Hm in H.
    destruct (mapM _ _ _) as [res w'|e w'|] eqn:E; try discriminate.
    injection H as <- _. exists res.
    pose proof (mapM_Forall2 _ _ _ _ _ E) as HF.
    split; [reflexivity|split; [symmetry; eapply Forall2_length; eauto|exact HF]].
  - intros vs H. unfold instantiateProvider. rewrite Hm.
    rewrite (mapM_values rec this p _ _ _ H). reflexivity.
  - intros q Hq Hnil. unfold instantiateProvider. rewrite Hq, Hnil. reflexivity.
Qed.

Lemma X4_witness :
  let p := mkProvider keyA [mkFactory (value_factory (VNum 1)) [];
                            mkFactory (value_factory (VNum 2)) [];
                            mkFactory (value_factory (VNum 3)) []] true in
  instantiateProvider (getByKey 0) 0 p world0 =
    Ret (VArr 10 [VNum 1; VNum 2; VNum 3]) (set_heap_next world0 11).
Proof.
  intros p.
  apply (proj1 (proj2 (X4_multi_provider_order (getByKey 0) 0 p world0 eq_refl))).
  repeat constructor.
Defined.

(** ** Dependencies that are not bound *)

Lemma getByKey_unbound this k vis w :
  chain_end (injectors w) (id k) (Some this) None ->
  key_eqb k INJECTOR_KEY = false -> vis <> Some SkipSelf ->
  exists N, forall fuel nf, N <= fuel ->
    getByKey fuel this k vis nf w = throwOrNull this k nf w.
Proof.
  intros Hc Hk Hv.
  destruct (walk_unbound this k w _ _ Hc) as (N & HN).
  exists (S N). intros [|fuel] nf Hf; [lia|].
  destruct vis as [[|]|]; try congruence.
  - rewrite getByKey_Self_unfold by auto. unfold getByKeySelf, bind.
    inversion Hc as [| |j r e Hj Hfind _]; subst.
    rewrite (getObjByKeyId_unbound _ _ _ _ _ Hj Hfind). reflexivity.
  - rewrite getByKey_default_unfold by auto. apply HN. lia.
Qed.

(** X5. A dependency whose key is bound nowhere up the chain of the
    container resolves to [null] when it is optional, and the factory is
    called with [null]; when it is required, the construction fails with
    the NoProviderError of the dependency's key, and the key of the
    provider under construction follows it in the chain of keys. *)
Theorem X5_unbound_dependency (this : nat) (p : ResolvedReflectiveProvider)
    (rf : ResolvedReflectiveFactory) (d : ReflectiveDependency) (w : World) :
  chain_end (injectors w) (id (dep_key d)) (Some this) None ->
  key_eqb (dep_key d) INJECTOR_KEY = false ->
  visibility d <> Some SkipSelf ->
  exists N, forall fuel, N <= fuel ->
    (optional d = true ->
       getByReflectiveDependency (getByKey fuel) this d w = Ret VNull w /\
       (dependencies rf = [d] ->
          instantiate (getByKey fuel) this p rf w =
            match factory rf [VNull] (heap_next w) with
            | FReturn v n => Ret v (set_heap_next w n)
            | FThrow e => Thr (instantiationError this e (stack_of e) (key p)) w
            | fr => run_factory (getByKey fuel) this p fr w
            end)) /\
    (optional d = false ->
       forall rest, dependencies rf = d :: rest ->
         instantiate (getByKey fuel) this p rf w =
           Thr (NoProviderError [dep_key d; key p] [this; this]) w).
Proof.
  intros Hc Hk Hv.
  pose proof (getByKey_unbound this (dep_key d) (visibility d) w Hc Hk Hv) as HN.
  destruct HN as (N & HN). exists N. intros fuel Hf. split.
  - intros Ho.
    assert (Hd : getByReflectiveDependency (getByKey fuel) this d w = Ret VNull w).
    { unfold getByReflectiveDependency. rewrite Ho, HN by auto. reflexivity. }
    split; [exact Hd|]. intros Hdeps. unfold instantiate. rewrite Hdeps.
    cbn [mapM]. unfold bind. rewrite Hd. unfold ret.
    destruct (factory rf [VNull] (heap_next w)); reflexivity.
  - intros Ho rest Hdeps. unfold instantiate. rewrite Hdeps. cbn [mapM].
    unfold bind, getByReflectiveDependency. rewrite Ho, HN by auto. reflexivity.
Qed.

Lemma X5_witness :
  let car := mkProvider keyA [mkFactory class_factory [mkDep keyB false None]] false in
  let w := snd (fromResolvedProviders [car] None world0) in
  exists N, forall fuel, N <= fuel ->
    instantiate (getByKey fuel) 0 car (mkFactory class_factory [mkDep keyB false None]) w
    = Thr (NoProviderError [keyB; keyA] [0; 0]) w.
Proof.
  intros car w.
  destruct (X5_unbound_dependency 0 car
              (mkFactory class_factory [mkDep keyB false None])
              (mkDep keyB false None) w) as (N & H).
  - eapply chain_end_parent; [reflexivity|reflexivity|apply chain_end_null].
  - reflexivity.
  - discriminate.
  - exists N. intros fuel Hf. destruct (H fuel Hf) as (_ & H2).
    exact (H2 eq_refl [] eq_refl).
Defined.

(** ** The injector as a dependency *)

Lemma instantiate_injector_dependency fuel this p rf dI w :
  dependencies rf = [dI] -> key_eqb (dep_key dI) INJECTOR_KEY = true ->
  instantiate (getByKey (S fuel)) this p rf w =
  run_factory (getByKey (S fuel)) this p (factory rf [VInj this] (heap_next w)) w.
Proof.
  intros Hd Hk. unfold instantiate. rewrite Hd. cbn [mapM].
  unfold bind, getByReflectiveDependency. cbn [getByKey]. unfold getByKey_body.
  rewrite Hk. reflexivity.
Qed.

Lemma read_slot_in_range (o : list value) i :
  read_slot o i = UNDEFINED -> i < length o.
Proof.
  intros H. destruct (decide (i < length o)); auto.
  unfold read_slot in H. rewrite lookup_ge_None_2 in H by lia. discriminate.
Qed.

(** X6. A dependency on the injector token resolves to the container that
    holds the provider under construction, whatever the visibility of the
    dependency: when [get] on a child finds the provider in its parent,
    the factory is called with the parent, not with the child. *)
Theorem X6_injector_dependency (fuel : nat) (w : World) (p c : nat)
    (rp rc : ReflectiveInjector_) (tA : value) (kA : ReflectiveKey) (iA : nat)
    (pA : ResolvedReflectiveProvider) (rf : ResolvedReflectiveFactory)
    (rest : list ResolvedReflectiveFactory) (dI : ReflectiveDependency)
    (arg : option value) :
  injectors w !! p = Some (Reflective rp) ->
  injectors w !! c = Some (Reflective rc) ->
  parent rc = Some p ->
  ReflectiveKey_get (globalKeyRegistry w) tA = (Ok kA, globalKeyRegistry w) ->
  key_eqb kA INJECTOR_KEY = false ->
  find_keyId (keyIds rc) (id kA) 0 = None ->
  find_keyId (keyIds rp) (id kA) 0 = Some iA ->
  read_slot (objs rp) iA = UNDEFINED ->
  constructionCounter rp <= length (objs rp) ->
  providers rp !! iA = Some pA ->
  multiProvider pA = false -> resolvedFactories pA = rf :: rest ->
  dependencies rf = [dI] -> key_eqb (dep_key dI) INJECTOR_KEY = true ->
  (forall e, factory rf [VInj p] (heap_next w) = FThrow e ->
     get (S (S (S fuel))) c tA arg w =
       Thr (instantiationError p e (stack_of e) (key pA)) (incr_counter w p rp)) /\
  (forall v n, factory rf [VInj p] (heap_next w) = FReturn v n -> v <> UNDEFINED ->
     exists w1, get (S (S (S fuel))) c tA arg w = Ret v w1).
Proof.
  intros Hp Hc Hchild HtA HkA HAc HAp Hslot Hcount HpA Hm Hrf Hd HkI.
  assert (Hget : get (S (S (S fuel))) c tA arg w =
            match getObjByKeyId (getByKey (S (S fuel))) p (id kA) w with
            | Ret obj w1 =>
                if negb (strict_eq obj UNDEFINED) then Ret obj w1
                else match injectors w1 !! p with
                     | Some (Reflective r1) =>
                         walk (getByKey (S (S fuel))) fuel c kA
                           (default_param arg THROW_IF_NOT_FOUND) (parent r1) w1
                     | _ => Thr typeError w1
                     end
            | Thr e w1 => Thr e w1
            | Diverge => Diverge
            end).
  { rewrite (get_unfold _ _ _ _ _ _ _ HtA), set_registry_same.
    rewrite getByKey_default_unfold by auto.
    rewrite (walk_first _ _ _ _ _ _ _ _ Hc).
    rewrite (getObjByKeyId_unbound _ _ _ _ _ Hc HAc). simpl.
    rewrite Hc, Hchild. rewrite Hp. reflexivity. }
  assert (Hobj : getObjByKeyId (getByKey (S (S fuel))) p (id kA) w =
            match run_factory (getByKey (S (S fuel))) p pA
                    (factory rf [VInj p] (heap_next w)) (incr_counter w p rp) with
            | Ret v w1 => write_slot w1 p iA v
            | Thr e w1 => Thr e w1
            | Diverge => Diverge
            end).
  { rewrite (getObjByKeyId_construct _ _ _ _ _ _ Hp HAp) by (rewrite Hslot; reflexivity).
    rewrite HpA, (new_guard_passes _ _ _ _ _ Hp Hcount).
    rewrite (instantiateProvider_single _ _ _ _ _ _ Hm Hrf).
    rewrite (instantiate_injector_dependency _ _ _ _ _ _ Hd HkI).
    reflexivity. }
  rewrite Hget, Hobj. split.
  - intros e He. rewrite He. reflexivity.
  - intros v n Hv Hne. rewrite Hv. unfold write_slot. simpl.
    rewrite list_lookup_insert_eq by (eapply lookup_lt_Some; eauto). simpl.
    unfold read_slot. rewrite list_lookup_insert_eq
      by (apply read_slot_in_range; exact Hslot). simpl.
    rewrite (proj2 (strict_eq_UNDEFINED v) Hne). simpl. eauto.
Qed.

Lemma X6_witness :
  let owner := mkProvider keyA
                 [mkFactory (fun args next => FReturn (default VNull (head args)) next)
                    [mkDep INJECTOR_KEY false None]] false in
  let w := mkWorld [Reflective (ReflectiveInjector__new [owner] None);
                    Reflective (set_parent (ReflectiveInjector__new [provB] None) (Some 0))]
             registry0 10 in
  exists w1, get 3 1 tokA None w = Ret (VInj 0) w1.
Proof.
  intros owner w.
  destruct (X6_injector_dependency 0 w 0 1
              (ReflectiveInjector__new [owner] None)
              (set_parent (ReflectiveInjector__new [provB] None) (Some 0))
              tokA keyA 0 owner
              (mkFactory (fun args next => FReturn (default VNull (head args)) next)
                 [mkDep INJECTOR_KEY false None])
              [] (mkDep INJECTOR_KEY false None) None
              eq_refl eq_refl eq_refl eq_refl eq_refl eq_refl eq_refl eq_refl
              (le_S 0 0 (le_n 0)) eq_refl eq_refl eq_refl eq_refl eq_refl)
    as (_ & H).
  apply (H (VInj 0) 10 eq_refl). discriminate.
Defined.

(** ** Registries other than the global one *)

(** X7. [KeyRegistry.get] numbers a new key with the size of the global
    registry, which [ReflectiveKey.numberOfKeys] reads, not with the size
    of the registry it is called on: in a registry other than the global
    one, two different new tokens registered one after the other receive
    the same id, while the global registry gives the second the next id. *)
Theorem X7_key_ids_follow_global_size (n : nat) (r : KeyRegistry) (t1 t2 : value) :
  is_key t1 = false -> falsy t1 = false -> allKeys_get r t1 = None ->
  is_key t2 = false -> falsy t2 = false -> allKeys_get r t2 = None ->
  strict_eq t1 t2 = false ->
  (exists k1 k2 r1 r2,
     KeyRegistry_get n r t1 = (Ok k1, r1) /\
     KeyRegistry_get n r1 t2 = (Ok k2, r2) /\
     id k1 = n /\ id k2 = n /\ numberOfKeys r2 = S (S (numberOfKeys r))) /\
  (exists k1 k2 r1 r2,
     ReflectiveKey_get r t1 = (Ok k1, r1) /\
     ReflectiveKey_get r1 t2 = (Ok k2, r2) /\
     id k1 = numberOfKeys r /\ id k2 = S (numberOfKeys r)).
Proof.
  intros Hk1 Hf1 Hg1 Hk2 Hf2 Hg2 Hne.
  assert (Hnew : forall m g t, is_key t = false -> falsy t = false ->
            allKeys_get g t = None ->
            KeyRegistry_get m g t =
              (Ok (mkKey t m (stringify t)), g ++ [(t, mkKey t m (stringify t))])).
  { intros m g t Hk Hf Hg. unfold KeyRegistry_get, ReflectiveKey_new.
    rewrite Hg, Hf. destruct t; try discriminate; reflexivity. }
  assert (Hg2' : forall k, allKeys_get (r ++ [(t1, k)]) t2 = None).
  { intros k. rewrite allKeys_get_app, Hg2. simpl. rewrite Hne. reflexivity. }
  split.
  - do 4 eexists. rewrite (Hnew n r t1) by auto.
    split; [reflexivity|]. rewrite (Hnew n _ t2) by auto.
    split; [reflexivity|]. repeat split.
    unfold numberOfKeys. rewrite !length_app. simpl. lia.
  - do 4 eexists. unfold ReflectiveKey_get, resolveForwardRef.
    rewrite (Hnew _ r t1) by auto. split; [reflexivity|].
    rewrite (Hnew _ _ t2) by auto. split; [reflexivity|].
    split; [reflexivity|]. simpl. unfold numberOfKeys.
    rewrite length_app. simpl. lia.
Qed.

Lemma X7_witness :
  exists k1 k2 r1 r2,
    KeyRegistry_get 5 [] tokA = (Ok k1, r1) /\
    KeyRegistry_get 5 r1 tokB = (Ok k2, r2) /\
    id k1 = 5 /\ id k2 = 5 /\ numberOfKeys r2 = 2.
Proof.
  exact (proj1 (X7_key_ids_follow_global_size 5 [] tokA tokB
                  eq_refl eq_refl eq_refl eq_refl eq_refl eq_refl eq_refl)).
Defined.

(** X8. An instance that sits in a slot between calls stays there: in
    every store reached afterwards through [get], [instantiateResolved] and
    the creation of containers it is still in its slot, whatever the
    factories do, and every later lookup of its key in that container
    returns this very instance without changing the store.  (A slot is
    written when its construction returns: what a lookup made by the
    factory of the slot under construction has put there is replaced.) *)
Theorem X8_instances_are_permanent (w w1 : World) (this : nat)
    (r : ReflectiveInjector_) (k : ReflectiveKey) (i : nat) (v : value) :
  wf_world w -> reachable w w1 ->
  (forall x rx j u, injectors w !! x = Some (Reflective rx) ->
     objs rx !! j = Some u -> u <> UNDEFINED ->
     exists r1, injectors w1 !! x = Some (Reflective r1) /\ objs r1 !! j = Some u) /\
  (injectors w !! this = Some (Reflective r) ->
   key_eqb k INJECTOR_KEY = false ->
   find_keyId (keyIds r) (id k) 0 = Some i ->
   objs r !! i = Some v -> v <> UNDEFINED ->
   forall fuel nf,
     getByKey (S (S fuel)) this k None nf w1 = Ret v w1 /\
     getByKey (S fuel) this k (Some Self) nf w1 = Ret v w1).
Proof.
  intros Hw Hreach.
  assert (Hs : forall x rx j u, injectors w !! x = Some (Reflective rx) ->
            objs rx !! j = Some u -> u <> UNDEFINED ->
            exists r1, injectors w1 !! x = Some (Reflective r1) /\
                       objs r1 !! j = Some u).
  { intros x rx j u Hx Hj Hu.
    destruct (reachable_settled w w1 Hreach x rx Hx) as (r1 & E1 & _ & Hkeep).
    exists r1. split; [exact E1|]. rewrite Hkeep; [exact Hj|].
    unfold read_slot. rewrite Hj. exact Hu. }
  split; [exact Hs|].
  intros Hr Hk Hf Hi Hv fuel nf.
  destruct (Hs this r i v Hr Hi Hv) as (r1 & E1 & Hi1).
  destruct (reachable_keeps w w1 Hw Hreach) as (_ & Hkeep).
  destruct (Hkeep this r Hr) as (r1' & E1' & Hkeys & _).
  rewrite E1 in E1'. injection E1' as <-.
  assert (Hread : read_slot (objs r1) i = v) by (unfold read_slot; rewrite Hi1; reflexivity).
  assert (Hf1 : find_keyId (keyIds r1) (id k) 0 = Some i) by congruence.
  split.
  - rewrite <- Hread at 1. apply getByKey_read_cached; auto. congruence.
  - rewrite getByKey_Self_unfold by auto. unfold getByKeySelf, bind.
    rewrite (getObjByKeyId_cached _ _ _ _ _ _ E1 Hf1)
      by (apply strict_eq_UNDEFINED; congruence).
    rewrite Hread, (proj2 (strict_eq_UNDEFINED v) Hv). reflexivity.
Qed.

Lemma X8_witness :
  exists w1,
    get 3 1 tokA None sample_family = Ret (VObj 11) w1 /\
    getByKey 2 0 keyA None THROW_IF_NOT_FOUND w1 = Ret (VObj 10) w1.
Proof.
  eexists. split; [reflexivity|].
  refine (proj1 (proj2 (X8_instances_are_permanent sample_family _ 0 sample_parent
                          keyA 0 (VObj 10) sample_family_wf _)
                   eq_refl eq_refl eq_refl eq_refl _ 0 THROW_IF_NOT_FOUND)).
  - apply (reach_get sample_family sample_family 3 1 tokA None (VObj 11) _
             (reach_here sample_family)). reflexivity.
  - discriminate.
Defined.


(** * Reflection: decorators and constructor parameters

    [lib/util/decorators.ts] and [lib/reflection/reflection_capabilities.ts].
    The metadata that the decorators write and the reflection reads is kept
    by the [Reflect] object of the reflect-metadata library, under three
    keys; the store below has one table per key, indexed by the address of
    the class the metadata is attached to.  Under "parameters" an entry is
    [null] or an array of annotations. *)

Record Metadata : Type := mkMetadata {
  md_parameters : nat -> option (list (option (list value)));
  md_paramtypes : nat -> option (list value);       (* "design:paramtypes" *)
  md_annotations : nat -> option (list value)
}.

Definition update {A} (f : nat -> A) (k : nat) (a : A) : nat -> A :=
  fun k' => if Nat.eqb k k' then a else f k'.

(** [Reflect.defineMetadata("parameters", parameters, cls)] *)
Definition define_parameters (md : Metadata) (cls : nat)
    (l : list (option (list value))) : Metadata :=
  mkMetadata (update (md_parameters md) cls (Some l))
    (md_paramtypes md) (md_annotations md).

(** [Reflect.defineMetadata("annotations", annotations, cls)] *)
Definition define_annotations (md : Metadata) (cls : nat) (l : list value)
    : Metadata :=
  mkMetadata (md_parameters md) (md_paramtypes md)
    (update (md_annotations md) cls (Some l)).

(** ** decorators.ts *)

(** [while (parameters.length <= index) { parameters.push(null) }] *)
Definition pad_nulls (parameters : list (option (list value))) (index : nat)
    : list (option (list value)) :=
  parameters ++ replicate (S index - length parameters) None.

(** The [ParamDecorator(cls, unusedKey, index)] that
    [makeParamDecorator(name, props)(...args)] returns;
    [annotationInstance] is the object built from [args]. *)
Definition ParamDecorator (annotationInstance : value) (cls : nat) (index : nat)
    (md : Metadata) : Metadata :=
  let parameters := default [] (md_parameters md cls) in
  let parameters := pad_nulls parameters index in
  let entry := match parameters !! index with
               | Some (Some l) => l
               | _ => []
               end in
  define_parameters md cls (<[index := Some (entry ++ [annotationInstance])]> parameters).

(** The [TypeDecorator(cls)] that [makeDecorator(name, props)(objOrType)]
    returns. *)
Definition TypeDecorator (annotationInstance : value) (cls : nat)
    (md : Metadata) : Metadata :=
  let annotations := default [] (md_annotations md cls) in
  define_annotations md cls (annotations ++ [annotationInstance]).

(** ** _zipTypesAndAnnotations *)

(** The global [Object] constructor, the object at address 3, and the
    text that [Function.prototype.toString] gives for it. *)
Definition Object_ctor : value := VFunc 3 "Object".

Definition Object_toString : string := "function Object() { [native code] }".

(** [v == Object], the loose comparison: an object is compared by
    reference; for a primitive, [Object] is first converted to its text, so
    that a string is equal to [Object] when it is this text, and a number
    or a boolean never is (the text is not a number). *)
Definition loose_eq_Object (v : value) : bool :=
  match v with
  | VStr s => String.eqb s Object_toString
  | _ => strict_eq v Object_ctor
  end.

(** The entry [result[i]]. *)
Definition zip_entry (paramTypes : option (list value))
    (paramAnnotations : option (list (option (list value)))) (i : nat)
    : list value :=
  let types :=
    match paramTypes with
    | None => []
    | Some ts =>
        match ts !! i with
        | Some t => if negb (falsy t) && negb (loose_eq_Object t)
                    then [t] else []
        | None => []
        end
    end in
  match paramAnnotations with
  | Some an =>
      match an !! i with
      | Some (Some a) => types ++ a
      | _ => types
      end
  | None => types
  end.

(** [_zipTypesAndAnnotations(paramTypes, paramAnnotations)]; [None] is
    [undefined]. *)
Definition _zipTypesAndAnnotations (paramTypes : option (list value))
    (paramAnnotations : option (list (option (list value))))
    : result (list (list value)) :=
  let len :=
    match paramTypes with
    | None =>
        match paramAnnotations with
        | None => Err typeError
        | Some an => Ok (length an)
        end
    | Some ts => Ok (length ts)
    end in
  match len with
  | Err e => Err e
  | Ok n => Ok (map (zip_entry paramTypes paramAnnotations) (seq 0 n))
  end.

Lemma zip_lookup pt pa n i :
  i < n ->
  map (zip_entry pt pa) (seq 0 n) !! i = Some (zip_entry pt pa i).
Proof.
  intros Hi. rewrite list_lookup_fmap.
  rewrite (lookup_seq_lt 0 n i Hi). reflexivity.
Qed.

(** X9. [_zipTypesAndAnnotations] returns one entry per parameter type,
    or, without parameter types, one per annotation entry, and fails only
    when both are missing.  The entry of a parameter is its type, left out
    when the type is missing, falsy or loosely equal to [Object],
    followed by the annotations of the parameter in their order; annotations of positions
    beyond the parameter types are dropped. *)
Theorem X9_zipTypesAndAnnotations (paramTypes : option (list value))
    (paramAnnotations : option (list (option (list value)))) :
  (forall ts, paramTypes = Some ts ->
     exists res, _zipTypesAndAnnotations paramTypes paramAnnotations = Ok res /\
       length res = length ts /\
       forall i t, ts !! i = Some t ->
         res !! i =
           Some ((if negb (falsy t) && negb (loose_eq_Object t) then [t] else [])
                 ++ match paramAnnotations with
                    | Some an => match an !! i with
                                 | Some (Some a) => a
                                 | _ => []
                                 end
                    | None => []
                    end)) /\
  (paramTypes = None ->
     forall an, paramAnnotations = Some an ->
       exists res, _zipTypesAndAnnotations paramTypes paramAnnotations = Ok res /\
         length res = length an /\
         forall i e, an !! i = Some e -> res !! i = Some (default [] e)) /\
  (paramTypes = None -> paramAnnotations = None ->
     _zipTypesAndAnnotations paramTypes paramAnnotations = Err typeError).
Proof.
  split; [|split].
  - intros ts ->. eexists. split; [reflexivity|]. split.
    + rewrite length_map, length_seq. reflexivity.
    + intros i t Hi.
      rewrite zip_lookup by (eapply lookup_lt_Some; eauto).
      unfold zip_entry. rewrite Hi. f_equal.
      destruct paramAnnotations as [an|]; [|rewrite app_nil_r; reflexivity].
      destruct (an !! i) as [[a|]|]; try reflexivity;
        rewrite app_nil_r; reflexivity.
  - intros -> an ->. eexists. split; [reflexivity|]. split.
    + rewrite length_map, length_seq. reflexivity.
    + intros i e Hi.
      rewrite zip_lookup by (eapply lookup_lt_Some; eauto).
      unfold zip_entry. rewrite Hi. destruct e; reflexivity.
  - intros -> ->. reflexivity.
Qed.

Lemma X9_witness :
  exists res,
    _zipTypesAndAnnotations (Some [tokA; Object_ctor]) (Some [Some [VStr "a"]; None; Some [VStr "c"]])
      = Ok res /\ length res = 2.
Proof.
  destruct (proj1 (X9_zipTypesAndAnnotations (Some [tokA; Object_ctor])
                     (Some [Some [VStr "a"]; None; Some [VStr "c"]]))
              [tokA; Object_ctor] eq_refl) as (res & E & Hl & _).
  exists res. split; [exact E|exact Hl].
Defined.

Lemma update_eq {A} (f : nat -> A) k a : update f k a k = a.
Proof. unfold update. rewrite Nat.eqb_refl. reflexivity. Qed.

Lemma update_neq {A} (f : nat -> A) k k' a : k <> k' -> update f k a k' = f k'.
Proof.
  intros H. unfold update. destruct (Nat.eqb_spec k k'); [contradiction|reflexivity].
Qed.

Lemma pad_nulls_length l index :
  length (pad_nulls l index) = Nat.max (length l) (S index).
Proof. unfold pad_nulls. rewrite length_app, length_replicate. lia. Qed.

Lemma pad_nulls_lookup l index j :
  j < length (pad_nulls l index) ->
  pad_nulls l index !! j = Some (match l !! j with Some e => e | None => None end).
Proof.
  intros Hj. unfold pad_nulls in *.
  destruct (l !! j) as [e|] eqn:E.
  - rewrite lookup_app_l by (eapply lookup_lt_Some; eauto). exact E.
  - apply lookup_ge_None in E. rewrite lookup_app_r by exact E.
    apply lookup_replicate. split; [reflexivity|].
    rewrite length_app, length_replicate in Hj. lia.
Qed.

(** The annotations that the "parameters" metadata of [cls] holds for the
    parameter at [j]: none when there is no metadata, no entry or a
    [null] entry. *)
Definition param_annotations (md : Metadata) (cls j : nat) : list value :=
  match md_parameters md cls with
  | Some l => match l !! j with Some (Some a) => a | _ => [] end
  | None => []
  end.

Lemma ParamDecorator_parameters ann cls index md :
  md_parameters (ParamDecorator ann cls index md) cls =
    Some (<[index := Some (param_annotations md cls index ++ [ann])]>
            (pad_nulls (default [] (md_parameters md cls)) index)).
Proof.
  unfold ParamDecorator, define_parameters. cbn [md_parameters].
  rewrite update_eq. f_equal.
  assert (Hi : index < length (pad_nulls (default [] (md_parameters md cls)) index))
    by (rewrite pad_nulls_length; lia).
  rewrite (pad_nulls_lookup _ _ _ Hi).
  unfold param_annotations.
  destruct (md_parameters md cls) as [l|]; simpl.
  - destruct (l !! index) as [[a|]|]; reflexivity.
  - reflexivity.
Qed.

Lemma ParamDecorator_annotations ann cls index md j :
  param_annotations (ParamDecorator ann cls index md) cls j =
    if Nat.eqb j index then param_annotations md cls index ++ [ann]
    else param_annotations md cls j.
Proof.
  assert (Hi : index < length (pad_nulls (default [] (md_parameters md cls)) index))
    by (rewrite pad_nulls_length; lia).
  unfold param_annotations at 1.
  rewrite ParamDecorator_parameters.
  destruct (Nat.eqb_spec j index) as [->|Hne].
  - rewrite list_lookup_insert_eq by exact Hi. reflexivity.
  - rewrite list_lookup_insert_ne by congruence.
    destruct (Nat.lt_ge_cases j
                (length (pad_nulls (default [] (md_parameters md cls)) index)))
      as [Hj|Hj].
    + rewrite (pad_nulls_lookup _ _ _ Hj). unfold param_annotations.
      destruct (md_parameters md cls) as [l|]; simpl.
      * destruct (l !! j) as [[a|]|]; reflexivity.
      * reflexivity.
    + rewrite (proj2 (lookup_ge_None _ _) Hj).
      rewrite pad_nulls_length in Hj. unfold param_annotations.
      destruct (md_parameters md cls) as [l|]; simpl in *; [|reflexivity].
      rewrite (proj2 (lookup_ge_None l j)) by lia. reflexivity.
Qed.

Lemma ParamDecorator_other ann cls index md c :
  c <> cls -> md_parameters (ParamDecorator ann cls index md) c = md_parameters md c.
Proof.
  intros Hc. unfold ParamDecorator, define_parameters. cbn [md_parameters].
  apply update_neq. congruence.
Qed.

(** X10. [ParamDecorator(cls, _, index)] appends its annotation to the
    annotations of the parameter at [index] and changes nothing else: the
    "parameters" entry of [cls] grows to [index + 1] elements when it was
    shorter, the elements added before [index] are [null], every other
    element is kept, and the metadata of other classes and under the other
    keys is untouched. *)
Theorem X10_ParamDecorator_appends (ann : value) (cls index : nat) (md : Metadata) :
  exists l,
    md_parameters (ParamDecorator ann cls index md) cls = Some l /\
    length l = Nat.max (length (default [] (md_parameters md cls))) (S index) /\
    (forall j, param_annotations (ParamDecorator ann cls index md) cls j =
       if Nat.eqb j index then param_annotations md cls index ++ [ann]
       else param_annotations md cls j) /\
    (forall j, j <> index -> j < length l ->
       l !! j = Some (match default [] (md_parameters md cls) !! j with
                      | Some e => e
                      | None => None
                      end)) /\
    (forall c, c <> cls ->
       md_parameters (ParamDecorator ann cls index md) c = md_parameters md c) /\
    md_paramtypes (ParamDecorator ann cls index md) = md_paramtypes md /\
    md_annotations (ParamDecorator ann cls index md) = md_annotations md.
Proof.
  eexists. split; [apply ParamDecorator_parameters|].
  split; [|split; [|split; [|split; [|split]]]].
  - rewrite length_insert. apply pad_nulls_length.
  - apply ParamDecorator_annotations.
  - intros j Hne Hj. rewrite length_insert in Hj.
    rewrite list_lookup_insert_ne by congruence.
    apply pad_nulls_lookup. exact Hj.
  - intros c. apply ParamDecorator_other.
  - reflexivity.
  - reflexivity.
Qed.

(** ** Regular expressions

    The four regular expressions of [reflection_capabilities.ts] use
    literals, character classes, concatenation, alternation, [*] and [+],
    and are anchored at the start only; [RegExp.prototype.test] then asks
    whether a prefix of the text is in the language of the expression.
    Texts are sequences of code units below 256. *)

Inductive regex : Type :=
  | Void                              (* matches nothing *)
  | Eps                               (* the empty text *)
  | Chr (p : ascii -> bool)           (* one character of a class *)
  | Cat (r s : regex)
  | Alt (r s : regex)
  | Star (r : regex).

(** [r+] *)
Definition Many1 (r : regex) : regex := Cat r (Star r).

(** A literal text. *)
Fixpoint Lit (s : string) : regex :=
  match s with
  | EmptyString => Eps
  | String c s' => Cat (Chr (Ascii.eqb c)) (Lit s')
  end.

Inductive matches : regex -> list ascii -> Prop :=
  | matches_eps : matches Eps []
  | matches_chr p c : p c = true -> matches (Chr p) [c]
  | matches_cat r s u v : matches r u -> matches s v -> matches (Cat r s) (u ++ v)
  | matches_alt_l r s u : matches r u -> matches (Alt r s) u
  | matches_alt_r r s u : matches s u -> matches (Alt r s) u
  | matches_star_nil r : matches (Star r) []
  | matches_star_cons r u v :
      matches r u -> matches (Star r) v -> matches (Star r) (u ++ v).

Fixpoint nullable (r : regex) : bool :=
  match r with
  | Void => false
  | Eps => true
  | Chr _ => false
  | Cat r s => nullable r && nullable s
  | Alt r s => nullable r || nullable s
  | Star _ => true
  end.

(** Concatenation and alternation that drop what cannot match. *)
Definition cat' (r s : regex) : regex :=
  match r, s with
  | Void, _ => Void
  | _, Void => Void
  | Eps, _ => s
  | _, _ => Cat r s
  end.

Definition alt' (r s : regex) : regex :=
  match r, s with
  | Void, _ => s
  | _, Void => r
  | _, _ => Alt r s
  end.

(** The derivative: what is left to match after the character [c]. *)
Fixpoint deriv (c : ascii) (r : regex) : regex :=
  match r with
  | Void => Void
  | Eps => Void
  | Chr p => if p c then Eps else Void
  | Cat r s =>
      if nullable r then alt' (cat' (deriv c r) s) (deriv c s)
      else cat' (deriv c r) s
  | Alt r s => alt' (deriv c r) (deriv c s)
  | Star r => cat' (deriv c r) (Star r)
  end.

(** [/^r/.test(s)]: some prefix of [s] matches [r]. *)
Fixpoint regex_test (r : regex) (s : list ascii) : bool :=
  nullable r ||
  match s with
  | [] => false
  | c :: s' => regex_test (deriv c r) s'
  end.

Lemma matches_void_inv w : ~ matches Void w.
Proof. intros H. inversion H. Qed.

Lemma matches_eps_inv w : matches Eps w -> w = [].
Proof. intros H. inversion H. reflexivity. Qed.

Lemma matches_chr_inv p w : matches (Chr p) w -> exists c, w = [c] /\ p c = true.
Proof. intros H. inversion H; subst. eauto. Qed.

Lemma matches_cat_inv r s w :
  matches (Cat r s) w -> exists u v, w = u ++ v /\ matches r u /\ matches s v.
Proof. intros H. inversion H; subst. eauto. Qed.

Lemma matches_alt_inv r s w : matches (Alt r s) w -> matches r w \/ matches s w.
Proof. intros H. inversion H; subst; auto. Qed.

Lemma matches_star_inv r w :
  matches (Star r) w ->
  w = [] \/ exists c u v, w = (c :: u) ++ v /\ matches r (c :: u) /\ matches (Star r) v.
Proof.
  intros H. remember (Star r) as q eqn:Eq.
  induction H; try discriminate.
  - left. reflexivity.
  - injection Eq as ->.
    destruct u as [|c u].
    + simpl. apply IHmatches2. reflexivity.
    + right. exists c, u, v. auto.
Qed.

Lemma nullable_matches r : nullable r = true <-> matches r [].
Proof.
  induction r as [| |p|r IHr s IHs|r IHr s IHs|r IHr]; simpl.
  - split; [discriminate|]. intros H. inversion H.
  - split; [constructor|reflexivity].
  - split; [discriminate|]. intros H. inversion H.
  - rewrite andb_true_iff, IHr, IHs. split.
    + intros [H1 H2]. apply (matches_cat r s [] [] H1 H2).
    + intros H. apply matches_cat_inv in H as (u & v & E & Hu & Hv).
      symmetry in E. apply app_eq_nil in E as [-> ->]. auto.
  - rewrite orb_true_iff, IHr, IHs. split.
    + intros [H|H]; [apply matches_alt_l|apply matches_alt_r]; exact H.
    + apply matches_alt_inv.
  - split; [constructor|reflexivity].
Qed.

Lemma cat'_matches r s w : matches (cat' r s) w <-> matches (Cat r s) w.
Proof.
  assert (Hv1 : forall q, matches (Cat Void q) w <-> matches Void w).
  { intros q. split; intros H; [|inversion H].
    apply matches_cat_inv in H as (u & v & _ & Hu & _). inversion Hu. }
  assert (Hv2 : forall q, matches (Cat q Void) w <-> matches Void w).
  { intros q. split; intros H; [|inversion H].
    apply matches_cat_inv in H as (u & v & _ & _ & Hv). inversion Hv. }
  assert (He : forall q, matches (Cat Eps q) w <-> matches q w).
  { intros q. split; intros H.
    - apply matches_cat_inv in H as (u & v & -> & Hu & Hv).
      apply matches_eps_inv in Hu as ->. exact Hv.
    - apply (matches_cat Eps q [] w); [constructor|exact H]. }
  destruct r; destruct s; simpl;
    rewrite ?Hv1, ?Hv2, ?He; try reflexivity; symmetry;
    first [apply Hv1 | apply Hv2 | apply He].
Qed.

Lemma alt'_matches r s w : matches (alt' r s) w <-> matches (Alt r s) w.
Proof.
  assert (Hl : forall q, matches (Alt Void q) w <-> matches q w).
  { intros q. split; intros H; [|apply matches_alt_r; exact H].
    apply matches_alt_inv in H as [H|H]; [inversion H|exact H]. }
  assert (Hr : forall q, matches (Alt q Void) w <-> matches q w).
  { intros q. split; intros H; [|apply matches_alt_l; exact H].
    apply matches_alt_inv in H as [H|H]; [exact H|inversion H]. }
  destruct r; destruct s; simpl; rewrite ?Hl, ?Hr; reflexivity.
Qed.

Lemma matches_cat_iff r s w :
  matches (Cat r s) w <-> exists u v, w = u ++ v /\ matches r u /\ matches s v.
Proof.
  split; [apply matches_cat_inv|].
  intros (u & v & -> & Hu & Hv). constructor; assumption.
Qed.

Lemma matches_alt_iff r s w : matches (Alt r s) w <-> matches r w \/ matches s w.
Proof.
  split; [apply matches_alt_inv|].
  intros [H|H]; [apply matches_alt_l|apply matches_alt_r]; exact H.
Qed.

Lemma deriv_matches c r : forall w, matches (deriv c r) w <-> matches r (c :: w).
Proof.
  induction r as [| |p|r IHr s IHs|r IHr s IHs|r IHr]; intros w; simpl.
  - split; intros H; inversion H.
  - split; intros H; inversion H.
  - destruct (p c) eqn:E.
    + split; intros H.
      * apply matches_eps_inv in H as ->. constructor. exact E.
      * apply matches_chr_inv in H as (c' & [= <- ->] & _). constructor.
    + split; intros H; [inversion H|].
      apply matches_chr_inv in H as (c' & [= <- _] & E'). congruence.
  - assert (Hcat : matches (cat' (deriv c r) s) w <->
                   exists u v, w = u ++ v /\ matches r (c :: u) /\ matches s v).
    { rewrite cat'_matches, matches_cat_iff.
      split; intros (u & v & E & Hu & Hv); exists u, v;
        (split; [exact E|split; [apply IHr; exact Hu|exact Hv]]). }
    assert (Hsplit : matches (Cat r s) (c :: w) <->
              (exists u v, w = u ++ v /\ matches r (c :: u) /\ matches s v) \/
              (matches r [] /\ matches s (c :: w))).
    { rewrite matches_cat_iff. split.
      - intros (u & v & E & Hu & Hv). destruct u as [|c' u].
        + right. simpl in E. subst v. auto.
        + left. injection E as <- ->. eauto.
      - intros [(u & v & -> & Hu & Hv)|[Hu Hv]].
        + exists (c :: u), v. auto.
        + exists [], (c :: w). auto. }
    rewrite Hsplit. destruct (nullable r) eqn:En.
    + rewrite alt'_matches, matches_alt_iff, Hcat, IHs.
      apply nullable_matches in En. tauto.
    + rewrite Hcat. split; [tauto|].
      intros [H|[H _]]; [exact H|].
      apply nullable_matches in H. congruence.
  - rewrite alt'_matches, !matches_alt_iff, IHr, IHs. reflexivity.
  - rewrite cat'_matches, matches_cat_iff. split.
    + intros (u & v & -> & Hu & Hv). apply IHr in Hu.
      apply (matches_star_cons r (c :: u) v Hu Hv).
    + intros H. apply matches_star_inv in H as [H|(c' & u & v & E & Hu & Hv)];
        [discriminate|].
      injection E as <- ->. exists u, v. split; [reflexivity|].
      split; [apply IHr; exact Hu|exact Hv].
Qed.

Lemma regex_test_spec s : forall r,
  regex_test r s = true <-> exists u v, s = u ++ v /\ matches r u.
Proof.
  induction s as [|c s IH]; intros r; simpl.
  - rewrite orb_false_r, nullable_matches. split.
    + intros H. exists [], []. auto.
    + intros (u & v & E & H). symmetry in E.
      apply app_eq_nil in E as [-> _]. exact H.
  - rewrite orb_true_iff, nullable_matches, IH. split.
    + intros [H|(u & v & -> & H)].
      * exists [], (c :: s). auto.
      * exists (c :: u), v. split; [reflexivity|]. apply deriv_matches. exact H.
    + intros (u & v & E & H). destruct u as [|c' u].
      * left. exact H.
      * right. injection E as <- ->. exists u, v. split; [reflexivity|].
        apply deriv_matches. exact H.
Qed.

Lemma matches_lit s : matches (Lit s) (list_ascii_of_string s).
Proof.
  induction s as [|c s IH]; simpl; [constructor|].
  apply (matches_cat _ _ [c] _); [|exact IH].
  constructor. apply Ascii.eqb_refl.
Qed.

Lemma matches_lit_inv s : forall w, matches (Lit s) w -> w = list_ascii_of_string s.
Proof.
  induction s as [|c s IH]; intros w H; simpl in *.
  - apply matches_eps_inv. exact H.
  - apply matches_cat_inv in H as (u & v & -> & Hu & Hv).
    apply matches_chr_inv in Hu as (c' & -> & E).
    apply Ascii.eqb_eq in E as <-. simpl. f_equal. apply IH. exact Hv.
Qed.

Lemma matches_star_class p w : matches (Star (Chr p)) w <-> Forall (fun c => p c = true) w.
Proof.
  split.
  - intros H. remember (Star (Chr p)) as q eqn:Eq.
    induction H; try discriminate.
    + constructor.
    + injection Eq as ->. apply matches_chr_inv in H as (c & -> & Hc).
      simpl. constructor; [exact Hc|]. apply IHmatches2. reflexivity.
  - induction 1 as [|c w Hc _ IH]; [constructor|].
    apply (matches_star_cons (Chr p) [c] w); [constructor; exact Hc|exact IH].
Qed.

Lemma matches_many1_class p w :
  matches (Many1 (Chr p)) w <-> w <> [] /\ Forall (fun c => p c = true) w.
Proof.
  unfold Many1. rewrite matches_cat_iff. split.
  - intros (u & v & -> & Hu & Hv). apply matches_chr_inv in Hu as (c & -> & Hc).
    split; [discriminate|]. constructor; [exact Hc|].
    apply matches_star_class. exact Hv.
  - intros [Hne H]. destruct H as [|c w Hc Hw]; [contradiction|].
    exists [c], w. split; [reflexivity|]. split; [constructor; exact Hc|].
    apply matches_star_class. exact Hw.
Qed.

(** A sequence of expressions, one after the other. *)
Fixpoint Seq (l : list regex) : regex :=
  match l with
  | [] => Eps
  | r :: l' => Cat r (Seq l')
  end.

Definition chars (s : string) : list ascii := list_ascii_of_string s.

(** ** isDelegateCtor *)

(** [\s] on code units below 256: tab, line feed, vertical tab, form feed,
    carriage return, space and the no-break space. *)
Definition is_space (c : ascii) : bool :=
  let n := N_of_ascii c in
  ((9 <=? n) && (n <=? 13) || (n =? 32) || (n =? 160))%N.

(** [\S] *)
Definition not_space (c : ascii) : bool := negb (is_space c).

(** [[\s\S]] *)
Definition any_char (c : ascii) : bool := true.

(** [[A-Za-z\d$_]] *)
Definition is_ident (c : ascii) : bool :=
  let n := N_of_ascii c in
  ((65 <=? n) && (n <=? 90) || (97 <=? n) && (n <=? 122) ||
   (48 <=? n) && (n <=? 57) || (n =? 36) || (n =? 95))%N.

(** [[^{]] *)
Definition not_brace (c : ascii) : bool := negb (Ascii.eqb c "{").

(** [[^()]] *)
Definition not_paren (c : ascii) : bool :=
  negb (Ascii.eqb c "(") && negb (Ascii.eqb c ")").

(** [/^function\s+\S+\(\)\s*{[\s\S]+\.apply\(this,\s*(arguments|[^()]+\(arguments\))\)/] *)
Definition ES5_DELEGATE_CTOR : regex :=
  Seq [Lit "function"; Many1 (Chr is_space); Many1 (Chr not_space); Lit "()";
       Star (Chr is_space); Lit "{"; Many1 (Chr any_char); Lit ".apply(this,";
       Star (Chr is_space);
       Alt (Lit "arguments") (Cat (Many1 (Chr not_paren)) (Lit "(arguments)"));
       Lit ")"].

(** [^class\s+[A-Za-z\d$_]*\s*extends\s+[^{]+{], with which the three
    expressions for ES2015 classes start. *)
Definition class_header : list regex :=
  [Lit "class"; Many1 (Chr is_space); Star (Chr is_ident); Star (Chr is_space);
   Lit "extends"; Many1 (Chr is_space); Many1 (Chr not_brace); Lit "{"].

(** [[\s\S]*constructor\s*\(] *)
Definition ctor_tail : list regex :=
  [Star (Chr any_char); Lit "constructor"; Star (Chr is_space); Lit "("].

(** [[\s\S]*constructor\s*\(\)\s*{\s*super\(\.\.\.arguments\)] *)
Definition delegate_ctor_tail : list regex :=
  [Star (Chr any_char); Lit "constructor"; Star (Chr is_space); Lit "()";
   Star (Chr is_space); Lit "{"; Star (Chr is_space); Lit "super(...arguments)"].

(** [/^class\s+[A-Za-z\d$_]*\s*extends\s+[^{]+{/] *)
Definition ES2015_INHERITED_CLASS : regex := Seq class_header.

(** [/^class\s+[A-Za-z\d$_]*\s*extends\s+[^{]+{[\s\S]*constructor\s*\(/] *)
Definition ES2015_INHERITED_CLASS_WITH_CTOR : regex :=
  Seq (class_header ++ ctor_tail).

(** [/^class\s+[A-Za-z\d$_]*\s*extends\s+[^{]+{[\s\S]*constructor\s*\(\)\s*{\s*super\(\.\.\.arguments\)/] *)
Definition ES2015_INHERITED_CLASS_WITH_DELEGATE_CTOR : regex :=
  Seq (class_header ++ delegate_ctor_tail).

Definition isDelegateCtor (typeStr : string) : bool :=
  let s := chars typeStr in
  regex_test ES5_DELEGATE_CTOR s ||
  regex_test ES2015_INHERITED_CLASS_WITH_DELEGATE_CTOR s ||
  (regex_test ES2015_INHERITED_CLASS s &&
   negb (regex_test ES2015_INHERITED_CLASS_WITH_CTOR s)).

Definition nl : string := String "010"%char EmptyString.

(** The texts of the reflector's tests "should support ES2015 classes when
    minified", "should support native class" and "should properly handle
    all class forms", with the answers the tests expect. *)
Definition isDelegateCtor_tests : list (string * bool) :=
  [ ("class ChildNoCtor extends Parent{}", true);
    ("class ChildNoCtorPrivateProps extends Parent{constructor(){super(...arguments);this.x=10}}", true);
    ("class ChildWithCtor extends Parent{constructor(){super()}}", false);
    (String.append "class ChildNoCtor extends Parent {}" nl, true);
    (String.concat nl
       ["class ChildNoCtorPrivateProps extends Parent {";
        "  constructor() {";
        "    super(...arguments);";
        "    this.x = 10;";
        "  }";
        "}";
        ""], true);
    (String.concat nl
       ["class ChildWithCtor extends Parent {";
        "  constructor() { super(); }}";
        ""], false);
    (String.append "class ChildNoCtor extends Parent['foo'].bar(baz) {}" nl, true);
    (String.concat nl
       ["class ChildWithCtor extends Parent['foo'].bar(baz) {";
        "  constructor() { super(); }}";
        ""], false);
    ("class Bar extends Foo {constructor(){}}", false);
    ("class Bar extends Foo { constructor ( ) {} }", false);
    ("class Bar extends Foo { other(){}; constructor(){} }", false);
    ("class extends Foo{}", true);
    ("class extends Foo {}", true);
    ("class Bar extends Foo {}", true);
    ("class $Bar1_ extends $Fo0_ {}", true);
    ("class Bar extends Foo { other(){} }", true) ].

Example isDelegateCtor_agrees_with_tests :
  forallb (fun t => Bool.eqb (isDelegateCtor (fst t)) (snd t)) isDelegateCtor_tests = true.
Proof. vm_compute. reflexivity. Qed.

Lemma matches_Seq_app l1 : forall l2 w,
  matches (Seq (l1 ++ l2)) w <->
  exists u v, w = u ++ v /\ matches (Seq l1) u /\ matches (Seq l2) v.
Proof.
  induction l1 as [|r l1 IH]; intros l2 w; simpl.
  - split.
    + intros H. exists [], w. split; [reflexivity|]. split; [constructor|exact H].
    + intros (u & v & -> & Hu & Hv). apply matches_eps_inv in Hu as ->. exact Hv.
  - rewrite matches_cat_iff. split.
    + intros (u & v & -> & Hu & Hv). apply IH in Hv as (v1 & v2 & -> & Hv1 & Hv2).
      exists (u ++ v1), v2. split; [apply app_assoc|].
      split; [constructor; assumption|exact Hv2].
    + intros (u & v & -> & Hu & Hv).
      apply matches_cat_inv in Hu as (u1 & u2 & -> & Hu1 & Hu2).
      exists u1, (u2 ++ v). split; [symmetry; apply app_assoc|].
      split; [exact Hu1|]. apply IH. eauto.
Qed.

Lemma regex_test_Void s : regex_test Void s = false.
Proof. induction s as [|c s IH]; simpl; [reflexivity|exact IH]. Qed.

Lemma regex_test_cons r c s :
  regex_test r (c :: s) = nullable r || regex_test (deriv c r) s.
Proof. reflexivity. Qed.

(** A text matched by a keyword, a non-empty run of a class and anything
    else starts with the keyword and a character of the class. *)
Lemma matches_keyword kw p l u :
  matches (Seq (Lit kw :: Many1 (Chr p) :: l)) u ->
  exists c rest, p c = true /\ u = chars kw ++ c :: rest.
Proof.
  intros H. simpl in H.
  apply matches_cat_inv in H as (u1 & u2 & -> & H1 & H2).
  apply matches_lit_inv in H1 as ->.
  apply matches_cat_inv in H2 as (v1 & v2 & -> & H1 & H2).
  apply matches_many1_class in H1 as [Hne Hall].
  destruct Hall as [|c v1 Hc _]; [contradiction|].
  exists c, (v1 ++ v2). split; [exact Hc|reflexivity].
Qed.

Lemma regex_test_keyword kw p l s :
  regex_test (Seq (Lit kw :: Many1 (Chr p) :: l)) s = true ->
  exists c rest, p c = true /\ s = chars kw ++ c :: rest.
Proof.
  intros H. apply regex_test_spec in H as (u & v & -> & H).
  apply matches_keyword in H as (c & rest & Hc & ->).
  exists c, (rest ++ v). split; [exact Hc|].
  rewrite <- app_assoc. reflexivity.
Qed.

(** X11. [isDelegateCtor] answers [true] only for a text that starts with
    the keyword [function] or the keyword [class], followed by white
    space: the text of an arrow function, of a method, of an [async]
    function or of a class expression assigned without a space is never
    taken for a delegating constructor. *)
Theorem X11_isDelegateCtor_keyword (typeStr : string) :
  isDelegateCtor typeStr = true ->
  exists c rest, is_space c = true /\
    (chars typeStr = chars "function" ++ c :: rest \/
     chars typeStr = chars "class" ++ c :: rest).
Proof.
  unfold isDelegateCtor. cbv zeta.
  rewrite !orb_true_iff, andb_true_iff.
  intros [[H|H]|[H _]].
  - apply regex_test_keyword in H as (c & rest & Hc & E). eauto.
  - apply regex_test_keyword in H as (c & rest & Hc & E). eauto.
  - apply regex_test_keyword in H as (c & rest & Hc & E). eauto.
Qed.

Lemma X11_witness :
  exists c rest, is_space c = true /\
    (chars "class Bar extends Foo {}" = chars "function" ++ c :: rest \/
     chars "class Bar extends Foo {}" = chars "class" ++ c :: rest).
Proof.
  apply (X11_isDelegateCtor_keyword "class Bar extends Foo {}").
  vm_compute. reflexivity.
Defined.

(** White space, and the two patterns that the expressions for ES2015
    classes look for after the opening brace of the class. *)
Definition white (sp : list ascii) : Prop := Forall (fun c => is_space c = true) sp.

Definition mentions_ctor (body : list ascii) : Prop :=
  exists pre sp post, white sp /\
    body = pre ++ chars "constructor" ++ sp ++ chars "(" ++ post.

Definition mentions_delegate_ctor (body : list ascii) : Prop :=
  exists pre sp1 sp2 sp3 post, white sp1 /\ white sp2 /\ white sp3 /\
    body = pre ++ chars "constructor" ++ sp1 ++ chars "()" ++ sp2 ++ chars "{" ++
           sp3 ++ chars "super(...arguments)" ++ post.

Lemma space_not_brace c : is_space c = true -> not_brace c = true.
Proof.
  intros H. unfold not_brace. destruct (Ascii.eqb_spec c "{") as [->|]; [|reflexivity].
  vm_compute in H. discriminate.
Qed.

Lemma ident_not_brace c : is_ident c = true -> not_brace c = true.
Proof.
  intros H. unfold not_brace. destruct (Ascii.eqb_spec c "{") as [->|]; [|reflexivity].
  vm_compute in H. discriminate.
Qed.

Lemma matches_star_any w : matches (Star (Chr any_char)) w.
Proof. apply matches_star_class. apply Forall_forall. reflexivity. Qed.

Lemma matches_Seq_nil w : matches (Seq []) w <-> w = [].
Proof.
  split; [apply matches_eps_inv|]. intros ->. constructor.
Qed.

Lemma matches_Seq_cons r l w :
  matches (Seq (r :: l)) w <->
  exists u v, w = u ++ v /\ matches r u /\ matches (Seq l) v.
Proof. apply matches_cat_iff. Qed.

Lemma matches_lit_iff s w : matches (Lit s) w <-> w = chars s.
Proof.
  split; [apply matches_lit_inv|]. intros ->. apply matches_lit.
Qed.

Lemma matches_class_header u :
  matches (Seq class_header) u <->
  exists sp1 name sp2 sp3 base,
    u = chars "class" ++ sp1 ++ name ++ sp2 ++ chars "extends" ++ sp3 ++ base ++ chars "{" /\
    (sp1 <> [] /\ white sp1) /\ Forall (fun c => is_ident c = true) name /\
    white sp2 /\ (sp3 <> [] /\ white sp3) /\
    (base <> [] /\ Forall (fun c => not_brace c = true) base).
Proof.
  unfold class_header, white. split.
  - intros H.
    apply matches_Seq_cons in H as (u1 & v1 & -> & H1 & H).
    apply matches_Seq_cons in H as (u2 & v2 & -> & H2 & H).
    apply matches_Seq_cons in H as (u3 & v3 & -> & H3 & H).
    apply matches_Seq_cons in H as (u4 & v4 & -> & H4 & H).
    apply matches_Seq_cons in H as (u5 & v5 & -> & H5 & H).
    apply matches_Seq_cons in H as (u6 & v6 & -> & H6 & H).
    apply matches_Seq_cons in H as (u7 & v7 & -> & H7 & H).
    apply matches_Seq_cons in H as (u8 & v8 & -> & H8 & H).
    apply matches_Seq_nil in H as ->.
    apply matches_lit_iff in H1 as ->. apply matches_lit_iff in H5 as ->.
    apply matches_lit_iff in H8 as ->.
    apply matches_many1_class in H2, H6, H7.
    apply matches_star_class in H3, H4.
    exists u2, u3, u4, u6, u7. rewrite app_nil_r.
    split; [reflexivity|]. tauto.
  - intros (sp1 & name & sp2 & sp3 & base & -> & H1 & H2 & H3 & H4 & H5).
    apply matches_Seq_cons. eexists _, _. split; [reflexivity|]. split; [apply matches_lit|].
    apply matches_Seq_cons. eexists _, _. split; [reflexivity|].
    split; [apply matches_many1_class; exact H1|].
    apply matches_Seq_cons. eexists _, _. split; [reflexivity|].
    split; [apply matches_star_class; exact H2|].
    apply matches_Seq_cons. eexists _, _. split; [reflexivity|].
    split; [apply matches_star_class; exact H3|].
    apply matches_Seq_cons. eexists _, _. split; [reflexivity|]. split; [apply matches_lit|].
    apply matches_Seq_cons. eexists _, _. split; [reflexivity|].
    split; [apply matches_many1_class; exact H4|].
    apply matches_Seq_cons. eexists _, _. split; [reflexivity|].
    split; [apply matches_many1_class; exact H5|].
    apply matches_Seq_cons. exists (chars "{"), []. split; [symmetry; apply app_nil_r|].
    split; [apply matches_lit|]. apply matches_Seq_nil. reflexivity.
Qed.

(** What matches the header has one opening brace, its last character. *)
Lemma class_header_brace u :
  matches (Seq class_header) u ->
  exists x, u = x ++ chars "{" /\ Forall (fun c => not_brace c = true) x.
Proof.
  intros H. apply matches_class_header in H
    as (sp1 & name & sp2 & sp3 & base & -> & [_ H1] & H2 & H3 & [_ H4] & [_ H5]).
  exists (chars "class" ++ sp1 ++ name ++ sp2 ++ chars "extends" ++ sp3 ++ base).
  split; [rewrite <- !app_assoc; reflexivity|].
  unfold white in *.
  assert (Hs : forall l, Forall (fun c => is_space c = true) l ->
                         Forall (fun c => not_brace c = true) l).
  { intros l Hl. eapply Forall_impl; [exact Hl|]. apply space_not_brace. }
  assert (Hi : Forall (fun c => not_brace c = true) name).
  { eapply Forall_impl; [exact H2|]. apply ident_not_brace. }
  assert (Hk : forall kw, forallb not_brace (chars kw) = true ->
                          Forall (fun c => not_brace c = true) (chars kw)).
  { intros kw Hkw. induction (chars kw) as [|c l IH]; [constructor|].
    simpl in Hkw. apply andb_true_iff in Hkw as [Hc Hl].
    constructor; [exact Hc|apply IH; exact Hl]. }
  repeat (apply Forall_app; split); auto.
Qed.

Lemma first_brace_unique x : forall h v body,
  Forall (fun c => not_brace c = true) x ->
  Forall (fun c => not_brace c = true) h ->
  x ++ chars "{" ++ v = h ++ chars "{" ++ body -> x = h /\ v = body.
Proof.
  induction x as [|c x IH]; intros h v body Hx Hh E.
  - destruct h as [|d h].
    + injection E as ->. auto.
    + injection E as <- _. inversion Hh as [|? ? Hd _]. discriminate.
  - destruct h as [|d h].
    + injection E as -> _. inversion Hx as [|? ? Hc _]. discriminate.
    + injection E as -> E. inversion Hx; inversion Hh; subst.
      destruct (IH h v body) as [-> ->]; auto.
Qed.

(** After a text that matches the header, an expression that starts with
    the header tests what follows the opening brace. *)
Lemma regex_test_class_header head body tail :
  matches (Seq class_header) head ->
  regex_test (Seq (class_header ++ tail)) (head ++ body) = regex_test (Seq tail) body.
Proof.
  intros Hh. apply Bool.eq_iff_eq_true. rewrite !regex_test_spec.
  destruct (class_header_brace head Hh) as (h & -> & Hfree).
  split.
  - intros (u & v & E & H).
    apply matches_Seq_app in H as (u1 & u2 & -> & H1 & H2).
    destruct (class_header_brace u1 H1) as (x & -> & Hx).
    rewrite <- !app_assoc in E. symmetry in E.
    apply first_brace_unique in E as [-> <-]; [|assumption|assumption].
    exists u2, v. auto.
  - intros (u & v & -> & H).
    exists ((h ++ chars "{") ++ u), v. split; [rewrite <- !app_assoc; reflexivity|].
    apply matches_Seq_app. eauto.
Qed.

Lemma regex_test_ctor_tail body :
  regex_test (Seq ctor_tail) body = true <-> mentions_ctor body.
Proof.
  rewrite regex_test_spec. unfold ctor_tail, mentions_ctor. split.
  - intros (u & post & -> & H).
    apply matches_Seq_cons in H as (u1 & v1 & -> & H1 & H).
    apply matches_Seq_cons in H as (u2 & v2 & -> & H2 & H).
    apply matches_Seq_cons in H as (u3 & v3 & -> & H3 & H).
    apply matches_Seq_cons in H as (u4 & v4 & -> & H4 & H).
    apply matches_Seq_nil in H as ->.
    apply matches_lit_iff in H2 as ->. apply matches_lit_iff in H4 as ->.
    apply matches_star_class in H3.
    exists u1, u3, post. split; [exact H3|].
    rewrite app_nil_r, <- !app_assoc. reflexivity.
  - intros (pre & sp & post & Hsp & ->).
    exists (pre ++ chars "constructor" ++ sp ++ chars "("), post.
    split; [rewrite <- !app_assoc; reflexivity|].
    apply matches_Seq_cons. eexists _, _. split; [reflexivity|].
    split; [apply matches_star_any|].
    apply matches_Seq_cons. eexists _, _. split; [reflexivity|]. split; [apply matches_lit|].
    apply matches_Seq_cons. eexists _, _. split; [reflexivity|].
    split; [apply matches_star_class; exact Hsp|].
    apply matches_Seq_cons. exists (chars "("), []. split; [symmetry; apply app_nil_r|].
    split; [apply matches_lit|]. apply matches_Seq_nil. reflexivity.
Qed.

Lemma regex_test_delegate_ctor_tail body :
  regex_test (Seq delegate_ctor_tail) body = true <-> mentions_delegate_ctor body.
Proof.
  rewrite regex_test_spec. unfold delegate_ctor_tail, mentions_delegate_ctor. split.
  - intros (u & post & -> & H).
    apply matches_Seq_cons in H as (u1 & v1 & -> & H1 & H).
    apply matches_Seq_cons in H as (u2 & v2 & -> & H2 & H).
    apply matches_Seq_cons in H as (u3 & v3 & -> & H3 & H).
    apply matches_Seq_cons in H as (u4 & v4 & -> & H4 & H).
    apply matches_Seq_cons in H as (u5 & v5 & -> & H5 & H).
    apply matches_Seq_cons in H as (u6 & v6 & -> & H6 & H).
    apply matches_Seq_cons in H as (u7 & v7 & -> & H7 & H).
    apply matches_Seq_cons in H as (u8 & v8 & -> & H8 & H).
    apply matches_Seq_nil in H as ->.
    apply matches_lit_iff in H2 as ->. apply matches_lit_iff in H4 as ->.
    apply matches_lit_iff in H6 as ->. apply matches_lit_iff in H8 as ->.
    apply matches_star_class in H3, H5, H7.
    exists u1, u3, u5, u7, post. split; [exact H3|]. split; [exact H5|].
    split; [exact H7|]. rewrite app_nil_r, <- !app_assoc. reflexivity.
  - intros (pre & sp1 & sp2 & sp3 & post & H1 & H2 & H3 & ->).
    exists (pre ++ chars "constructor" ++ sp1 ++ chars "()" ++ sp2 ++ chars "{" ++
            sp3 ++ chars "super(...arguments)"), post.
    split; [rewrite <- !app_assoc; reflexivity|].
    apply matches_Seq_cons. eexists _, _. split; [reflexivity|].
    split; [apply matches_star_any|].
    apply matches_Seq_cons. eexists _, _. split; [reflexivity|]. split; [apply matches_lit|].
    apply matches_Seq_cons. eexists _, _. split; [reflexivity|].
    split; [apply matches_star_class; exact H1|].
    apply matches_Seq_cons. eexists _, _. split; [reflexivity|]. split; [apply matches_lit|].
    apply matches_Seq_cons. eexists _, _. split; [reflexivity|].
    split; [apply matches_star_class; exact H2|].
    apply matches_Seq_cons. eexists _, _. split; [reflexivity|]. split; [apply matches_lit|].
    apply matches_Seq_cons. eexists _, _. split; [reflexivity|].
    split; [apply matches_star_class; exact H3|].
    apply matches_Seq_cons. exists (chars "super(...arguments)"), [].
    split; [symmetry; apply app_nil_r|].
    split; [apply matches_lit|]. apply matches_Seq_nil. reflexivity.
Qed.

(** X12. For the text of a class with an [extends] clause, that is
    [class], white space, a name that may be empty, [extends], white
    space, a base expression without an opening brace and the opening
    brace of the class, [isDelegateCtor] looks at nothing but the text
    after that brace: the class delegates exactly when this text contains
    [constructor(){super(...arguments)] somewhere (white space allowed
    around the parentheses and the brace), or contains [constructor(]
    nowhere.  The word may stand anywhere: in a method call, a comment or
    a string of the class body. *)
Theorem X12_isDelegateCtor_class (typeStr : string)
    (sp1 name sp2 sp3 base body : list ascii) :
  sp1 <> [] -> white sp1 -> Forall (fun c => is_ident c = true) name ->
  white sp2 -> sp3 <> [] -> white sp3 ->
  base <> [] -> Forall (fun c => not_brace c = true) base ->
  chars typeStr =
    chars "class" ++ sp1 ++ name ++ sp2 ++ chars "extends" ++ sp3 ++ base ++
    chars "{" ++ body ->
  (isDelegateCtor typeStr = true <->
   mentions_delegate_ctor body \/ ~ mentions_ctor body).
Proof.
  intros Hne1 H1 H2 H3 Hne3 H4 Hneb H5 E.
  assert (Hh : matches (Seq class_header)
                 (chars "class" ++ sp1 ++ name ++ sp2 ++ chars "extends" ++ sp3 ++
                  base ++ chars "{")).
  { apply matches_class_header. exists sp1, name, sp2, sp3, base. tauto. }
  assert (Es : chars typeStr =
               (chars "class" ++ sp1 ++ name ++ sp2 ++ chars "extends" ++ sp3 ++
                base ++ chars "{") ++ body).
  { rewrite E, <- !app_assoc. reflexivity. }
  unfold isDelegateCtor. cbv zeta.
  assert (E5 : regex_test ES5_DELEGATE_CTOR (chars typeStr) = false).
  { rewrite E. change (chars "class") with ("c"%char :: chars "lass").
    rewrite <- app_comm_cons, regex_test_cons.
    replace (deriv "c" ES5_DELEGATE_CTOR) with Void by (vm_compute; reflexivity).
    rewrite regex_test_Void. reflexivity. }
  rewrite E5, Es. unfold ES2015_INHERITED_CLASS_WITH_DELEGATE_CTOR,
    ES2015_INHERITED_CLASS_WITH_CTOR, ES2015_INHERITED_CLASS.
  rewrite !(regex_test_class_header _ body _ Hh).
  rewrite <- (app_nil_r class_header).
  rewrite (regex_test_class_header _ body [] Hh).
  rewrite <- regex_test_ctor_tail, <- regex_test_delegate_ctor_tail.
  replace (regex_test (Seq []) body) with true by (destruct body; reflexivity).
  destruct (regex_test (Seq delegate_ctor_tail) body),
           (regex_test (Seq ctor_tail) body); simpl; split; intros H;
    try reflexivity; try discriminate;
    try (left; reflexivity); try (right; discriminate).
  destruct H as [H|H]; [discriminate|]. exfalso. apply H. reflexivity.
Qed.

Lemma X12_witness :
  isDelegateCtor "class Bar extends Foo { other(){} }" = true <->
  mentions_delegate_ctor (chars " other(){} }") \/ ~ mentions_ctor (chars " other(){} }").
Proof.
  apply (X12_isDelegateCtor_class "class Bar extends Foo { other(){} }"
           (chars " ") (chars "Bar") (chars " ") (chars " ") (chars "Foo ")
           (chars " other(){} }")).
  - discriminate.
  - repeat constructor.
  - repeat constructor.
  - repeat constructor.
  - discriminate.
  - repeat constructor.
  - discriminate.
  - repeat constructor.
  - reflexivity.
Defined.

(** ** parameters and annotations *)

(** What the reflection reads of a function object: its text, its
    [length], and for [getParentCtor] its prototype: [None] when
    [ctor.prototype] is falsy, [Some None] when the prototype of
    [ctor.prototype] is [null], [Some (Some c)] when [c] is the
    [constructor] of that prototype. *)
Record FunctionObj : Type := mkFunctionObj {
  fn_toString : string;
  fn_length : nat;
  fn_prototype : option (option value)
}.

(** The function objects by address, and the property [annotations] of
    every value ([undefined] where there is none), for the direct API of
    [_ownAnnotations]. *)
Record Runtime : Type := mkRuntime {
  functions : nat -> FunctionObj;
  annotations_prop : value -> value
}.

(** Modelled from the spec: interface/type.ts is not part of the sources;
    a type is what can be constructed, a function or class: the
    reflector's tests expect the empty list for an object, a number and
    [null]. *)
Definition isType (v : value) : bool :=
  match v with
  | VFunc _ _ => true
  | _ => false
  end.

Definition getParentCtor (rt : Runtime) (ctor : nat) : value :=
  match fn_prototype (functions rt ctor) with
  | None => Object_ctor
  | Some None => Object_ctor
  | Some (Some parentCtor) => if falsy parentCtor then Object_ctor else parentCtor
  end.

(** [new Array(n).fill(undefined)]; an entry [None] is [undefined]. *)
Definition fill_undefined (n : nat) : list (option (list value)) := replicate n None.

(** Metadata read from the store is an array, which is truthy, or
    [undefined]. *)
Definition defined {A} (o : option A) : bool :=
  match o with
  | Some _ => true
  | None => false
  end.

(** [_ownParameters(type, parentCtor)]; [reflect] is [this._reflect], and
    the result [None] is [null]. *)
Definition _ownParameters (reflect : option Metadata) (rt : Runtime) (type : nat)
    : result (option (list (option (list value)))) :=
  let typeStr := fn_toString (functions rt type) in
  if isDelegateCtor typeStr then Ok None
  else
    let fallback := Ok (Some (fill_undefined (fn_length (functions rt type)))) in
    match reflect with
    | Some md =>
        let paramAnnotations := md_parameters md type in
        let paramTypes := md_paramtypes md type in
        if defined paramTypes || defined paramAnnotations then
          match _zipTypesAndAnnotations paramTypes paramAnnotations with
          | Ok res => Ok (Some (map Some res))
          | Err e => Err e
          end
        else fallback
    | None => fallback
    end.

(** [parameters(type)].  The recursion follows the [constructor]
    properties of the prototypes, which a program can set at will; it is
    cut by [fuel], and [None] stands for a call that has not returned
    within it. *)
Fixpoint parameters (fuel : nat) (reflect : option Metadata) (rt : Runtime)
    (type : value) : option (result (list (option (list value)))) :=
  match fuel with
  | 0 => None
  | S fuel' =>
      match type with
      | VFunc a _ =>
          let parentCtor := getParentCtor rt a in
          match _ownParameters reflect rt a with
          | Err e => Some (Err e)
          | Ok (Some own) => Some (Ok own)
          | Ok None =>
              if negb (strict_eq parentCtor Object_ctor)
              then parameters fuel' reflect rt parentCtor
              else Some (Ok [])
          end
      | _ => Some (Ok [])
      end
  end.

(** The classes whose parameters [type] takes: [type] itself, and the
    parent of a class that delegates its constructor, unless the parent
    is [Object]. *)
Inductive delegates_to (rt : Runtime) : value -> value -> Prop :=
  | delegates_here t : delegates_to rt t t
  | delegates_up a n t :
      isDelegateCtor (fn_toString (functions rt a)) = true ->
      strict_eq (getParentCtor rt a) Object_ctor = false ->
      delegates_to rt (getParentCtor rt a) t ->
      delegates_to rt (VFunc a n) t.

Lemma ownParameters_cases reflect rt a :
  (isDelegateCtor (fn_toString (functions rt a)) = true /\
   _ownParameters reflect rt a = Ok None) \/
  (isDelegateCtor (fn_toString (functions rt a)) = false /\
   exists own, _ownParameters reflect rt a = Ok (Some own) /\
     match reflect with
     | Some md =>
         match md_paramtypes md a, md_parameters md a with
         | None, None => own = fill_undefined (fn_length (functions rt a))
         | pt, pa =>
             length own = match pt with
                          | Some ts => length ts
                          | None => length (default [] pa)
                          end /\
             forall j, j < length own -> own !! j = Some (Some (zip_entry pt pa j))
         end
     | None => own = fill_undefined (fn_length (functions rt a))
     end).
Proof.
  unfold _ownParameters.
  destruct (isDelegateCtor (fn_toString (functions rt a))); [left; auto|right].
  split; [reflexivity|].
  destruct reflect as [md|]; [|eauto].
  destruct (md_paramtypes md a) as [ts|] eqn:Et;
    destruct (md_parameters md a) as [an|] eqn:Ea; simpl; eauto;
    (eexists; split; [reflexivity|]; split;
     [rewrite !length_map, length_seq; reflexivity|];
     intros j Hj; rewrite !length_map, length_seq in Hj;
     rewrite list_lookup_fmap, zip_lookup by exact Hj; reflexivity).
Qed.

(** A parent with two constructor parameters and a child whose
    constructor delegates, without any metadata. *)
Definition sample_runtime : Runtime :=
  mkRuntime
    (fun a =>
       if Nat.eqb a 20 then
         mkFunctionObj "class Child extends Parent {}" 0 (Some (Some (VFunc 21 "Parent")))
       else if Nat.eqb a 21 then
         mkFunctionObj "class Parent { constructor(a, b) {} }" 2 (Some (Some Object_ctor))
       else mkFunctionObj "function Object() { [native code] }" 1 (Some None))
    (fun _ => VUndefined).

(** X13. [parameters] never throws and returns the parameters of the
    nearest class that declares a constructor: it goes from a class whose
    constructor delegates to the parent, as long as the parent is not
    [Object], and returns the own parameters of the first class that does
    not delegate; it returns the empty list when it arrives at something
    that is not a function, or at a delegating class whose parent is
    [Object]. *)
Theorem X13_parameters_inherited (reflect : option Metadata) (rt : Runtime)
    (type t : value) :
  delegates_to rt type t ->
  exists N, forall fuel, N <= fuel ->
    (forall a n, t = VFunc a n ->
       isDelegateCtor (fn_toString (functions rt a)) = false ->
       exists own, _ownParameters reflect rt a = Ok (Some own) /\
         parameters fuel reflect rt type = Some (Ok own)) /\
    (isType t = false -> parameters fuel reflect rt type = Some (Ok [])) /\
    (forall a n, t = VFunc a n ->
       isDelegateCtor (fn_toString (functions rt a)) = true ->
       strict_eq (getParentCtor rt a) Object_ctor = true ->
       parameters fuel reflect rt type = Some (Ok [])).
Proof.
  induction 1 as [t|a n t Hd Hp _ IH].
  - exists 1. intros [|fuel] Hf; [lia|]. split; [|split].
    + intros a n -> Hnd.
      destruct (ownParameters_cases reflect rt a) as [[Hd _]|[_ (own & E & _)]];
        [congruence|].
      exists own. split; [exact E|]. simpl. rewrite E. reflexivity.
    + intros Ht. destruct t; try reflexivity. discriminate.
    + intros a n -> Hd Hp.
      destruct (ownParameters_cases reflect rt a) as [[_ E]|[Hnd _]];
        [|congruence].
      simpl. rewrite E, Hp. reflexivity.
  - destruct IH as [N IH]. exists (S N). intros [|fuel] Hf; [lia|].
    assert (E : parameters (S fuel) reflect rt (VFunc a n) =
                parameters fuel reflect rt (getParentCtor rt a)).
    { destruct (ownParameters_cases reflect rt a) as [[_ E]|[Hnd _]];
        [|congruence].
      simpl. rewrite E, Hp. reflexivity. }
    rewrite E. apply IH. lia.
Qed.

Lemma X13_witness :
  exists N, forall fuel, N <= fuel ->
    parameters fuel None sample_runtime (VFunc 20 "Child") = Some (Ok [None; None]).
Proof.
  destruct (X13_parameters_inherited None sample_runtime (VFunc 20 "Child")
              (VFunc 21 "Parent")) as [N HN].
  - apply delegates_up; [vm_compute; reflexivity|reflexivity|apply delegates_here].
  - exists N. intros fuel Hf.
    destruct (proj1 (HN fuel Hf) 21 "Parent" eq_refl) as (own & E & ->);
      [vm_compute; reflexivity|].
    vm_compute in E. congruence.
Defined.

(** The type that [_zipTypesAndAnnotations] puts in front of the
    annotations of the parameter at [j]. *)
Definition param_type (md : Metadata) (cls j : nat) : list value :=
  zip_entry (md_paramtypes md cls) None j.

Lemma zip_entry_split md cls j :
  zip_entry (md_paramtypes md cls) (md_parameters md cls) j =
    param_type md cls j ++ param_annotations md cls j.
Proof.
  unfold param_type, param_annotations, zip_entry.
  destruct (md_parameters md cls) as [an|]; [|rewrite app_nil_r; reflexivity].
  destruct (an !! j) as [[l|]|]; try reflexivity; rewrite app_nil_r; reflexivity.
Qed.

(** X14. After [ParamDecorator(cls, _, index)], [parameters] of a class
    that declares its constructor has, at [index], the entry it had before
    followed by the new annotation, and the entries it had before
    everywhere else.  With "design:paramtypes" the number of entries is
    the number of parameter types, so that a decoration at an index beyond
    them does not show; without, it is the highest decorated index plus
    one, whatever the [length] of the function.  The own parameters of
    other classes do not change. *)
Theorem X14_decorated_parameters (ann : value) (cls index : nat) (n : string)
    (md : Metadata) (rt : Runtime) (fuel : nat) :
  isDelegateCtor (fn_toString (functions rt cls)) = false ->
  exists res,
    parameters (S fuel) (Some (ParamDecorator ann cls index md)) rt (VFunc cls n)
      = Some (Ok res) /\
    length res = match md_paramtypes md cls with
                 | Some ts => length ts
                 | None => Nat.max (length (default [] (md_parameters md cls))) (S index)
                 end /\
    (forall j, j < length res ->
       res !! j =
         Some (Some (zip_entry (md_paramtypes md cls) (md_parameters md cls) j ++
                     (if Nat.eqb j index then [ann] else [])))) /\
    (forall other, other <> cls ->
       _ownParameters (Some (ParamDecorator ann cls index md)) rt other =
       _ownParameters (Some md) rt other).
Proof.
  intros Hnd.
  pose proof (ParamDecorator_parameters ann cls index md) as El.
  set (l := <[index := Some (param_annotations md cls index ++ [ann])]>
              (pad_nulls (default [] (md_parameters md cls)) index)) in El.
  assert (Hlen : length l =
                 Nat.max (length (default [] (md_parameters md cls))) (S index))
    by (unfold l; rewrite length_insert; apply pad_nulls_length).
  pose proof (ParamDecorator_annotations ann cls index md) as Hann.
  pose proof (ParamDecorator_other ann cls index md) as Hother.
  assert (Hpt : md_paramtypes (ParamDecorator ann cls index md) = md_paramtypes md)
    by reflexivity.
  destruct (ownParameters_cases (Some (ParamDecorator ann cls index md)) rt cls)
    as [[Hd _]|[_ (own & E & Hown)]]; [congruence|].
  exists own. split; [simpl; rewrite E; reflexivity|].
  rewrite Hpt, El in Hown.
  assert (Hshape : length own = match md_paramtypes md cls with
                                | Some ts => length ts
                                | None => length l
                                end /\
                   forall j, j < length own ->
                     own !! j = Some (Some (zip_entry (md_paramtypes md cls) (Some l) j))).
  { destruct (md_paramtypes md cls); exact Hown. }
  destruct Hshape as [Hl Hj]. split; [|split].
  - rewrite Hl. destruct (md_paramtypes md cls); [reflexivity|exact Hlen].
  - intros j Hlt. rewrite (Hj j Hlt). do 2 f_equal.
    assert (Ez : zip_entry (md_paramtypes md cls) (Some l) j =
                 param_type md cls j ++
                 param_annotations (ParamDecorator ann cls index md) cls j).
    { rewrite <- El, <- Hpt.
      rewrite (zip_entry_split (ParamDecorator ann cls index md) cls j).
      unfold param_type. rewrite Hpt. reflexivity. }
    rewrite Ez, Hann, zip_entry_split.
    destruct (Nat.eqb_spec j index) as [->|_].
    + rewrite app_assoc. reflexivity.
    + rewrite app_nil_r. reflexivity.
  - intros other Hne. unfold _ownParameters.
    rewrite Hpt, (Hother other Hne). reflexivity.
Qed.


Definition empty_metadata : Metadata :=
  mkMetadata (fun _ => None) (fun _ => None) (fun _ => None).

Lemma X14_witness :
  exists res,
    parameters 1 (Some (ParamDecorator (VStr "a") 21 1 empty_metadata)) sample_runtime
      (VFunc 21 "Parent") = Some (Ok res) /\
    length res = 2.
Proof.
  destruct (X14_decorated_parameters (VStr "a") 21 1 "Parent" empty_metadata
              sample_runtime 0) as (res & E & Hl & _).
  - vm_compute. reflexivity.
  - exists res. split; [exact E|exact Hl].
Defined.

(** [xs.concat(v)] appends the elements of an array, and any other value
    as one element. *)
Definition concat_items (v : value) : list value :=
  match v with
  | VArr _ l => l
  | _ => [v]
  end.

(** [_ownAnnotations(typeOrFunc, parentCtor)] for the function at [a]:
    [inl v] is a value found through the direct API, the property
    [annotations]; [inr l] an array read from the metadata store; [None]
    is [null] or [undefined]. *)
Definition _ownAnnotations (reflect : option Metadata) (rt : Runtime)
    (a : nat) (n : string) (parentCtor : value) : option (value + list value) :=
  let direct := annotations_prop rt (VFunc a n) in
  if negb (falsy direct) && negb (strict_eq direct (annotations_prop rt parentCtor))
  then
    if isType direct && negb (falsy (annotations_prop rt direct))
    then Some (inl (annotations_prop rt direct))
    else Some (inl direct)
  else
    match reflect with
    | Some md => option_map inr (md_annotations md a)
    | None => None
    end.

(** [this._ownAnnotations(typeOrFunc, parentCtor) || []], as the list
    that [concat] appends. *)
Definition own_annotations (reflect : option Metadata) (rt : Runtime)
    (typeOrFunc : value) : list value :=
  match typeOrFunc with
  | VFunc a n =>
      match _ownAnnotations reflect rt a n (getParentCtor rt a) with
      | Some (inl v) => concat_items v
      | Some (inr l) => l
      | None => []
      end
  | _ => []
  end.

(** [annotations(typeOrFunc)], cut by [fuel] like [parameters]. *)
Fixpoint annotations (fuel : nat) (reflect : option Metadata) (rt : Runtime)
    (typeOrFunc : value) : option (list value) :=
  match fuel with
  | 0 => None
  | S fuel' =>
      match typeOrFunc with
      | VFunc a n =>
          let parentCtor := getParentCtor rt a in
          let ownAnnotations := own_annotations reflect rt (VFunc a n) in
          if negb (strict_eq parentCtor Object_ctor)
          then
            match annotations fuel' reflect rt parentCtor with
            | Some parentAnnotations => Some (parentAnnotations ++ ownAnnotations)
            | None => None
            end
          else Some ownAnnotations
      | _ => Some []
      end
  end.

(** The classes from the root of the inheritance down to a class: the
    root is the class whose parent is [Object], or whose parent is not a
    function. *)
Inductive ancestry (rt : Runtime) : value -> list value -> Prop :=
  | ancestry_other v : isType v = false -> ancestry rt v []
  | ancestry_root a n :
      strict_eq (getParentCtor rt a) Object_ctor = true ->
      ancestry rt (VFunc a n) [VFunc a n]
  | ancestry_child a n l :
      strict_eq (getParentCtor rt a) Object_ctor = false ->
      ancestry rt (getParentCtor rt a) l ->
      ancestry rt (VFunc a n) (l ++ [VFunc a n]).

Lemma annotations_ancestry reflect rt t l :
  ancestry rt t l ->
  exists N, forall fuel, N <= fuel ->
    annotations fuel reflect rt t = Some (concat (map (own_annotations reflect rt) l)).
Proof.
  induction 1 as [v Hv|a n Hp|a n l Hp _ IH].
  - exists 1. intros [|fuel] Hf; [lia|]. destruct v; try reflexivity. discriminate.
  - exists 1. intros [|fuel] Hf; [lia|]. cbn [annotations]. rewrite Hp.
    cbn [negb map concat]. rewrite app_nil_r. reflexivity.
  - destruct IH as [N IH]. exists (S N). intros [|fuel] Hf; [lia|].
    cbn [annotations]. rewrite Hp. cbn [negb]. rewrite IH by lia.
    rewrite map_app, concat_app. cbn [map concat]. rewrite app_nil_r. reflexivity.
Qed.

(** X15. [annotations] of a class is the list of the own annotations of
    its ancestors and of the class, from the root of the inheritance down
    to the class, each class's annotations in their order; for a value
    that is not a function it is the empty list.  A function without a
    prototype is its own root: [annotations] returns its own annotations
    and does not fail. *)
Theorem X15_annotations_inherited (reflect : option Metadata) (rt : Runtime)
    (typeOrFunc : value) (l : list value) :
  ancestry rt typeOrFunc l ->
  (exists N, forall fuel, N <= fuel ->
     annotations fuel reflect rt typeOrFunc =
       Some (concat (map (own_annotations reflect rt) l))) /\
  (forall a n, typeOrFunc = VFunc a n ->
     fn_prototype (functions rt a) = None ->
     l = [typeOrFunc] /\
     forall fuel, annotations (S fuel) reflect rt typeOrFunc =
                    Some (own_annotations reflect rt typeOrFunc)).
Proof.
  intros Ha. split; [apply annotations_ancestry; exact Ha|].
  intros a n -> Hproto.
  assert (Hp : strict_eq (getParentCtor rt a) Object_ctor = true)
    by (unfold getParentCtor; rewrite Hproto; reflexivity).
  split.
  - inversion Ha as [v Hv|a' n' _|a' n' l' Hne _]; subst.
    + discriminate.
    + reflexivity.
    + congruence.
  - intros fuel. cbn [annotations]. rewrite Hp. reflexivity.
Qed.

Lemma X15_witness :
  exists N, forall fuel, N <= fuel ->
    annotations fuel
      (Some (TypeDecorator (VStr "child") 20 (TypeDecorator (VStr "parent") 21 empty_metadata)))
      sample_runtime (VFunc 20 "Child") =
    Some [VStr "parent"; VStr "child"].
Proof.
  apply (proj1 (X15_annotations_inherited
           (Some (TypeDecorator (VStr "child") 20
                    (TypeDecorator (VStr "parent") 21 empty_metadata)))
           sample_runtime (VFunc 20 "Child")
           ([VFunc 21 "Parent"] ++ [VFunc 20 "Child"])
           (ancestry_child sample_runtime 20 "Child" [VFunc 21 "Parent"] eq_refl
              (ancestry_root sample_runtime 21 "Parent" eq_refl)))).
Defined.

(** The value is not the function at the address [cls]. *)
Definition other_than (cls : nat) (v : value) : Prop :=
  match v with
  | VFunc a _ => a <> cls
  | _ => True
  end.

Lemma TypeDecorator_other ann cls md rt v :
  other_than cls v ->
  own_annotations (Some (TypeDecorator ann cls md)) rt v = own_annotations (Some md) rt v.
Proof.
  intros Hv. destruct v as [| | | | | |a n| | | |]; try reflexivity.
  simpl in Hv. unfold own_annotations, _ownAnnotations.
  unfold TypeDecorator, define_annotations. cbn [md_annotations].
  rewrite update_neq by congruence. reflexivity.
Qed.

Lemma TypeDecorator_own ann cls n md rt :
  falsy (annotations_prop rt (VFunc cls n)) = true ->
  own_annotations (Some (TypeDecorator ann cls md)) rt (VFunc cls n) =
    own_annotations (Some md) rt (VFunc cls n) ++ [ann].
Proof.
  intros Hf. unfold own_annotations, _ownAnnotations. rewrite Hf.
  cbn [negb andb]. unfold TypeDecorator, define_annotations. cbn [md_annotations].
  rewrite update_eq. destruct (md_annotations md cls); reflexivity.
Qed.

(** X16. [TypeDecorator(cls)] changes the metadata of [cls] only: in the
    annotations of [cls] and of every class that inherits from it, the
    new annotation comes after the annotations [cls] had and before those
    of the classes below it, and nothing else changes; this for a class
    without an [annotations] property of its own. *)
Theorem X16_class_decorator (ann : value) (cls : nat) (n : string)
    (md : Metadata) (rt : Runtime) (typeOrFunc : value) (l1 l2 : list value) :
  ancestry rt typeOrFunc (l1 ++ [VFunc cls n] ++ l2) ->
  Forall (other_than cls) (l1 ++ l2) ->
  falsy (annotations_prop rt (VFunc cls n)) = true ->
  exists N, forall fuel, N <= fuel ->
    annotations fuel (Some md) rt typeOrFunc =
      Some (concat (map (own_annotations (Some md) rt) l1) ++
            own_annotations (Some md) rt (VFunc cls n) ++
            concat (map (own_annotations (Some md) rt) l2)) /\
    annotations fuel (Some (TypeDecorator ann cls md)) rt typeOrFunc =
      Some (concat (map (own_annotations (Some md) rt) l1) ++
            own_annotations (Some md) rt (VFunc cls n) ++ [ann] ++
            concat (map (own_annotations (Some md) rt) l2)).
Proof.
  intros Ha Ho Hf.
  destruct (annotations_ancestry (Some md) rt _ _ Ha) as [N1 H1].
  destruct (annotations_ancestry (Some (TypeDecorator ann cls md)) rt _ _ Ha)
    as [N2 H2].
  apply Forall_app in Ho as [Ho1 Ho2].
  assert (Hsame : forall l, Forall (other_than cls) l ->
            map (own_annotations (Some (TypeDecorator ann cls md)) rt) l =
            map (own_annotations (Some md) rt) l).
  { intros l Hl. induction Hl as [|v l Hv _ IH]; [reflexivity|].
    simpl. rewrite IH, (TypeDecorator_other ann cls md rt v Hv). reflexivity. }
  exists (Nat.max N1 N2). intros fuel Hfuel. split.
  - rewrite H1 by lia. rewrite !map_app, !concat_app. cbn [map concat].
    rewrite app_nil_r. reflexivity.
  - rewrite H2 by lia. rewrite !map_app, !concat_app. cbn [map concat].
    rewrite app_nil_r, (Hsame l1 Ho1), (Hsame l2 Ho2),
      (TypeDecorator_own ann cls n md rt Hf), <- !app_assoc. reflexivity.
Qed.

Lemma X16_witness :
  exists N, forall fuel, N <= fuel ->
    annotations fuel (Some empty_metadata) sample_runtime (VFunc 20 "Child") = Some [] /\
    annotations fuel (Some (TypeDecorator (VStr "parent") 21 empty_metadata))
      sample_runtime (VFunc 20 "Child") = Some [VStr "parent"].
Proof.
  apply (X16_class_decorator (VStr "parent") 21 "Parent" empty_metadata sample_runtime
           (VFunc 20 "Child") [] [VFunc 20 "Child"]).
  - apply (ancestry_child sample_runtime 20 "Child" [VFunc 21 "Parent"]);
      [reflexivity|]. apply ancestry_root. reflexivity.
  - repeat constructor. simpl. lia.
  - reflexivity.
Defined.

(** ** The nearest binding wins *)

(** X17. When a child and its parent both bind a token, [get] on the
    child constructs the child's provider and caches the instance in the
    child; the parent is not consulted: its providers, its cache and its
    construction counter are what they were, so that the parent still has
    to construct an instance of its own. *)
Theorem X17_nearest_binding_wins (fuel : nat) (w : World) (p c : nat)
    (rp rc : ReflectiveInjector_) (t : value) (k : ReflectiveKey) (iC iP : nat)
    (pC : ResolvedReflectiveProvider) (rf : ResolvedReflectiveFactory)
    (rest : list ResolvedReflectiveFactory) (arg : option value)
    (v : value) (n : nat) :
  injectors w !! c = Some (Reflective rc) ->
  injectors w !! p = Some (Reflective rp) ->
  c <> p -> parent rc = Some p ->
  ReflectiveKey_get (globalKeyRegistry w) t = (Ok k, globalKeyRegistry w) ->
  key_eqb k INJECTOR_KEY = false ->
  find_keyId (keyIds rc) (id k) 0 = Some iC ->
  find_keyId (keyIds rp) (id k) 0 = Some iP ->
  read_slot (objs rc) iC = UNDEFINED ->
  constructionCounter rc <= length (objs rc) ->
  providers rc !! iC = Some pC ->
  multiProvider pC = false -> resolvedFactories pC = rf :: rest ->
  dependencies rf = [] ->
  factory rf [] (heap_next w) = FReturn v n -> v <> UNDEFINED ->
  exists w1,
    get (S (S fuel)) c t arg w = Ret v w1 /\
    injectors w1 !! p = Some (Reflective rp) /\
    exists rc1, injectors w1 !! c = Some (Reflective rc1) /\
      objs rc1 !! iC = Some v /\ providers rc1 = providers rc.
Proof.
  intros Hc Hp Hne Hpar Ht Hk HiC HiP Hslot Hcount HpC Hm Hrf Hd Hv Hund.
  assert (Hlt : iC < length (objs rc)) by (apply read_slot_in_range; exact Hslot).
  assert (Hclt : c < length (injectors w)) by (eapply lookup_lt_Some; eauto).
  rewrite (get_unfold _ _ _ _ _ _ _ Ht), set_registry_same.
  rewrite getByKey_default_unfold by exact Hk.
  rewrite (walk_first _ _ _ _ _ _ _ _ Hc).
  rewrite (getObjByKeyId_construct _ _ _ _ _ _ Hc HiC) by (rewrite Hslot; reflexivity).
  rewrite HpC, (new_guard_passes _ _ _ _ _ Hc Hcount).
  rewrite (instantiateProvider_single _ _ _ _ _ _ Hm Hrf).
  unfold instantiate. rewrite Hd. cbn [mapM]. unfold ret.
  change (heap_next (incr_counter w c rc)) with (heap_next w). rewrite Hv.
  unfold write_slot. simpl.
  rewrite list_lookup_insert_eq by exact Hclt. simpl.
  unfold read_slot. rewrite list_lookup_insert_eq by exact Hlt. simpl.
  rewrite (proj2 (strict_eq_UNDEFINED v) Hund). simpl.
  eexists. split; [reflexivity|]. simpl. split.
  - rewrite !list_lookup_insert_ne by exact Hne. exact Hp.
  - eexists. split; [apply list_lookup_insert_eq; rewrite length_insert; exact Hclt|].
    simpl. split; [apply list_lookup_insert_eq; exact Hlt|reflexivity].
Qed.

Lemma X17_witness :
  let w := mkWorld [Reflective (ReflectiveInjector__new [provA] None);
                    Reflective (set_parent (ReflectiveInjector__new [provA] None) (Some 0))]
             registry0 10 in
  exists w1,
    get 2 1 tokA None w = Ret (VObj 10) w1 /\
    injectors w1 !! 0 = Some (Reflective (ReflectiveInjector__new [provA] None)) /\
    exists rc1, injectors w1 !! 1 = Some (Reflective rc1) /\
      objs rc1 !! 0 = Some (VObj 10) /\
      providers rc1 =
        providers (set_parent (ReflectiveInjector__new [provA] None) (Some 0)).
Proof.
  intros w.
  apply (X17_nearest_binding_wins 0 w 0 1
           (ReflectiveInjector__new [provA] None)
           (set_parent (ReflectiveInjector__new [provA] None) (Some 0))
           tokA keyA 0 0 provA (mkFactory class_factory []) [] None (VObj 10) 11
           eq_refl eq_refl (Nat.neq_succ_0 0) eq_refl eq_refl eq_refl eq_refl eq_refl
           eq_refl (le_S 0 0 (le_n 0)) eq_refl eq_refl eq_refl eq_refl eq_refl).
  discriminate.
Defined.
